(** * Zircon: condition-variable template and display fence

    Shallow embedding of
      - system/ulib/sync/include/lib/sync/internal/condvar-template.h
      - system/dev/display/display/fence.cpp
    Pointers are addresses ([positive]) into finite maps; [nullptr] is
    [None].  A dereference of a null or dangling pointer makes the
    embedded function return [None]. *)

From stdpp Require Import base option list gmap.
From Stdlib Require Import ZArith Lia.

Open Scope Z_scope.

(** Modelled from the spec: [zx_status_t] and its constants are declared in
    zircon/errors.h, which is not among the sources.  The spec names the
    three statuses the condition variable returns (OK, TIMED_OUT,
    BAD_STATE); every other status (a dispatcher's registration error) is
    carried by its numeric code. *)
Inductive zx_status_t : Type :=
| ZX_OK
| ZX_ERR_BAD_STATE
| ZX_ERR_TIMED_OUT
| ZX_ERR (code : Z).

#[global] Instance zx_status_eq_dec : EqDecision zx_status_t.
Proof. solve_decision. Defined.

(** Modelled from the spec: [zx_time_t] and [ZX_TIME_INFINITE] are declared
    in zircon/types.h, which is not among the sources.  A deadline is a
    point in time or, as in the spec's [timed_wait(cv, m, ∞)], never. *)
Inductive zx_time_t : Type :=
| deadline_at (t : Z)
| ZX_TIME_INFINITE.

#[global] Instance zx_time_eq_dec : EqDecision zx_time_t.
Proof. solve_decision. Defined.

(** C [int]: the value a 32-bit two's complement register holds. *)
Definition wrap_int (x : Z) : Z := (x + 2 ^ 31) mod 2 ^ 32 - 2 ^ 31.

Module Condvar.

Definition addr := positive.

(** enum { UNLOCKED, LOCKED_NO_WAITERS, LOCKED_MAYBE_WAITERS } *)
Definition UNLOCKED : Z := 0.
Definition LOCKED_NO_WAITERS : Z := 1.
Definition LOCKED_MAYBE_WAITERS : Z := 2.

(** enum { WAITING, SIGNALED, LEAVING } *)
Inductive wstate : Type := WAITING | SIGNALED | LEAVING.

#[global] Instance wstate_eq_dec : EqDecision wstate.
Proof. solve_decision. Defined.

(** struct Waiter *)
Record Waiter : Type := mkWaiter {
  prev : option addr;
  next : option addr;
  state : wstate;
  barrier : Z;
  notify : option addr
}.

(** [Waiter node;] with its default member initialisers. *)
Definition new_Waiter : Waiter :=
  {| prev := None; next := None; state := WAITING;
     barrier := LOCKED_MAYBE_WAITERS; notify := None |}.

Definition set_prev (v : option addr) (w : Waiter) : Waiter :=
  {| prev := v; next := next w; state := state w;
     barrier := barrier w; notify := notify w |}.
Definition set_next (v : option addr) (w : Waiter) : Waiter :=
  {| prev := prev w; next := v; state := state w;
     barrier := barrier w; notify := notify w |}.
Definition set_state (v : wstate) (w : Waiter) : Waiter :=
  {| prev := prev w; next := next w; state := v;
     barrier := barrier w; notify := notify w |}.
Definition set_barrier (v : Z) (w : Waiter) : Waiter :=
  {| prev := prev w; next := next w; state := state w;
     barrier := v; notify := notify w |}.
Definition set_notify (v : option addr) (w : Waiter) : Waiter :=
  {| prev := prev w; next := next w; state := state w;
     barrier := barrier w; notify := v |}.

(** The [head] and [tail] fields of the 'Condvar' struct.  Its [lock] word
    is only ever handed to [sync_mtx_lock] / [sync_mtx_unlock]
    (lib/sync/mtx.h, not among the sources); the two calls are recorded in
    the call log of the functions below. *)
Record Condvar : Type := mkCondvar {
  head : option addr;
  tail : option addr
}.

(** ** The list edits, each done with [c->lock] held *)

(** timedwait, lines 136-146: the fresh [node] at address [a] is put at
    the head of the list. *)
Definition enqueue (a : addr) (c : Condvar) (h : gmap addr Waiter)
  : option (Condvar * gmap addr Waiter) :=
  let h := <[a := set_next (head c) new_Waiter]> h in
  let c := {| head := Some a; tail := tail c |} in
  match tail c with
  | None => Some ({| head := head c; tail := Some a |}, h)
  | Some _ =>
      node ← h !! a;
      n ← next node;
      wn ← h !! n;
      Some (c, <[n := set_prev (Some a) wn]> h)
  end.

(** timedwait, lines 189-199: a timed-out waiter takes its node out. *)
Definition unlink (a : addr) (c : Condvar) (h : gmap addr Waiter)
  : option (Condvar * gmap addr Waiter) :=
  node ← h !! a;
  '(c, h) ←
    (if decide (head c = Some a) then
       Some ({| head := next node; tail := tail c |}, h)
     else
       match prev node with
       | Some p => wp ← h !! p; Some (c, <[p := set_next (next node) wp]> h)
       | None => Some (c, h)
       end);
  node ← h !! a;
  if decide (tail c = Some a) then
    Some ({| head := head c; tail := prev node |}, h)
  else
    match next node with
    | Some n => wn ← h !! n; Some (c, <[n := set_prev (prev node) wn]> h)
    | None => Some (c, h)
    end.

(** The locals of [signal] while it walks the list. *)
Record walk : Type := mkWalk {
  w_heap : gmap addr Waiter;
  w_p : option addr;
  w_n : Z;
  w_first : option addr;
  w_ref : Z
}.

(** signal, lines 282-298: [for (p = c->tail; n && p; p = p->prev)].
    [ref_addr] is the address of the local [ref].  The loop ends when the
    [prev] links end; [fuel] bounds the number of nodes visited. *)
Fixpoint signal_walk (ref_addr : addr) (fuel : nat) (s : walk) : option walk :=
  if decide (w_n s = 0) then Some s else
  match w_p s with
  | None => Some s
  | Some p =>
      match fuel with
      | O => None
      | S fuel =>
          w ← w_heap s !! p;
          if decide (state w = WAITING) then
            let h := <[p := set_state SIGNALED w]> (w_heap s) in
            w ← h !! p;
            signal_walk ref_addr fuel
              {| w_heap := h; w_p := prev w; w_n := wrap_int (w_n s - 1);
                 w_first := match w_first s with
                            | None => Some p
                            | Some f => Some f
                            end;
                 w_ref := w_ref s |}
          else
            let h := <[p := set_notify (Some ref_addr) w]> (w_heap s) in
            w ← h !! p;
            signal_walk ref_addr fuel
              {| w_heap := h; w_p := prev w; w_n := w_n s;
                 w_first := w_first s; w_ref := wrap_int (w_ref s + 1) |}
      end
  end.

(** signal, lines 299-308: split the list at [p]. *)
Definition split (p : option addr) (c : Condvar) (h : gmap addr Waiter)
  : option (Condvar * gmap addr Waiter) :=
  '(c, h) ←
    match p with
    | Some a =>
        w ← h !! a;
        h ← match next w with
            | Some nx => wn ← h !! nx; Some (<[nx := set_prev None wn]> h)
            | None => Some h
            end;
        w ← h !! a;
        Some (c, <[a := set_next None w]> h)
    | None => Some ({| head := None; tail := tail c |}, h)
    end;
  Some ({| head := head c; tail := p |}, h).

(** signal, lines 281-309: everything done between [sync_mtx_lock] and
    [sync_mtx_unlock].  Other threads cannot edit links meanwhile; the only
    write they can make to a listed node is the CAS of line 173 on its
    [state], and as the walk visits a node once, the state a node has in
    [h] stands for the state its CAS in line 284 finds. *)
Definition signal_locked (ref_addr : addr) (fuel : nat) (n : Z)
    (c : Condvar) (h : gmap addr Waiter)
  : option (Condvar * gmap addr Waiter * option addr * Z) :=
  s ← signal_walk ref_addr fuel
         {| w_heap := h; w_p := tail c; w_n := n; w_first := None; w_ref := 0 |};
  '(c, h) ← split (w_p s) c (w_heap s);
  Some (c, h, w_first s, w_ref s).

(** ** One thread's run of the code, with the other threads around it *)

(** The words the code hands to the futex system calls. *)
Inductive futex : Type :=
| barrier_of (a : addr)      (* &node.barrier of the waiter at [a] *)
| int_at (a : addr)          (* a signaller's local [ref] *)
| mutex_word (a : addr).     (* MutexOps<Mutex>::get_futex(mutex) *)

#[global] Instance futex_eq_dec : EqDecision futex.
Proof. solve_decision. Defined.

(** Calls that leave the template: system calls, [sync_mtx_*] on
    [c->lock], the [spin()] hint and the operations of [MutexOps]. *)
Inductive call : Type :=
| sync_mtx_lock
| sync_mtx_unlock
| spin
| zx_futex_wait (f : futex) (current_value : Z) (deadline : zx_time_t)
| zx_futex_wake (f : futex) (count : Z)
| zx_futex_requeue (f : futex) (wake_count : Z) (value : Z)
                   (r : futex) (requeue_count : Z)
| MutexOps_unlock
| MutexOps_lock
| MutexOps_lock_with_waiters (waiters_delta : Z).

#[global] Instance call_eq_dec : EqDecision call.
Proof. solve_decision. Defined.


(** template <typename Mutex> struct MutexOps.  An operation acts on the
    state of the mutex; the [mutex_lock_err] out-parameter belongs to the
    mutex implementation and is part of that state. *)
Class MutexOps (Mutex : Type) : Type := {
  get_futex : Mutex -> addr;
  lock_mutex : Mutex -> zx_status_t * Mutex;
  lock_with_waiters : Mutex -> Z -> zx_status_t * Mutex;
  unlock_mutex : Mutex -> Mutex
}.

Section Threads.

Context {Mutex : Type} `{MutexOps Mutex}.

(** The memory the threads share. *)
Record World : Type := mkWorld {
  cv : Condvar;
  waiters : gmap addr Waiter;
  ints : gmap addr Z;
  mutex : Mutex
}.

(** The running thread: shared memory, the number of scheduling points it
    went through, and the calls it made, oldest first. *)
Record thread : Type := mkThread {
  world : World;
  now : nat;
  calls : list call
}.

(** What the other threads do to the shared memory at each scheduling
    point of this thread, and the status with which the kernel ends a
    futex wait begun at that point. *)
Variable others : nat -> World -> World.
Variable woken : nat -> zx_status_t.

(** [None]: the thread is stuck (null dereference) or has not come back
    within the fuel given to a loop. *)
Definition M (A : Type) : Type := thread -> option (A * thread).

#[export] Instance M_ret : MRet M := fun A a t => Some (a, t).
#[export] Instance M_bind : MBind M := fun A B k m t =>
  match m t with
  | Some (a, t) => k a t
  | None => None
  end.

Definition stuck {A} : M A := fun _ => None.

Definition yield : M unit := fun t =>
  Some (tt, {| world := others (now t) (world t); now := S (now t);
               calls := calls t |}).

Definition called (c : call) : M unit := fun t =>
  Some (tt, {| world := world t; now := now t; calls := calls t ++ [c] |}).

Definition get_world : M World := fun t => Some (world t, t).

Definition get_now : M nat := fun t => Some (now t, t).

Definition put_world (w : World) : M unit := fun t =>
  Some (tt, {| world := w; now := now t; calls := calls t |}).

Definition lift {A} (o : option A) : M A :=
  match o with
  | Some a => mret a
  | None => stuck
  end.

Definition read_word (f : futex) (w : World) : option Z :=
  match f with
  | barrier_of a => barrier <$> waiters w !! a
  | int_at a => ints w !! a
  | mutex_word _ => None
  end.

Definition write_word (f : futex) (v : Z) (w : World) : option World :=
  match f with
  | barrier_of a =>
      n ← waiters w !! a;
      Some {| cv := cv w; waiters := <[a := set_barrier v n]> (waiters w);
              ints := ints w; mutex := mutex w |}
  | int_at a =>
      _ ← ints w !! a;
      Some {| cv := cv w; waiters := waiters w;
              ints := <[a := v]> (ints w); mutex := mutex w |}
  | mutex_word _ => None
  end.

(** The atomic operations; the other threads run after each. *)
Definition atomic_load (f : futex) : M Z :=
  w ← get_world; v ← lift (read_word f w); yield;; mret v.

Definition atomic_store (f : futex) (v : Z) : M unit :=
  w ← get_world; w ← lift (write_word f v w); put_world w;; yield.

Definition atomic_exchange (f : futex) (v : Z) : M Z :=
  w ← get_world; old ← lift (read_word f w);
  w ← lift (write_word f v w); put_world w;; yield;; mret old.

Definition atomic_fetch_add (f : futex) (d : Z) : M Z :=
  w ← get_world; old ← lift (read_word f w);
  w ← lift (write_word f (wrap_int (old + d)) w); put_world w;; yield;;
  mret old.

(** [cas(ptr, &expected, desired)] on a lock word; the value written back
    to [expected] on failure is never read by the callers. *)
Definition cas (f : futex) (expected desired : Z) : M bool :=
  w ← get_world; old ← lift (read_word f w);
  if decide (old = expected) then
    w ← lift (write_word f desired w); put_world w;; yield;; mret true
  else
    yield;; mret false.

(** [cas(&node.state, &oldstate, desired)]. *)
Definition cas_state (a : addr) (expected desired : wstate) : M bool :=
  w ← get_world; n ← lift (waiters w !! a);
  if decide (state n = expected) then
    put_world {| cv := cv w; waiters := <[a := set_state desired n]> (waiters w);
                 ints := ints w; mutex := mutex w |};;
    yield;; mret true
  else
    yield;; mret false.

(** The system calls.  A futex wait comes back with the status the kernel
    chose; the other threads run while this one sleeps. *)
Definition futex_wait (f : futex) (current_value : Z) (deadline : zx_time_t)
  : M zx_status_t :=
  called (zx_futex_wait f current_value deadline);;
  k ← get_now; yield;; mret (woken k).

Definition futex_wake (f : futex) (count : Z) : M unit :=
  called (zx_futex_wake f count);; yield.

(** A block run with [c->lock] held, as one step of this thread. *)
Definition locked {A} (f : World -> option (A * World)) : M A :=
  called sync_mtx_lock;;
  w ← get_world;
  '(a, w) ← lift (f w);
  put_world w;;
  called sync_mtx_unlock;;
  yield;;
  mret a.

Definition on_list
    (f : Condvar -> gmap addr Waiter -> option (Condvar * gmap addr Waiter))
    (w : World) : option (unit * World) :=
  '(c, h) ← f (cv w) (waiters w);
  Some (tt, {| cv := c; waiters := h; ints := ints w; mutex := mutex w |}).

(** lines 71-83 *)
Fixpoint wait_spins (spins : nat) (f : futex) (current_value : Z) : M bool :=
  match spins with
  | O => mret false
  | S spins =>
      v ← atomic_load f;
      if decide (v = current_value) then
        called spin;; wait_spins spins f current_value
      else mret true
  end.

Fixpoint wait_sleep (fuel : nat) (f : futex) (current_value : Z) : M unit :=
  v ← atomic_load f;
  if decide (v = current_value) then
    match fuel with
    | O => stuck
    | S fuel =>
        futex_wait f current_value ZX_TIME_INFINITE;;
        wait_sleep fuel f current_value
    end
  else mret tt.

Definition wait (fuel : nat) (f : futex) (current_value : Z) : M unit :=
  returned ← wait_spins 100 f current_value;
  if returned : bool then mret tt else wait_sleep fuel f current_value.

(** lines 86-96 *)
Fixpoint lock_loop (fuel rounds : nat) (l : futex) : M unit :=
  match rounds with
  | O => stuck
  | S rounds =>
      wait fuel l LOCKED_MAYBE_WAITERS;;
      ok ← cas l UNLOCKED LOCKED_MAYBE_WAITERS;
      if ok : bool then mret tt else lock_loop fuel rounds l
  end.

Definition lock (fuel : nat) (l : futex) : M unit :=
  ok ← cas l UNLOCKED LOCKED_NO_WAITERS;
  if ok : bool then mret tt
  else
    cas l LOCKED_NO_WAITERS LOCKED_MAYBE_WAITERS;;
    lock_loop fuel fuel l.

(** lines 98-102 *)
Definition unlock (l : futex) : M unit :=
  old ← atomic_exchange l UNLOCKED;
  if decide (old = LOCKED_MAYBE_WAITERS) then futex_wake l 1 else mret tt.

(** lines 104-108 *)
Definition unlock_requeue (l r : futex) : M unit :=
  atomic_store l UNLOCKED;;
  called (zx_futex_requeue l 0 UNLOCKED r 1);;
  yield.

(** The operations of [MutexOps<Mutex>] on the caller's mutex. *)
Definition MutexOps_unlock_ : M unit :=
  called MutexOps_unlock;;
  w ← get_world;
  put_world {| cv := cv w; waiters := waiters w; ints := ints w;
               mutex := unlock_mutex (mutex w) |};;
  yield.

Definition MutexOps_lock_ : M zx_status_t :=
  called MutexOps_lock;;
  w ← get_world;
  let r := lock_mutex (mutex w) in
  put_world {| cv := cv w; waiters := waiters w; ints := ints w;
               mutex := r.2 |};;
  yield;;
  mret r.1.

Definition MutexOps_lock_with_waiters_ (waiters_delta : Z) : M zx_status_t :=
  called (MutexOps_lock_with_waiters waiters_delta);;
  w ← get_world;
  let r := lock_with_waiters (mutex w) waiters_delta in
  put_world {| cv := cv w; waiters := waiters w; ints := ints w;
               mutex := r.2 |};;
  yield;;
  mret r.1.

Definition get_node (a : addr) : M Waiter :=
  w ← get_world; lift (waiters w !! a).

(** timedwait, lines 134-150: enqueue and let go of the mutex. *)
Definition timedwait_enqueue (a : addr) : M unit :=
  locked (on_list (enqueue a));;
  MutexOps_unlock_.

(** timedwait, lines 160-170: the loop around [_zx_futex_wait]. *)
Fixpoint timedwait_wait (fuel : nat) (a : addr) (deadline : zx_time_t)
  : M zx_status_t :=
  match fuel with
  | O => stuck
  | S fuel =>
      status ← futex_wait (barrier_of a) LOCKED_MAYBE_WAITERS deadline;
      if decide (status = ZX_ERR_TIMED_OUT) then mret status
      else
        v ← atomic_load (barrier_of a);
        if decide (v ≠ LOCKED_MAYBE_WAITERS) then mret ZX_OK
        else timedwait_wait fuel a deadline
  end.

(** timedwait, lines 186-224: the CAS to LEAVING succeeded. *)
Definition timedwait_leave (a : addr) : M zx_status_t :=
  locked (on_list (unlink a));;
  node ← get_node a;
  match notify node with
  | Some r =>
      old ← atomic_fetch_add (int_at r) (-1);
      if decide (old = 1) then futex_wake (int_at r) 1 else mret tt
  | None => mret tt
  end;;
  st ← MutexOps_lock_;
  if decide (st ≠ ZX_OK) then mret ZX_ERR_BAD_STATE
  else mret ZX_ERR_TIMED_OUT.

(** timedwait, lines 240-246 *)
Definition waiters_delta_of (node : Waiter) : Z :=
  let waiters_delta := 0 in
  let waiters_delta :=
    if prev node is None then wrap_int (waiters_delta + 1)
    else waiters_delta in
  let waiters_delta :=
    if next node is None then wrap_int (waiters_delta - 1)
    else waiters_delta in
  waiters_delta.

(** timedwait, lines 238-269: the mutex is taken back and the barrier of
    the next waiter of the chain is handed to the mutex; [status] is the
    local as the wait loop left it. *)
Definition timedwait_handoff (a : addr) (status : zx_status_t)
  : M zx_status_t :=
  node ← get_node a;
  let waiters_delta := waiters_delta_of node in
  st ← MutexOps_lock_with_waiters_ waiters_delta;
  let status := if decide (st ≠ ZX_OK) then ZX_ERR_BAD_STATE else status in
  node ← get_node a;
  match prev node with
  | Some p =>
      w ← get_world;
      unlock_requeue (barrier_of p) (mutex_word (get_futex (mutex w)))
  | None => mret tt
  end;;
  mret status.

(** timedwait, lines 227-269: the CAS to LEAVING failed. *)
Definition timedwait_wake (fuel : nat) (a : addr) (status : zx_status_t)
  : M zx_status_t :=
  lock fuel (barrier_of a);;
  timedwait_handoff a status.

(** timedwait, lines 172-269: what follows the wait loop. *)
Definition timedwait_finish (fuel : nat) (a : addr) (status : zx_status_t)
  : M zx_status_t :=
  ok ← cas_state a WAITING LEAVING;
  if ok : bool then timedwait_leave a else timedwait_wake fuel a status.

(** [timedwait(c, mutex, deadline, mutex_lock_err)], with [node] at
    address [a]. *)
Definition timedwait (fuel : nat) (a : addr) (deadline : zx_time_t)
  : M zx_status_t :=
  timedwait_enqueue a;;
  status ← timedwait_wait fuel a deadline;
  status ← timedwait_finish fuel a status;
  w ← get_world;
  put_world {| cv := cv w; waiters := delete a (waiters w);
               ints := ints w; mutex := mutex w |};;
  mret status.

(** signal, lines 281-309 on the shared memory: the walk, the split, and
    the count left in [ref]. *)
Definition signal_section (ref_addr : addr) (fuel : nat) (n : Z) (w : World)
  : option (option addr * World) :=
  '(c, h, first, ref) ← signal_locked ref_addr fuel n (cv w) (waiters w);
  Some (first, {| cv := c; waiters := h;
                  ints := <[ref_addr := ref]> (ints w); mutex := mutex w |}).

(** signal, lines 314-316 *)
Fixpoint signal_rendezvous (fuel rounds : nat) (ref_addr : addr) : M unit :=
  cur ← atomic_load (int_at ref_addr);
  if decide (cur = 0) then mret tt
  else
    match rounds with
    | O => stuck
    | S rounds =>
        wait fuel (int_at ref_addr) cur;;
        signal_rendezvous fuel rounds ref_addr
    end.

(** [signal(c, n)]; the local [ref] lives at [ref_addr] for the time of
    the call. *)
Definition signal (fuel : nat) (ref_addr : addr) (n : Z) : M unit :=
  w ← get_world;
  put_world {| cv := cv w; waiters := waiters w;
               ints := <[ref_addr := 0]> (ints w); mutex := mutex w |};;
  first ← locked (signal_section ref_addr fuel n);
  signal_rendezvous fuel fuel ref_addr;;
  match first with
  | Some f => unlock (barrier_of f)
  | None => mret tt
  end;;
  w ← get_world;
  put_world {| cv := cv w; waiters := waiters w;
               ints := delete ref_addr (ints w); mutex := mutex w |}.

(** The thread after a scheduling point at which it changed nothing. *)
Definition turn (t : thread) : thread :=
  {| world := others (now t) (world t); now := S (now t); calls := calls t |}.

(** The thread after one round of the first loop of [wait] (lines 73-79)
    that found the word unchanged: the load, then [spin()]; and after [i]
    such rounds. *)
Definition spin_round (t : thread) : thread :=
  {| world := others (now t) (world t); now := S (now t);
     calls := calls t ++ [spin] |}.

Definition spun (i : nat) (t : thread) : thread := Nat.iter i spin_round t.

(** The thread after one round of the second loop of [wait] (lines 80-82)
    that found the word unchanged: the load, then the futex wait; and after
    [j] such rounds. *)
Definition sleep_round (f : futex) (current_value : Z) (t : thread) : thread :=
  {| world := others (S (now t)) (others (now t) (world t));
     now := S (S (now t));
     calls := calls t ++ [zx_futex_wait f current_value ZX_TIME_INFINITE] |}.

Definition slept (f : futex) (current_value : Z) (j : nat) (t : thread)
  : thread :=
  Nat.iter j (sleep_round f current_value) t.

End Threads.

(** ** The list invariant *)

(** The nodes [l], first to last, are linked both ways in [h]: [prev] of
    the first is [pv], [next] of the last is [nx]. *)
Fixpoint dll_seg (h : gmap addr Waiter) (pv : option addr) (l : list addr)
    (nx : option addr) : Prop :=
  match l with
  | [] => True
  | a :: l' =>
      exists w, h !! a = Some w /\ prev w = pv /\
                next w = match l' with [] => nx | b :: _ => Some b end /\
                dll_seg h (Some a) l' nx
  end.

(** The list of the condition variable is [l], newest waiter first:
    [head] is its first node, [tail] its last, no node occurs twice, and
    the links end in null on both sides. *)
Definition cv_list (c : Condvar) (h : gmap addr Waiter) (l : list addr) : Prop :=
  head c = hd_error l /\ tail c = last l /\ NoDup l /\ dll_seg h None l None.

Definition cv_inv (c : Condvar) (h : gmap addr Waiter) : Prop :=
  exists l, cv_list c h l.

(** Following one kind of link from node to node. *)
Inductive reaches (link : Waiter -> option addr) (h : gmap addr Waiter)
  : addr -> addr -> Prop :=
| reaches_here a : is_Some (h !! a) -> reaches link h a a
| reaches_step a b c w :
    h !! a = Some w -> link w = Some b -> reaches link h b c ->
    reaches link h a c.

(** The two links of a node. *)
Definition links (w : Waiter) : option addr * option addr := (prev w, next w).

(** The node after the last of [l], and the node before its first. *)
Definition first_or (l : list addr) (nx : option addr) : option addr :=
  match l with [] => nx | b :: _ => Some b end.

Definition last_or (l : list addr) (pv : option addr) : option addr :=
  match last l with Some a => Some a | None => pv end.

(** What the walk of [signal] makes of a node it visits (lines 284-296). *)
Definition mark (ref_addr : addr) (w : Waiter) : Waiter :=
  if decide (state w = WAITING) then set_state SIGNALED w
  else set_notify (Some ref_addr) w.

Definition state_at (h : gmap addr Waiter) (a : addr) : wstate :=
  match h !! a with
  | Some w => state w
  | None => WAITING
  end.

(** The number of nodes the walk visits when it starts with count [n] and
    finds the states [sts], oldest waiter first. *)
Fixpoint visits (n : Z) (sts : list wstate) : nat :=
  match sts with
  | [] => O
  | st :: sts =>
      if decide (n = 0) then O
      else S (visits (if decide (st = WAITING) then wrap_int (n - 1) else n) sts)
  end.

(** The invariant as the specification words it. *)
Definition head_tail_invariant (c : Condvar) (h : gmap addr Waiter) : Prop :=
  (head c = None /\ tail c = None) \/
  (exists hd tl, head c = Some hd /\ tail c = Some tl /\
                 reaches prev h tl hd /\ reaches next h hd tl).

(** ** Sample runs *)

(** A mutex that counts its waiters and never fails. *)
#[export] Instance counting_mutex : MutexOps Z :=
  {| get_futex _ := 100%positive;
     lock_mutex m := (ZX_OK, m);
     lock_with_waiters m d := (ZX_OK, m + d);
     unlock_mutex m := m |}.

Definition alone (k : nat) (w : @World Z) : @World Z := w.

Definition never (k : nat) : zx_status_t := ZX_OK.

Definition start (w : @World Z) : @thread Z :=
  {| world := w; now := O; calls := [] |}.

Definition empty_world : @World Z :=
  {| cv := {| head := None; tail := None |}; waiters := ∅; ints := ∅;
     mutex := 0 |}.

Definition enqueued (a : addr) (s : Condvar * gmap addr Waiter)
  : Condvar * gmap addr Waiter :=
  default s (enqueue a s.1 s.2).

(** Waiters 1, 2 and 3 enqueued in this order. *)
Definition three : Condvar * gmap addr Waiter :=
  enqueued 3%positive
    (enqueued 2%positive
       (enqueued 1%positive ({| head := None; tail := None |}, ∅))).

Definition three_world : @World Z :=
  {| cv := three.1; waiters := three.2; ints := ∅; mutex := 0 |}.

(** The three after [signal(c, -1)] claimed and detached them. *)
Definition chain_world : @World Z :=
  match signal_locked 50%positive 8 (-1) three.1 three.2 with
  | Some (c, h, _, _) => {| cv := c; waiters := h; ints := ∅; mutex := 0 |}
  | None => three_world
  end.

(** Another thread that runs [signal(c, n)] from start to end. *)
Definition signaller (n : Z) (w : @World Z) : @World Z :=
  match signal alone never 8 50%positive n (start w) with
  | Some (_, t) => world t
  | None => w
  end.

(** The schedule of the timeout race: the kernel ends the waiter's futex
    wait with TIMED_OUT, and [signal(c, 1)] runs before the waiter goes on. *)
Definition race (k : nat) (w : @World Z) : @World Z :=
  if decide (k = 2%nat) then signaller 1 w else w.

Definition timeout_at_2 (k : nat) : zx_status_t :=
  if decide (k = 2%nat) then ZX_ERR_TIMED_OUT else ZX_OK.

(** Another thread that unlocks the barrier of waiter 1 at the time the
    waiter sleeps in its first futex wait. *)
Definition release_at_101 (k : nat) (w : @World Z) : @World Z :=
  if decide (k = 101%nat) then
    default w (write_word (barrier_of 1%positive) UNLOCKED w)
  else w.

(** What a node holds besides its two links. *)
Definition payload (w : Waiter) : wstate * Z * option addr :=
  (state w, barrier w, notify w).

(** The number of nodes, among those the walk visits when it starts with
    count [n] and finds the states [sts], that it does not find WAITING
    (lines 284-291). *)
Fixpoint leavers (n : Z) (sts : list wstate) : nat :=
  match sts with
  | [] => O
  | st :: sts =>
      if decide (n = 0) then O
      else if decide (st = WAITING) then leavers (wrap_int (n - 1)) sts
      else S (leavers n sts)
  end.

(** [ref++] done [k] times on the 'int' [r]. *)
Definition bump (k : nat) (r : Z) : Z :=
  Nat.iter k (fun r => wrap_int (r + 1)) r.

(** The nodes of [l] that are not WAITING in [h]. *)
Definition not_waiting (h : gmap addr Waiter) (l : list addr) : list addr :=
  List.filter (fun a => bool_decide (state_at h a ≠ WAITING)) l.

(** Calls made while waiting for the counter at [ref_addr] to reach 0. *)
Definition rendezvous_waits (ref_addr : addr) (cs : list call) : Prop :=
  Forall (fun c => c = spin \/
                   exists cur, cur ≠ 0 /\
                     c = zx_futex_wait (int_at ref_addr) cur ZX_TIME_INFINITE)
         cs.

(** The shared memory with the state of the mutex replaced. *)
Definition set_mutex {Mutex : Type} (m : Mutex) (w : @World Mutex)
  : @World Mutex :=
  {| cv := cv w; waiters := waiters w; ints := ints w; mutex := m |}.

(** Calls made while waiting for the word [l] to leave the value [cur]. *)
Definition waits_only (l : futex) (cur : Z) (cs : list call) : Prop :=
  Forall (fun c => c = spin \/ c = zx_futex_wait l cur ZX_TIME_INFINITE) cs.

(** The three waiters when waiter 2 has timed out and made its CAS to
    LEAVING (line 173) but has not yet taken [c->lock]. *)
Definition leaving_three : gmap addr Waiter :=
  alter (set_state LEAVING) 2%positive three.2.

(** The memory after [signal(c, -1)], with its [ref] at address 50, went
    through its locked section on [leaving_three]. *)
Definition marked_world : @World Z :=
  match signal_section 50%positive 8 (-1)
          {| cv := three.1; waiters := leaving_three; ints := ∅;
             mutex := 0 |} with
  | Some (_, w) => w
  | None => three_world
  end.

(** A world with one counter, at address 60, that holds 0. *)
Definition counter_world : @World Z :=
  {| cv := {| head := None; tail := None |}; waiters := ∅;
     ints := {[ 60%positive := 0 ]}; mutex := 0 |}.

End Condvar.

Module Fence.

Definition fence_id := positive.
Definition ref_id := positive.

(** Modelled from the spec: class FenceReference is declared in fence.h,
    which is not among the sources.  A reference shares its parent fence
    and holds up to two optional release-chain references; these are the
    members fence.cpp uses.  A [RefPtr] is the id of the object it points
    to, [nullptr] is [None].  fbl (not among the sources) destroys an
    object when the last handle on it goes.  The handles on a reference
    are the slots that hold its id, which are [cur_ref_] and the entries
    of [armed_refs_] of a fence and the two chain slots of a reference,
    and the handles outside of these objects, with the client or in a
    local of a running function: [held] is the number of the latter.  The
    handle a reference has on its parent fence is not counted: the fences
    belong to the table of the client (client.cpp, not among the sources),
    and no fence is destroyed in this model. *)
Record FenceReference : Type := mkFenceReference {
  fence_ : fence_id;
  release_fence1_ : option ref_id;
  release_fence2_ : option ref_id;
  held : nat
}.

(** Modelled from the spec: the asynchronous wait registration
    [ready_wait_] (lib/async, not among the sources), a one-shot wait on an
    object for a signal bit: the object and trigger it is set to. *)
Record WaitBase : Type := mkWaitBase {
  object : option fence_id;   (* the event of that fence *)
  trigger : Z
}.

(** Modelled from the spec: class Fence is declared in fence.h, which is
    not among the sources.  A fence owns a kernel event, a reference
    count, the currently exposed reference, the queue of armed references
    and the wait registration; these are the members fence.cpp uses, and
    [event_] is the signal state of the event. *)
Record Fence : Type := mkFence {
  event_ : Z;
  ref_count_ : Z;
  cur_ref_ : option ref_id;
  armed_refs_ : list ref_id;
  ready_wait_ : WaitBase
}.

(** Calls into the collaborators, in the order they are made. *)
Inductive call : Type :=
| event_signal (f : fence_id) (clear_mask set_mask : Z)
| ready_wait_Begin (f : fence_id) (w : WaitBase)
| cb_OnFenceFired (r : ref_id)
| cb_OnRefForFenceDead (f : fence_id).

#[global] Instance WaitBase_eq_dec : EqDecision WaitBase.
Proof. solve_decision. Defined.

#[global] Instance call_eq_dec : EqDecision call.
Proof. solve_decision. Defined.

(** The references a fence has handles on, and those a reference has. *)
Definition slots (f : Fence) : list ref_id :=
  option_list (cur_ref_ f) ++ armed_refs_ f.

Definition chain (r : FenceReference) : list ref_id :=
  option_list (release_fence1_ r) ++ option_list (release_fence2_ r).

Definition set_held (n : nat) (r : FenceReference) : FenceReference :=
  {| fence_ := fence_ r; release_fence1_ := release_fence1_ r;
     release_fence2_ := release_fence2_ r; held := n |}.

Section Fence.

(** zircon/types.h is not among the sources: the mask of the SIGNALED bit
    of an event is a parameter. *)
Variable ZX_EVENT_SIGNALED : Z.

(** The dispatcher [async_]: its state, and what [Begin] of a wait answers
    and does to it. *)
Variable async_t : Type.
Variable async_begin_wait : async_t -> fence_id -> WaitBase -> zx_status_t * async_t.

Record World : Type := mkWorld {
  fences : gmap fence_id Fence;
  references : gmap ref_id FenceReference;
  async_ : async_t
}.

(** The callback sink [cb_]: what the client does to the world when it is
    told that a reference fired, and when it is told that a reference of a
    fence is being destroyed. *)
Variable OnFenceFired : ref_id -> World -> World.
Variable OnRefForFenceDead : fence_id -> World -> World.

Record run : Type := mkRun {
  world : World;
  calls : list call
}.

(** [None]: the program halts (null dereference, failed assertion). *)
Definition M (A : Type) : Type := run -> option (A * run).

#[export] Instance M_ret : MRet M := fun A a t => Some (a, t).
#[export] Instance M_bind : MBind M := fun A B k m t =>
  match m t with
  | Some (a, t) => k a t
  | None => None
  end.

Definition halt {A} : M A := fun _ => None.

Definition called (c : call) : M unit := fun t =>
  Some (tt, {| world := world t; calls := calls t ++ [c] |}).

Definition get_world : M World := fun t => Some (world t, t).

Definition put_world (w : World) : M unit := fun t =>
  Some (tt, {| world := w; calls := calls t |}).

Definition lift {A} (o : option A) : M A :=
  match o with
  | Some a => mret a
  | None => halt
  end.

Definition get_fence (this : fence_id) : M Fence :=
  w ← get_world; lift (fences w !! this).

Definition put_fence (this : fence_id) (f : Fence) : M unit :=
  w ← get_world;
  put_world {| fences := <[this := f]> (fences w);
               references := references w; async_ := async_ w |}.

Definition get_ref (this : ref_id) : M FenceReference :=
  w ← get_world; lift (references w !! this).

Definition put_ref (this : ref_id) (r : FenceReference) : M unit :=
  w ← get_world;
  put_world {| fences := fences w;
               references := <[this := r]> (references w);
               async_ := async_ w |}.

(** ** The handles of fbl::RefPtr *)

(** Some slot of a fence or of a reference holds the id [a]. *)
Definition referenced (w : World) (a : ref_id) : Prop :=
  map_Exists (fun _ f => a ∈ slots f) (fences w) \/
  map_Exists (fun _ r => a ∈ chain r) (references w).

#[export] Instance referenced_dec w a : Decision (referenced w a).
Proof. unfold referenced. apply _. Defined.

(** There is a handle on the reference [a]. *)
Definition alive (w : World) (a : ref_id) : Prop :=
  match references w !! a with
  | Some r => (0 < held r)%nat
  | None => False
  end \/ referenced w a.

#[export] Instance alive_dec w a : Decision (alive w a).
Proof.
  unfold alive, referenced. destruct (references w !! a); apply _.
Defined.

(** A handle on [a] comes to be outside of the slots: a [RefPtr] is
    copied for a caller, or moved out of a slot into a local. *)
Definition acquire (a : ref_id) : M unit :=
  r ← get_ref a; put_ref a (set_held (S (held r)) r).

(** A handle on [a] outside of the slots ceases to be: it is moved into a
    slot, or it is about to be released. *)
Definition hand_over (a : ref_id) : M unit :=
  r ← get_ref a; put_ref a (set_held (pred (held r)) r).

(** What is left to do when a handle on [a] has gone.  While another
    handle is there, nothing.  Otherwise fbl destroys the object:
    FenceReference::~FenceReference (lines 111-113) tells the sink, and
    then the members go, each chain slot releasing its handle in turn.
    C++ destroys members in the reverse of their declaration, which
    fence.h (not among the sources) fixes.  Modelled from the spec, which
    names the parent and then the two chain handles: the second chain
    slot goes first, then the first, then the handle on the parent fence.
    Until its members are gone the object is still in the store, so that
    the handle of its first chain slot counts while the second is
    released.  What becomes of a fence without handles is outside of this
    model.  [fuel] bounds the depth of the destructions: with none left
    the run is cut off. *)
Fixpoint release (fuel : nat) (a : ref_id) : M unit :=
  w ← get_world;
  if decide (alive w a) then mret tt
  else
    match fuel with
    | O => halt
    | S fuel =>
        r ← get_ref a;
        called (cb_OnRefForFenceDead (fence_ r));;
        w ← get_world;
        put_world (OnRefForFenceDead (fence_ r) w);;
        r ← get_ref a;
        put_ref a {| fence_ := fence_ r; release_fence1_ := release_fence1_ r;
                     release_fence2_ := None; held := held r |};;
        match release_fence2_ r with
        | Some b => release fuel b
        | None => mret tt
        end;;
        r ← get_ref a;
        put_ref a {| fence_ := fence_ r; release_fence1_ := None;
                     release_fence2_ := release_fence2_ r; held := held r |};;
        match release_fence1_ r with
        | Some b => release fuel b
        | None => mret tt
        end;;
        w ← get_world;
        put_world {| fences := fences w;
                     references := delete a (references w);
                     async_ := async_ w |}
    end.

Definition release_opt (fuel : nat) (o : option ref_id) : M unit :=
  match o with
  | Some a => release fuel a
  | None => mret tt
  end.

Definition hand_over_opt (o : option ref_id) : M unit :=
  match o with
  | Some a => hand_over a
  | None => mret tt
  end.

(** A handle outside of the slots is released. *)
Definition drop (fuel : nat) (a : ref_id) : M unit :=
  hand_over a;; release fuel a.

(** [event_.signal(clear_mask, set_mask)]: the kernel clears, then sets. *)
Definition event_signal_ (this : fence_id) (clear_mask set_mask : Z) : M unit :=
  f ← get_fence this;
  put_fence this
    {| event_ := Z.lor (Z.ldiff (event_ f) clear_mask) set_mask;
       ref_count_ := ref_count_ f; cur_ref_ := cur_ref_ f;
       armed_refs_ := armed_refs_ f; ready_wait_ := ready_wait_ f |};;
  called (event_signal this clear_mask set_mask).

(** [ready_wait_.Begin(async_)] *)
Definition ready_wait_Begin_ (this : fence_id) : M zx_status_t :=
  f ← get_fence this;
  called (ready_wait_Begin this (ready_wait_ f));;
  w ← get_world;
  let r := async_begin_wait (async_ w) this (ready_wait_ f) in
  put_world {| fences := fences w; references := references w;
               async_ := r.2 |};;
  mret r.1.

(** Fence::CreateRef, lines 10-18.  [alloc] is what [new (&ac)] gives:
    the id of the new object, or [None] when the allocation fails.  The
    assignment of line 12 puts the new handle, or null, into [cur_ref_]
    and releases the handle the slot held. *)
Definition CreateRef (fuel : nat) (this : fence_id) (alloc : option ref_id)
  : M bool :=
  match alloc with
  | Some r =>
      put_ref r {| fence_ := this; release_fence1_ := None;
                   release_fence2_ := None; held := 0 |}
  | None => mret tt
  end;;
  f ← get_fence this;
  put_fence this
    {| event_ := event_ f; ref_count_ := ref_count_ f; cur_ref_ := alloc;
       armed_refs_ := armed_refs_ f; ready_wait_ := ready_wait_ f |};;
  release_opt fuel (cur_ref_ f);;
  (if bool_decide (is_Some alloc) then
     f ← get_fence this;
     put_fence this
       {| event_ := event_ f; ref_count_ := ref_count_ f + 1;
          cur_ref_ := cur_ref_ f; armed_refs_ := armed_refs_ f;
          ready_wait_ := ready_wait_ f |}
   else mret tt);;
  mret (bool_decide (is_Some alloc)).

(** Fence::ClearRef, lines 20-22: the slot is nulled and the handle it
    held is released. *)
Definition ClearRef (fuel : nat) (this : fence_id) : M unit :=
  f ← get_fence this;
  put_fence this
    {| event_ := event_ f; ref_count_ := ref_count_ f; cur_ref_ := None;
       armed_refs_ := armed_refs_ f; ready_wait_ := ready_wait_ f |};;
  release_opt fuel (cur_ref_ f).

(** Fence::GetReference, lines 24-26: the caller gets a handle of its
    own. *)
Definition GetReference (this : fence_id) : M (option ref_id) :=
  f ← get_fence this;
  match cur_ref_ f with
  | Some a => acquire a;; mret (Some a)
  | None => mret None
  end.

(** Fence::Signal, lines 28-30 *)
Definition Signal (this : fence_id) : M unit :=
  event_signal_ this 0 ZX_EVENT_SIGNALED.

(** Fence::OnRefDead, lines 32-34 *)
Definition OnRefDead (this : fence_id) : M bool :=
  f ← get_fence this;
  put_fence this
    {| event_ := event_ f; ref_count_ := ref_count_ f - 1;
       cur_ref_ := cur_ref_ f; armed_refs_ := armed_refs_ f;
       ready_wait_ := ready_wait_ f |};;
  f ← get_fence this;
  mret (bool_decide (ref_count_ f = 0)).

(** Fence::OnRefArmed, lines 36-49.  The handle in [ref] is the one that
    StartReadyWait made from [this]: it ends in the queue, or is dropped
    on the error return while the caller's handle keeps the reference. *)
Definition OnRefArmed (this : fence_id) (ref : ref_id) : M zx_status_t :=
  f ← get_fence this;
  status ←
    (if bool_decide (armed_refs_ f = []) then
       put_fence this
         {| event_ := event_ f; ref_count_ := ref_count_ f;
            cur_ref_ := cur_ref_ f; armed_refs_ := armed_refs_ f;
            ready_wait_ := {| object := Some this;
                              trigger := ZX_EVENT_SIGNALED |} |};;
       ready_wait_Begin_ this
     else mret ZX_OK);
  if decide (status ≠ ZX_OK) then mret status
  else
    f ← get_fence this;
    put_fence this
      {| event_ := event_ f; ref_count_ := ref_count_ f;
         cur_ref_ := cur_ref_ f; armed_refs_ := armed_refs_ f ++ [ref];
         ready_wait_ := ready_wait_ f |};;
    mret ZX_OK.

(** [armed_refs_.erase] of one reference: the element is taken out of the
    list, the others keep their order. *)
Fixpoint erase (ref : ref_id) (l : list ref_id) : list ref_id :=
  match l with
  | [] => []
  | x :: l => if decide (x = ref) then l else x :: erase ref l
  end.

(** Fence::OnRefDisarmed, lines 51-53.  The list is fbl's intrusive list
    (not among the sources); the erase of a reference that is not in the
    list is outside of this model: the run halts.  The handle that the
    erase takes out of the queue is dropped while the caller's handle
    keeps the reference. *)
Definition OnRefDisarmed (this : fence_id) (ref : ref_id) : M unit :=
  f ← get_fence this;
  if bool_decide (ref ∈ armed_refs_ f) then
    put_fence this
      {| event_ := event_ f; ref_count_ := ref_count_ f;
         cur_ref_ := cur_ref_ f; armed_refs_ := erase ref (armed_refs_ f);
         ready_wait_ := ready_wait_ f |}
  else halt.

(** FenceReference::StartReadyWait, lines 80-82 *)
Definition StartReadyWait (this : ref_id) : M zx_status_t :=
  r ← get_ref this; OnRefArmed (fence_ r) this.

(** FenceReference::ResetReadyWait, lines 84-86 *)
Definition ResetReadyWait (this : ref_id) : M unit :=
  r ← get_ref this; OnRefDisarmed (fence_ r) this.

(** FenceReference::SetImmediateRelease, lines 88-92.  Each assignment
    moves the caller's handle into the slot and releases the handle the
    slot held. *)
Definition SetImmediateRelease (fuel : nat) (this : ref_id)
    (fence1 fence2 : option ref_id) : M unit :=
  r ← get_ref this;
  put_ref this {| fence_ := fence_ r; release_fence1_ := fence1;
                  release_fence2_ := release_fence2_ r; held := held r |};;
  hand_over_opt fence1;;
  release_opt fuel (release_fence1_ r);;
  r ← get_ref this;
  put_ref this {| fence_ := fence_ r; release_fence1_ := release_fence1_ r;
                  release_fence2_ := fence2; held := held r |};;
  hand_over_opt fence2;;
  release_opt fuel (release_fence2_ r).

(** FenceReference::Signal, lines 105-107 *)
Definition FenceReference_Signal (this : ref_id) : M unit :=
  r ← get_ref this; Signal (fence_ r).

(** FenceReference::OnReady, lines 94-103.  Nulling a chain slot releases
    the handle it held. *)
Definition FenceReference_OnReady (fuel : nat) (this : ref_id) : M unit :=
  r ← get_ref this;
  match release_fence1_ r with
  | Some r1 =>
      FenceReference_Signal r1;;
      r ← get_ref this;
      put_ref this {| fence_ := fence_ r; release_fence1_ := None;
                      release_fence2_ := release_fence2_ r; held := held r |};;
      release fuel r1
  | None => mret tt
  end;;
  r ← get_ref this;
  match release_fence2_ r with
  | Some r2 =>
      FenceReference_Signal r2;;
      r ← get_ref this;
      put_ref this {| fence_ := fence_ r;
                      release_fence1_ := release_fence1_ r;
                      release_fence2_ := None; held := held r |};;
      release fuel r2
  | None => mret tt
  end.

(** Fence::OnReady, lines 55-68.  The assertion of line 57 halts.  The
    handle popped from the queue is the local [ref], which is released when
    the function returns. *)
Definition OnReady (fuel : nat) (this : fence_id) (status : zx_status_t)
    (observed : Z) : M unit :=
  (if bool_decide (status = ZX_OK ∧ Z.land observed ZX_EVENT_SIGNALED ≠ 0)
   then mret tt else halt);;
  event_signal_ this ZX_EVENT_SIGNALED 0;;
  f ← get_fence this;
  match armed_refs_ f with
  | [] => halt
  | ref :: rest =>
      put_fence this
        {| event_ := event_ f; ref_count_ := ref_count_ f;
           cur_ref_ := cur_ref_ f; armed_refs_ := rest;
           ready_wait_ := ready_wait_ f |};;
      acquire ref;;
      FenceReference_OnReady fuel ref;;
      called (cb_OnFenceFired ref);;
      w ← get_world;
      put_world (OnFenceFired ref w);;
      f ← get_fence this;
      (if bool_decide (armed_refs_ f ≠ []) then
         ready_wait_Begin_ this;; mret tt
       else mret tt);;
      drop fuel ref
  end.

(** The dispatcher fires the wait of the fence [n] times in a row. *)
Fixpoint OnReady_times (fuel n : nat) (this : fence_id) (observed : Z)
  : M unit :=
  match n with
  | O => mret tt
  | S n =>
      OnReady fuel this ZX_OK observed;; OnReady_times fuel n this observed
  end.

(** The references the sink was told about, oldest call first. *)
Definition fired_refs (cs : list call) : list ref_id :=
  omap (fun c => match c with cb_OnFenceFired r => Some r | _ => None end) cs.

(** The number of times the wait was begun. *)
Definition begun (cs : list call) : nat :=
  length (List.filter (fun c => match c with
                                | ready_wait_Begin _ _ => true
                                | _ => false
                                end) cs).

(** ** The steps of the dispatch protocol, as the specification words them *)

Definition set_event (e : Z) (f : Fence) : Fence :=
  {| event_ := e; ref_count_ := ref_count_ f; cur_ref_ := cur_ref_ f;
     armed_refs_ := armed_refs_ f; ready_wait_ := ready_wait_ f |}.

Definition set_cur_ref (c : option ref_id) (f : Fence) : Fence :=
  {| event_ := event_ f; ref_count_ := ref_count_ f; cur_ref_ := c;
     armed_refs_ := armed_refs_ f; ready_wait_ := ready_wait_ f |}.

Definition set_armed_refs (l : list ref_id) (f : Fence) : Fence :=
  {| event_ := event_ f; ref_count_ := ref_count_ f; cur_ref_ := cur_ref_ f;
     armed_refs_ := l; ready_wait_ := ready_wait_ f |}.

Definition set_ready_wait (wb : WaitBase) (f : Fence) : Fence :=
  {| event_ := event_ f; ref_count_ := ref_count_ f; cur_ref_ := cur_ref_ f;
     armed_refs_ := armed_refs_ f; ready_wait_ := wb |}.

Definition set_ref_count (n : Z) (f : Fence) : Fence :=
  {| event_ := event_ f; ref_count_ := n; cur_ref_ := cur_ref_ f;
     armed_refs_ := armed_refs_ f; ready_wait_ := ready_wait_ f |}.

Definition with_fences (fs : gmap fence_id Fence) (w : World)
  : World :=
  {| fences := fs; references := references w; async_ := async_ w |}.

Definition with_references (rs : gmap ref_id FenceReference) (w : World)
  : World :=
  {| fences := fences w; references := rs; async_ := async_ w |}.

Definition with_async (a : async_t) (w : World) : World :=
  {| fences := fences w; references := references w; async_ := a |}.

(** (1) the SIGNALLED bit of the event is cleared *)
Definition clear_signalled (f : Fence) : Fence :=
  set_event (Z.ldiff (event_ f) ZX_EVENT_SIGNALED) f.

(** a signal: the SIGNALLED bit of the event is set *)
Definition raise_signalled (f : Fence) : Fence :=
  set_event (Z.lor (event_ f) ZX_EVENT_SIGNALED) f.

(** (2) the head of [armed_refs] is popped; its handle is a local of
    [OnReady] from then on *)
Definition pop_armed (f : Fence) : Fence :=
  set_armed_refs (tl (armed_refs_ f)) f.

Definition taken (r : FenceReference) : FenceReference :=
  set_held (S (held r)) r.

(** (3) the release-chain targets of a reference, first then second, the
    fences they belong to, and the reference once it dropped them *)
Definition chain_fences (w : World) (r : FenceReference)
  : list fence_id :=
  omap (fun a => fence_ <$> references w !! a) (chain r).

Definition drop_first (r : FenceReference) : FenceReference :=
  {| fence_ := fence_ r; release_fence1_ := None;
     release_fence2_ := release_fence2_ r; held := held r |}.

Definition drop_second (r : FenceReference) : FenceReference :=
  {| fence_ := fence_ r; release_fence1_ := release_fence1_ r;
     release_fence2_ := None; held := held r |}.

Definition drop_chain (r : FenceReference) : FenceReference :=
  {| fence_ := fence_ r; release_fence1_ := None; release_fence2_ := None;
     held := held r |}.

Definition raise_all (l : list fence_id) (fs : gmap fence_id Fence)
  : gmap fence_id Fence :=
  foldl (fun fs fid => alter raise_signalled fid fs) fs l.

(** The world the callback sink finds when reference [ref], with members
    [r], fires on fence [this]: steps (1) to (3) done. *)
Definition fired (this : fence_id) (ref : ref_id) (r : FenceReference)
    (w : World) : World :=
  {| fences :=
       raise_all (chain_fences w r)
         (alter pop_armed this (alter clear_signalled this (fences w)));
     references := alter (fun r => drop_chain (taken r)) ref (references w);
     async_ := async_ w |}.

(** (5) the wait is registered again when references are still armed *)
Definition still_armed (this : fence_id) (w : World) : bool :=
  match fences w !! this with
  | Some f => bool_decide (armed_refs_ f ≠ [])
  | None => false
  end.

Definition waited (this : fence_id) (w : World) : WaitBase :=
  match fences w !! this with
  | Some f => ready_wait_ f
  | None => {| object := None; trigger := 0 |}
  end.

Definition rearmed (this : fence_id) (w : World) : World :=
  if still_armed this w then
    with_async (async_begin_wait (async_ w) this (waited this w)).2 w
  else w.

(** The world when the handle on [a] that a local held is no more, and
    when the object [a] is no more. *)
Definition unheld (a : ref_id) (w : World) : World :=
  with_references
    (alter (fun r => set_held (pred (held r)) r) a (references w)) w.

Definition unheld_opt (o : option ref_id) (w : World) : World :=
  match o with
  | Some a => unheld a w
  | None => w
  end.

Definition without (a : ref_id) (w : World) : World :=
  with_references (delete a (references w)) w.

(** A reference whose object and parent fence exist. *)
Definition resolvable (w : World) (a : ref_id) : Prop :=
  exists ra fa, references w !! a = Some ra /\ fences w !! fence_ ra = Some fa.

(** ** Stores in which every handle names an object *)

(** Some chain slot holds the id [a]. *)
Definition chain_referenced (w : World) (a : ref_id) : Prop :=
  map_Exists (fun _ r => a ∈ chain r) (references w).

(** Every chain slot names a reference of the store. *)
Definition closed (w : World) : Prop :=
  forall x r y,
    references w !! x = Some r -> y ∈ chain r ->
    is_Some (references w !! y).

(** Every reference of the store has its parent fence there. *)
Definition parented (w : World) : Prop :=
  forall x r, references w !! x = Some r -> is_Some (fences w !! fence_ r).

(** Every slot of a fence names a reference of the store. *)
Definition housed (w : World) : Prop :=
  forall fid f y,
    fences w !! fid = Some f -> y ∈ slots f -> is_Some (references w !! y).

(** A store in which every handle names an object, with fuel for the
    destruction of every reference in it. *)
Definition sound (fuel : nat) (w : World) : Prop :=
  closed w /\ housed w /\ parented w /\
  (size (references w) <= fuel)%nat.

(** A fence but for its count, and two stores whose fences are the same
    but for their counts. *)
Definition uncounted (f : Fence) : Fence := set_ref_count 0 f.

Definition same_fences (w w' : World) : Prop :=
  forall fid, uncounted <$> fences w' !! fid = uncounted <$> fences w !! fid.

(** A sink that, told of a death, leaves the references alone and changes
    nothing of the fences but their counts. *)
Definition quiet (sink : fence_id -> World -> World) : Prop :=
  forall fid w,
    references (sink fid w) = references w /\ same_fences w (sink fid w).

(** The slots of [w'] hold no more than those of [w]: the slots of its
    fences hold some of what they held in [w], and its references are some
    of those of [w], with the chain handles they had or fewer. *)
Definition narrowed (w w' : World) : Prop :=
  (forall fid f',
     fences w' !! fid = Some f' ->
     exists f, fences w !! fid = Some f /\
               forall y, y ∈ slots f' -> y ∈ slots f) /\
  (forall x r',
     references w' !! x = Some r' ->
     exists r, references w !! x = Some r /\
               forall y, y ∈ chain r' -> y ∈ chain r).

(** [w'] is [w] less some references that had no handle left: the fences,
    but for their counts, and the references that are left are as in [w],
    and the others were held by nobody and are named by no slot. *)
Definition shrunk (w w' : World) : Prop :=
  same_fences w w' /\
  (forall x r, references w' !! x = Some r -> references w !! x = Some r) /\
  (forall x r,
     references w !! x = Some r -> references w' !! x = None ->
     held r = 0%nat /\ ¬ referenced w' x).

(** The calls of a destructor, and a list of calls without them. *)
Definition death_notice (c : call) : bool :=
  match c with
  | cb_OnRefForFenceDead _ => true
  | _ => false
  end.

Definition listed (cs : list call) : list call :=
  List.filter (fun c => negb (death_notice c)) cs.

(** The event of fence [fid] has the SIGNALLED bit set. *)
Definition signalled (fs : gmap fence_id Fence) (fid : fence_id) : Prop :=
  exists f, fs !! fid = Some f /\
            Z.land (event_ f) ZX_EVENT_SIGNALED = ZX_EVENT_SIGNALED.

(** Modelled from the spec: FenceCallback::OnRefForFenceDead is the
    client's (client.cpp, not among the sources).  The spec says that on
    every destruction of a reference the [ref_count] of the fence is
    decremented, and that the fence is eligible for destruction when the
    count reaches zero: this sink decrements, through [OnRefDead], and is
    the client's while the count stays above zero. *)
Definition counting_sink (fid : fence_id) (w : World) : World :=
  match OnRefDead fid {| world := w; calls := [] |} with
  | Some (_, t) => world t
  | None => w
  end.

End Fence.

Arguments fences {async_t} _.
Arguments references {async_t} _.
Arguments async_ {async_t} _.
Arguments world {async_t} _.
Arguments calls {async_t} _.
Arguments mkWorld {async_t} _ _ _.
Arguments mkRun {async_t} _ _.
Arguments with_fences {async_t} _ _.
Arguments with_references {async_t} _ _.
Arguments with_async {async_t} _ _.
Arguments chain_fences {async_t} _ _.
Arguments still_armed {async_t} _ _.
Arguments waited {async_t} _ _.
Arguments resolvable {async_t} _ _.
Arguments referenced {async_t} _ _.
Arguments alive {async_t} _ _.
Arguments chain_referenced {async_t} _ _.
Arguments closed {async_t} _.
Arguments parented {async_t} _.
Arguments housed {async_t} _.
Arguments sound {async_t} _ _.
Arguments quiet {async_t} _.
Arguments same_fences {async_t} _ _.
Arguments narrowed {async_t} _ _.
Arguments shrunk {async_t} _ _.
Arguments unheld {async_t} _ _.
Arguments unheld_opt {async_t} _ _.
Arguments without {async_t} _ _.
Arguments counting_sink {async_t} _ _.
Arguments fired ZX_EVENT_SIGNALED {async_t} _ _ _ _.
Arguments rearmed {async_t} _ _ _.

(** ** A sample run: fence 1 with two armed references *)

Definition sample_begin (a : unit) (f : fence_id) (w : WaitBase)
  : zx_status_t * unit := (ZX_ERR (-2), tt).

Definition sample_sink (r : ref_id) (w : World unit) : World unit := w.

Definition sample_dead (f : fence_id) (w : World unit) : World unit := w.

Definition sample_fence (armed : list ref_id) (cur : option ref_id) : Fence :=
  {| event_ := 8; ref_count_ := 2; cur_ref_ := cur; armed_refs_ := armed;
     ready_wait_ := {| object := Some 1%positive; trigger := 8 |} |}.

(** A reference of which the client holds one handle. *)
Definition sample_ref (f : fence_id) (a b : option ref_id) : FenceReference :=
  {| fence_ := f; release_fence1_ := a; release_fence2_ := b; held := 1 |}.

Definition sample_run : run unit :=
  {| world :=
       {| fences := <[1%positive := sample_fence [5; 6]%positive (Some 6%positive)]>
                      (<[2%positive := sample_fence [] None]>
                         (<[3%positive := sample_fence [] None]> ∅));
          references :=
            <[5%positive := sample_ref 1%positive (Some 7%positive) (Some 8%positive)]>
              (<[6%positive := sample_ref 1%positive None None]>
                 (<[7%positive := sample_ref 2%positive None None]>
                    (<[8%positive := sample_ref 3%positive None None]>
                       (<[9%positive := sample_ref 1%positive None None]> ∅))));
          async_ := tt |};
     calls := [] |}.

(** The same when the client has let go of its handle on reference 5,
    which the queue of fence 1 alone keeps. *)
Definition lone_run : run unit :=
  {| world := unheld 5%positive (world sample_run); calls := [] |}.

(** The same with a reference 10 that fence 2 created and nobody took a
    handle on: the slot [cur_ref_] of fence 2 alone keeps it. *)
Definition current_run : run unit :=
  {| world :=
       with_references
         (<[10%positive := set_held 0 (sample_ref 2%positive None None)]>
            (references (world sample_run)))
         (with_fences
            (<[2%positive := sample_fence [] (Some 10%positive)]>
               (fences (world sample_run)))
            (world sample_run));
     calls := [] |}.

(** The same with a reference 10 of fence 2 that nothing keeps but the
    first chain slot of reference 6. *)
Definition chained_run : run unit :=
  {| world :=
       with_references
         (<[6%positive := sample_ref 1%positive (Some 10%positive) None]>
            (<[10%positive := set_held 0 (sample_ref 2%positive None None)]>
               (references (world sample_run))))
         (world sample_run);
     calls := [] |}.

End Fence.

(** * Properties of the display fence *)

Module FenceFacts.
Import Fence.

#[local] Ltac run_step :=
  unfold mbind, mret, M_bind, M_ret, get_fence, put_fence, get_ref, put_ref,
    get_world, put_world, called, lift, halt; simpl.

#[local] Ltac run_all := repeat (progress run_step).

Section Facts.

Variable ZX_EVENT_SIGNALED : Z.
Variable async_t : Type.
Variable async_begin_wait : async_t -> fence_id -> WaitBase -> zx_status_t * async_t.
Variable OnFenceFired : ref_id -> World async_t -> World async_t.
Variable OnRefForFenceDead : fence_id -> World async_t -> World async_t.

Abbreviation release := (@release async_t OnRefForFenceDead).
Abbreviation release_opt := (@release_opt async_t OnRefForFenceDead).
Abbreviation drop := (@drop async_t OnRefForFenceDead).
Abbreviation CreateRef := (@CreateRef async_t OnRefForFenceDead).
Abbreviation ClearRef := (@ClearRef async_t OnRefForFenceDead).
Abbreviation Signal := (@Signal ZX_EVENT_SIGNALED async_t).
Abbreviation OnRefArmed := (@OnRefArmed ZX_EVENT_SIGNALED async_t async_begin_wait).
Abbreviation StartReadyWait :=
  (@StartReadyWait ZX_EVENT_SIGNALED async_t async_begin_wait).
Abbreviation FenceReference_Signal :=
  (@FenceReference_Signal ZX_EVENT_SIGNALED async_t).
Abbreviation FenceReference_OnReady :=
  (@FenceReference_OnReady ZX_EVENT_SIGNALED async_t OnRefForFenceDead).
Abbreviation OnReady :=
  (@OnReady ZX_EVENT_SIGNALED async_t async_begin_wait OnFenceFired
     OnRefForFenceDead).
Abbreviation clear_signalled := (Fence.clear_signalled ZX_EVENT_SIGNALED).
Abbreviation raise_signalled := (Fence.raise_signalled ZX_EVENT_SIGNALED).
Abbreviation raise_all := (Fence.raise_all ZX_EVENT_SIGNALED).
Abbreviation signalled := (Fence.signalled ZX_EVENT_SIGNALED).
Abbreviation fired := (Fence.fired ZX_EVENT_SIGNALED).
Abbreviation rearmed := (Fence.rearmed async_begin_wait).

(** ** Runs of the member functions *)

Lemma bind_fence_run {A B} (m : M async_t A) (k : A -> M async_t B) t a t1 :
  m t = Some (a, t1) -> (m ≫= k) t = k a t1.
Proof. intros Hm. unfold mbind, M_bind. now rewrite Hm. Qed.

Lemma insert_as_alter `{Countable K} {V} (g : V -> V) (m : gmap K V) k v :
  m !! k = Some v -> <[k := g v]> m = alter g k m.
Proof.
  intros Hk. apply map_eq. intros j. destruct (decide (k = j)) as [->|Hne].
  - now rewrite lookup_insert_eq, lookup_alter_eq, Hk.
  - now rewrite lookup_insert_ne, lookup_alter_ne.
Qed.

(** ** Handles *)

Lemma alive_held (w : World async_t) a r :
  references w !! a = Some r -> (0 < held r)%nat -> alive w a.
Proof. intros Hr Hh. left. now rewrite Hr. Qed.

Lemma alive_fence (w : World async_t) a fid f :
  fences w !! fid = Some f -> a ∈ slots f -> alive w a.
Proof. intros Hf Hin. right. left. now exists fid, f. Qed.

Lemma alive_chain (w : World async_t) a x r :
  references w !! x = Some r -> a ∈ chain r -> alive w a.
Proof. intros Hr Hin. right. right. now exists x, r. Qed.

(** A reference with a handle has one in every world whose slots hold at
    least the same and where no fewer handles are held outside of them. *)
Lemma alive_weaken (w w' : World async_t) a :
  (forall fid, slots <$> fences w' !! fid = slots <$> fences w !! fid) ->
  (forall x r', references w' !! x = Some r' ->
     exists r, references w !! x = Some r /\ (held r' <= held r)%nat /\
               forall y, y ∈ chain r' -> y ∈ chain r) ->
  alive w' a -> alive w a.
Proof.
  intros Hfences Hrefs [Hheld|[Hf|Hr]].
  - destruct (references w' !! a) as [r'|] eqn:Hr'; [|done].
    destruct (Hrefs a r' Hr') as (r & Hr & Hle & _).
    left. rewrite Hr. lia.
  - destruct Hf as (fid & f' & Hf' & Hin).
    pose proof (Hfences fid) as Hs. rewrite Hf' in Hs. simpl in Hs.
    destruct (fences w !! fid) as [f|] eqn:Hf; [|done].
    simpl in Hs. inversion Hs as [Hslots].
    apply (alive_fence w a fid f Hf). now rewrite <- Hslots.
  - destruct Hr as (x & r' & Hr' & Hin).
    destruct (Hrefs x r' Hr') as (r & Hr & _ & Hsub).
    apply (alive_chain w a x r Hr). now apply Hsub.
Qed.

Lemma release_alive fuel a t :
  alive (world t) a -> release fuel a t = Some (tt, t).
Proof.
  intros Ha. destruct fuel; simpl; run_all;
    (destruct (decide (alive (world t) a)); [done|contradiction]).
Qed.

(** The last handle on a reference whose chain slots are null has gone:
    the sink is told and the object is no more. *)
Lemma release_leaf fuel a t r r1 :
  ¬ alive (world t) a ->
  references (world t) !! a = Some r ->
  references (OnRefForFenceDead (fence_ r) (world t)) !! a = Some r1 ->
  chain r1 = [] ->
  release (S fuel) a t =
    Some (tt,
          {| world := without a (OnRefForFenceDead (fence_ r) (world t));
             calls := calls t ++ [cb_OnRefForFenceDead (fence_ r)] |}).
Proof.
  intros Hdead Hr Hr1 Hchain. simpl. run_all.
  destruct (decide (alive (world t) a)); [contradiction|].
  rewrite Hr. simpl. rewrite Hr1. simpl.
  destruct r1 as [fid [x|] [y|] h]; try discriminate. simpl.
  rewrite lookup_insert_eq. simpl.
  unfold without, with_references. simpl.
  now rewrite insert_insert_eq, delete_insert_eq.
Qed.

Lemma hand_over_run a (t : run async_t) r :
  references (world t) !! a = Some r ->
  hand_over async_t a t =
    Some (tt, {| world := unheld a (world t); calls := calls t |}).
Proof.
  intros Hr. unfold hand_over. run_all. rewrite Hr. simpl.
  unfold unheld, with_references. do 4 f_equal.
  exact (insert_as_alter (fun r => set_held (pred (held r)) r) _ _ _ Hr).
Qed.

Lemma unheld_lookup_ne a (w : World async_t) x :
  a ≠ x -> references (unheld a w) !! x = references w !! x.
Proof. intros Hne. unfold unheld. simpl. now rewrite lookup_alter_ne. Qed.

Lemma unheld_fence_chain a (w : World async_t) x :
  (fun r => (fence_ r, chain r)) <$> references (unheld a w) !! x
  = (fun r => (fence_ r, chain r)) <$> references w !! x.
Proof.
  unfold unheld. simpl. destruct (decide (a = x)) as [<-|Hne].
  - rewrite lookup_alter_eq. now destruct (references w !! a).
  - now rewrite lookup_alter_ne.
Qed.

Lemma unheld_opt_lookup_ne o (w : World async_t) x :
  x ∉ option_list o -> references (unheld_opt o w) !! x = references w !! x.
Proof.
  destruct o as [a|]; simpl; [|done]. intros Hin.
  apply unheld_lookup_ne. intros ->. apply Hin. now left.
Qed.

Lemma unheld_opt_fence_chain o (w : World async_t) x :
  (fun r => (fence_ r, chain r)) <$> references (unheld_opt o w) !! x
  = (fun r => (fence_ r, chain r)) <$> references w !! x.
Proof. destruct o; simpl; [apply unheld_fence_chain|done]. Qed.

Lemma unheld_opt_fences o (w : World async_t) :
  fences (unheld_opt o w) = fences w /\ async_ (unheld_opt o w) = async_ w.
Proof. now destruct o. Qed.

Lemma hand_over_opt_run o (t : run async_t) :
  (forall x, x ∈ option_list o -> is_Some (references (world t) !! x)) ->
  hand_over_opt async_t o t =
    Some (tt, {| world := unheld_opt o (world t); calls := calls t |}).
Proof.
  destruct o as [a|]; simpl; intros Hx.
  - destruct (Hx a) as [r Hr]; [now left|]. now apply (hand_over_run a t r).
  - now destruct t.
Qed.

Lemma drop_alive fuel a t r :
  references (world t) !! a = Some r ->
  alive (unheld a (world t)) a ->
  drop fuel a t = Some (tt, {| world := unheld a (world t); calls := calls t |}).
Proof.
  intros Hr Ha. unfold Fence.drop, hand_over.
  erewrite bind_fence_run; cycle 1.
  { run_all. rewrite Hr. simpl. reflexivity. }
  assert ({| fences := fences (world t);
             references := <[a := set_held (pred (held r)) r]>
                             (references (world t));
             async_ := async_ (world t) |} = unheld a (world t)) as ->.
  { unfold unheld, with_references. f_equal.
    exact (insert_as_alter (fun r => set_held (pred (held r)) r) _ _ _ Hr). }
  now apply release_alive.
Qed.

Lemma drop_leaf fuel a t r r1 :
  references (world t) !! a = Some r ->
  ¬ alive (unheld a (world t)) a ->
  references (OnRefForFenceDead (fence_ r) (unheld a (world t))) !! a
    = Some r1 ->
  chain r1 = [] ->
  drop (S fuel) a t =
    Some (tt,
          {| world := without a
                        (OnRefForFenceDead (fence_ r) (unheld a (world t)));
             calls := calls t ++ [cb_OnRefForFenceDead (fence_ r)] |}).
Proof.
  intros Hr Hdead Hr1 Hchain. unfold Fence.drop, hand_over.
  erewrite bind_fence_run; cycle 1.
  { run_all. rewrite Hr. simpl. reflexivity. }
  assert ({| fences := fences (world t);
             references := <[a := set_held (pred (held r)) r]>
                             (references (world t));
             async_ := async_ (world t) |} = unheld a (world t)) as ->.
  { unfold unheld, with_references. f_equal.
    exact (insert_as_alter (fun r => set_held (pred (held r)) r) _ _ _ Hr). }
  exact (release_leaf fuel a {| world := unheld a (world t); calls := calls t |}
           (set_held (pred (held r)) r) r1 Hdead
           ltac:(simpl; now rewrite lookup_alter_eq, Hr) Hr1 Hchain).
Qed.

Lemma event_signal_run this clear_mask set_mask t f :
  fences (world t) !! this = Some f ->
  event_signal_ async_t this clear_mask set_mask t =
    Some (tt,
          {| world :=
               with_fences
                 (alter (fun f => set_event
                                    (Z.lor (Z.ldiff (event_ f) clear_mask)
                                       set_mask) f)
                    this (fences (world t))) (world t);
             calls := calls t ++ [event_signal this clear_mask set_mask] |}).
Proof.
  intros Hf. unfold event_signal_. run_all. rewrite Hf. simpl.
  unfold with_fences. do 4 f_equal.
  now apply (insert_as_alter
    (fun f => set_event (Z.lor (Z.ldiff (event_ f) clear_mask) set_mask) f)).
Qed.

Lemma Signal_run this t f :
  fences (world t) !! this = Some f ->
  Signal this t =
    Some (tt,
          {| world := with_fences (alter raise_signalled this (fences (world t)))
                        (world t);
             calls := calls t ++ [event_signal this 0 ZX_EVENT_SIGNALED] |}).
Proof.
  intros Hf. unfold Fence.Signal. rewrite (event_signal_run _ _ _ _ _ Hf).
  do 4 f_equal. apply alter_ext. intros f' _. unfold raise_signalled.
  now rewrite Z.ldiff_0_r.
Qed.

Lemma OnRefArmed_nonempty this ref t f :
  fences (world t) !! this = Some f ->
  armed_refs_ f ≠ [] ->
  OnRefArmed this ref t =
    Some (ZX_OK,
          {| world := with_fences
                        (<[this := set_armed_refs (armed_refs_ f ++ [ref]) f]>
                           (fences (world t))) (world t);
             calls := calls t |}).
Proof.
  intros Hf Harmed. unfold Fence.OnRefArmed. run_all. rewrite Hf. simpl.
  rewrite bool_decide_eq_false_2 by done. simpl.
  destruct (decide (ZX_OK ≠ ZX_OK)) as [Hne|_]; [done|]. simpl.
  now rewrite Hf.
Qed.

Lemma OnRefArmed_empty this ref t f :
  fences (world t) !! this = Some f ->
  armed_refs_ f = [] ->
  let wb := {| object := Some this; trigger := ZX_EVENT_SIGNALED |} in
  let ans := async_begin_wait (async_ (world t)) this wb in
  let f' := set_ready_wait wb f in
  OnRefArmed this ref t =
    Some (ans.1,
          {| world :=
               with_async ans.2
                 (with_fences
                    (<[this := if decide (ans.1 = ZX_OK)
                               then set_armed_refs [ref] f' else f']>
                       (fences (world t)))
                    (world t));
             calls := calls t ++ [ready_wait_Begin this wb] |}).
Proof.
  intros Hf Harmed wb ans f'. unfold Fence.OnRefArmed, ready_wait_Begin_.
  run_all. rewrite Hf. simpl.
  rewrite bool_decide_eq_true_2 by done. simpl.
  rewrite lookup_insert_eq. simpl. fold wb. fold ans.
  destruct (decide (ans.1 ≠ ZX_OK)) as [Hne|Heq]; simpl.
  - destruct (decide (ans.1 = ZX_OK)); [done|]. reflexivity.
  - destruct (decide (ans.1 = ZX_OK)) as [Hok|]; [|done].
    rewrite lookup_insert_eq. simpl. rewrite insert_insert_eq, Hok.
    unfold with_async, with_fences, f', set_armed_refs, set_ready_wait.
    simpl. now rewrite Harmed.
Qed.

Lemma FenceReference_Signal_run a t ra fa :
  references (world t) !! a = Some ra ->
  fences (world t) !! fence_ ra = Some fa ->
  FenceReference_Signal a t =
    Some (tt,
          {| world := with_fences
                        (alter raise_signalled (fence_ ra) (fences (world t)))
                        (world t);
             calls := calls t ++ [event_signal (fence_ ra) 0 ZX_EVENT_SIGNALED] |}).
Proof.
  intros Ha Hfa. unfold Fence.FenceReference_Signal.
  erewrite bind_fence_run; [|unfold get_ref; run_all; now rewrite Ha].
  now apply (Signal_run _ _ fa).
Qed.

Lemma raise_all_is_Some l fs fid :
  is_Some (raise_all l fs !! fid) <-> is_Some (fs !! fid).
Proof.
  revert fs. induction l as [|x l IH]; intros fs; simpl; [done|].
  unfold raise_all in *. simpl. rewrite IH. apply lookup_alter_is_Some.
Qed.

Lemma raise_all_armed l fs fid :
  armed_refs_ <$> raise_all l fs !! fid = armed_refs_ <$> fs !! fid.
Proof.
  revert fs. induction l as [|x l IH]; intros fs; simpl; [done|].
  unfold raise_all in *. simpl. rewrite IH.
  destruct (decide (x = fid)) as [->|Hne].
  - rewrite lookup_alter_eq. now destruct (fs !! fid).
  - now rewrite lookup_alter_ne.
Qed.

Lemma raise_all_cur_ref l fs fid :
  cur_ref_ <$> raise_all l fs !! fid = cur_ref_ <$> fs !! fid.
Proof.
  revert fs. induction l as [|x l IH]; intros fs; simpl; [done|].
  unfold raise_all in *. simpl. rewrite IH.
  destruct (decide (x = fid)) as [->|Hne].
  - rewrite lookup_alter_eq. now destruct (fs !! fid).
  - now rewrite lookup_alter_ne.
Qed.

Lemma raise_all_slots l fs fid :
  slots <$> raise_all l fs !! fid = slots <$> fs !! fid.
Proof.
  revert fs. induction l as [|x l IH]; intros fs; simpl; [done|].
  unfold raise_all in *. simpl. rewrite IH.
  destruct (decide (x = fid)) as [->|Hne].
  - rewrite lookup_alter_eq. now destruct (fs !! fid).
  - now rewrite lookup_alter_ne.
Qed.

Lemma raise_all_app l1 l2 fs :
  raise_all (l1 ++ l2) fs = raise_all l2 (raise_all l1 fs).
Proof. unfold raise_all. apply foldl_app. Qed.

Lemma land_lor_same e m : Z.land (Z.lor e m) m = m.
Proof.
  apply Z.bits_inj'. intros n Hn. rewrite Z.land_spec, Z.lor_spec.
  now destruct (Z.testbit e n), (Z.testbit m n).
Qed.

Lemma land_ldiff_same e m : Z.land (Z.ldiff e m) m = 0.
Proof.
  apply Z.bits_inj'. intros n Hn.
  rewrite Z.land_spec, Z.ldiff_spec, Z.bits_0.
  now destruct (Z.testbit e n), (Z.testbit m n).
Qed.

Lemma raise_all_keeps_signalled l fs fid :
  signalled fs fid -> signalled (raise_all l fs) fid.
Proof.
  revert fs. induction l as [|x l IH]; intros fs Hs; simpl; [done|].
  apply IH. destruct Hs as (f & Hf & Hbit).
  destruct (decide (x = fid)) as [->|Hne].
  - exists (raise_signalled f). rewrite lookup_alter_eq, Hf. split; [done|].
    apply land_lor_same.
  - exists f. now rewrite lookup_alter_ne.
Qed.

Lemma raise_all_signalled l fs fid :
  fid ∈ l -> is_Some (fs !! fid) -> signalled (raise_all l fs) fid.
Proof.
  revert fs. induction l as [|x l IH]; intros fs Hin Hsome.
  - now apply elem_of_nil in Hin.
  - simpl. destruct (decide (x = fid)) as [->|Hne].
    + apply raise_all_keeps_signalled. destruct Hsome as [f Hf].
      exists (raise_signalled f). rewrite lookup_alter_eq, Hf. split; [done|].
      apply land_lor_same.
    + apply elem_of_cons in Hin as [Heq|Hin]; [congruence|].
      apply IH; [done|]. now rewrite lookup_alter_is_Some.
Qed.

Lemma raise_all_untouched l fs fid :
  fid ∉ l -> raise_all l fs !! fid = fs !! fid.
Proof.
  revert fs. induction l as [|x l IH]; intros fs Hin; simpl; [done|].
  apply not_elem_of_cons in Hin as [Hne Hin].
  unfold raise_all in *. simpl. rewrite IH by done.
  now apply lookup_alter_ne.
Qed.

Lemma omap_fence_ext (g1 g2 : gmap ref_id FenceReference) (l : list ref_id) :
  (forall x, fence_ <$> g1 !! x = fence_ <$> g2 !! x) ->
  omap (fun x => fence_ <$> g1 !! x) l = omap (fun x => fence_ <$> g2 !! x) l.
Proof.
  intros Hext. induction l as [|x l IH]; [done|]. csimpl.
  rewrite Hext. destruct (fence_ <$> g2 !! x); [|done]. now f_equal.
Qed.

Lemma chain_fences_resolved (w : World async_t) r fid :
  (forall a, a ∈ chain r -> resolvable w a) ->
  fid ∈ chain_fences w r -> is_Some (fences w !! fid).
Proof.
  intros Hres Hin. unfold chain_fences in Hin.
  apply list_elem_of_omap in Hin as (a & Ha & Hfid).
  destruct (Hres a Ha) as (ra & fa & Hra & Hfa).
  rewrite Hra in Hfid. simpl in Hfid. inversion Hfid; subst. eauto.
Qed.

Lemma still_armed_iff this (w : World async_t) :
  still_armed this w = true <->
  exists f, fences w !! this = Some f /\ armed_refs_ f ≠ [].
Proof.
  unfold still_armed. destruct (fences w !! this) as [f|]; split.
  - intros Hs. exists f. split; [done|]. now apply bool_decide_eq_true_1 in Hs.
  - intros (f' & Hf' & Hne). inversion Hf'; subst.
    now apply bool_decide_eq_true_2.
  - done.
  - now intros (f' & Hf' & _).
Qed.

Lemma rearmed_fences this (w : World async_t) :
  fences (rearmed this w) = fences w /\
  references (rearmed this w) = references w.
Proof. unfold Fence.rearmed. now destruct (still_armed this w). Qed.

(** Signals and nulled chain slots take no handle from a reference but
    those of the nulled slots. *)
Lemma alive_after_signals (w : World async_t) ref r r' l l' a :
  references w !! ref = Some r ->
  held r' = held r ->
  alive {| fences := raise_all l (fences w);
           references := alter drop_chain ref (references w);
           async_ := async_ w |} a ->
  alive {| fences := raise_all l' (fences w);
           references := <[ref := r']> (references w);
           async_ := async_ w |} a.
Proof.
  intros Hr Hheld. apply alive_weaken; simpl.
  - intros fid. now rewrite !raise_all_slots.
  - intros x rx Hx. destruct (decide (ref = x)) as [<-|Hne].
    + rewrite lookup_alter_eq, Hr in Hx. simpl in Hx. inversion Hx; subst.
      rewrite lookup_insert_eq. eexists. split; [done|]. simpl.
      split; [lia|]. intros y Hy. now apply elem_of_nil in Hy.
    + rewrite lookup_alter_ne in Hx by done. rewrite lookup_insert_ne by done.
      eexists. split; [done|]. split; [lia|done].
Qed.

Lemma FenceReference_OnReady_run fuel ref t r :
  references (world t) !! ref = Some r ->
  (forall a, a ∈ chain r -> resolvable (world t) a) ->
  (forall a, a ∈ chain r ->
     alive {| fences := raise_all (chain_fences (world t) r) (fences (world t));
              references := alter drop_chain ref (references (world t));
              async_ := async_ (world t) |} a) ->
  FenceReference_OnReady fuel ref t =
    Some (tt,
          {| world :=
               {| fences := raise_all (chain_fences (world t) r)
                              (fences (world t));
                  references := alter drop_chain ref (references (world t));
                  async_ := async_ (world t) |};
             calls := calls t ++
                      map (fun fid => event_signal fid 0 ZX_EVENT_SIGNALED)
                          (chain_fences (world t) r) |}).
Proof.
  intros Hr Hres Halive. unfold Fence.FenceReference_OnReady.
  erewrite bind_fence_run; [|unfold get_ref; run_all; now rewrite Hr].
  unfold chain_fences, chain in *.
  destruct r as [fid [a|] [b|] h]; simpl in *.
  - destruct (Hres a) as (ra & fa & Ha & Hfa); [now left|].
    destruct (Hres b) as (rb & fb & Hb & Hfb); [right; now left|].
    rewrite Ha, Hb in *. simpl in *.
    erewrite bind_fence_run; cycle 1.
    { erewrite bind_fence_run; [|now apply (FenceReference_Signal_run a t ra fa)].
      run_all. rewrite Hr. simpl. apply release_alive. simpl.
      refine
         (alive_after_signals (world t) ref _ _ [fence_ ra; fence_ rb] [fence_ ra] a Hr _ _); [done|].
      apply Halive. now left. }
    erewrite bind_fence_run; [|unfold get_ref; run_all; now rewrite lookup_insert_eq].
    simpl.
    assert (exists rb', <[ref := {| fence_ := fid; release_fence1_ := None;
                                   release_fence2_ := Some b; held := h |}]>
                          (references (world t)) !! b = Some rb'
                        /\ fence_ rb' = fence_ rb) as (rb' & Hb' & Hfid).
    { destruct (decide (ref = b)) as [->|Hne].
      - rewrite lookup_insert_eq. eexists; split; [done|].
        rewrite Hr in Hb. now inversion Hb.
      - rewrite lookup_insert_ne by done. eauto. }
    assert (is_Some (alter raise_signalled (fence_ ra) (fences (world t))
                       !! fence_ rb')) as [fb' Hfb'].
    { rewrite lookup_alter_is_Some, Hfid. eauto. }
    erewrite bind_fence_run; [|now apply (FenceReference_Signal_run b _ rb' fb')].
    run_all. rewrite lookup_insert_eq. simpl.
    rewrite insert_insert_eq, Hfid, <- app_assoc. simpl.
    rewrite release_alive.
    + do 4 f_equal. exact (insert_as_alter drop_chain _ _ _ Hr).
    + simpl.
      refine
         (alive_after_signals (world t) ref _ _ [fence_ ra; fence_ rb] [fence_ ra; fence_ rb] b Hr _ _); [done|].
      apply Halive. right. now left.
  - destruct (Hres a) as (ra & fa & Ha & Hfa); [now left|].
    rewrite Ha in *. simpl in *.
    erewrite bind_fence_run; cycle 1.
    { erewrite bind_fence_run; [|now apply (FenceReference_Signal_run a t ra fa)].
      run_all. rewrite Hr. simpl. apply release_alive. simpl.
      refine
         (alive_after_signals (world t) ref _ _ [fence_ ra] [fence_ ra] a Hr _ _); [done|].
      apply Halive. now left. }
    run_all. rewrite lookup_insert_eq. simpl.
    do 4 f_equal. exact (insert_as_alter drop_chain _ _ _ Hr).
  - destruct (Hres b) as (rb & fb & Hb & Hfb); [now left|].
    rewrite Hb in *. simpl in *.
    erewrite bind_fence_run; [|run_all; reflexivity].
    erewrite bind_fence_run; [|unfold get_ref; run_all; now rewrite Hr].
    simpl.
    erewrite bind_fence_run; [|now apply (FenceReference_Signal_run b _ rb fb)].
    run_all. rewrite Hr. simpl.
    rewrite release_alive.
    + do 4 f_equal. exact (insert_as_alter drop_chain _ _ _ Hr).
    + simpl.
      refine
         (alive_after_signals (world t) ref _ _ [fence_ rb] [fence_ rb] b Hr _ _); [done|].
      apply Halive. now left.
  - erewrite bind_fence_run; [|run_all; reflexivity].
    erewrite bind_fence_run; [|unfold get_ref; run_all; now rewrite Hr].
    simpl. run_all. rewrite app_nil_r. destruct t as [[fs rs a] cs]. simpl in *.
    do 4 f_equal. symmetry. apply alter_id. intros r' Hr'.
    rewrite Hr in Hr'. now inversion Hr'.
Qed.

Lemma chain_fences_taken (w : World async_t) fs ref r (a' : async_t) :
  references w !! ref = Some r ->
  chain_fences {| fences := fs;
                  references := <[ref := taken r]> (references w);
                  async_ := a' |} (taken r)
  = chain_fences w r.
Proof.
  intros Hr. unfold chain_fences. simpl. apply omap_fence_ext. intros x.
  destruct (decide (ref = x)) as [<-|Hne].
  - now rewrite lookup_insert_eq, Hr.
  - now rewrite lookup_insert_ne.
Qed.

(** [OnReady] up to the point where the function returns and its local
    [ref] goes. *)
Lemma OnReady_run fuel this t f ref rest r observed :
  fences (world t) !! this = Some f ->
  armed_refs_ f = ref :: rest ->
  references (world t) !! ref = Some r ->
  (forall a, a ∈ chain r -> resolvable (world t) a) ->
  (forall a, a ∈ chain r -> alive (fired this ref r (world t)) a) ->
  Z.land observed ZX_EVENT_SIGNALED ≠ 0 ->
  is_Some (fences (OnFenceFired ref (fired this ref r (world t))) !! this) ->
  OnReady fuel this ZX_OK observed t =
    drop fuel ref
      {| world := rearmed this (OnFenceFired ref (fired this ref r (world t)));
         calls :=
           calls t ++
           [event_signal this ZX_EVENT_SIGNALED 0] ++
           map (fun fid => event_signal fid 0 ZX_EVENT_SIGNALED)
               (chain_fences (world t) r) ++
           [cb_OnFenceFired ref] ++
           (if still_armed this
                 (OnFenceFired ref (fired this ref r (world t)))
            then [ready_wait_Begin this
                    (waited this
                       (OnFenceFired ref (fired this ref r (world t))))]
            else []) |}.
Proof.
  intros Hf Harmed Hr Hres Halive Hobs [f' Hf']. unfold Fence.OnReady.
  erewrite bind_fence_run; cycle 1.
  { rewrite bool_decide_eq_true_2 by done. run_all. reflexivity. }
  erewrite bind_fence_run; [|now apply (event_signal_run _ _ _ _ f)].
  erewrite bind_fence_run; cycle 1.
  { unfold get_fence. run_all. rewrite lookup_alter_eq, Hf. simpl. reflexivity. }
  simpl. rewrite Harmed.
  erewrite bind_fence_run; [|run_all; reflexivity].
  erewrite bind_fence_run; cycle 1.
  { unfold acquire. run_all. rewrite Hr. simpl. reflexivity. }
  fold (taken r).
  assert (<[this := {| event_ := Z.lor (Z.ldiff (event_ f) ZX_EVENT_SIGNALED) 0;
                       ref_count_ := ref_count_ f; cur_ref_ := cur_ref_ f;
                       armed_refs_ := rest; ready_wait_ := ready_wait_ f |}]>
            (alter (fun f => set_event
                               (Z.lor (Z.ldiff (event_ f) ZX_EVENT_SIGNALED) 0) f)
               this (fences (world t)))
          = alter pop_armed this (alter clear_signalled this (fences (world t))))
    as Hfences.
  { rewrite <- (insert_as_alter pop_armed _ this (clear_signalled f)).
    - unfold pop_armed, clear_signalled. simpl. rewrite Harmed. simpl.
      rewrite Z.lor_0_r. f_equal. apply alter_ext. intros f0 _.
      now rewrite Z.lor_0_r.
    - now rewrite lookup_alter_eq, Hf. }
  rewrite Hfences.
  assert (alter drop_chain ref (<[ref := taken r]> (references (world t)))
          = alter (fun r => drop_chain (taken r)) ref (references (world t)))
    as Hrefs.
  { rewrite alter_insert_eq.
    exact (insert_as_alter (fun r => drop_chain (taken r)) _ _ _ Hr). }
  erewrite bind_fence_run; cycle 1.
  { apply (FenceReference_OnReady_run fuel ref _ (taken r)); simpl.
    - now rewrite lookup_insert_eq.
    - intros a Ha. destruct (Hres a Ha) as (ra & fa & Hra & Hfa).
      assert (exists ra', <[ref := taken r]> (references (world t)) !! a
                          = Some ra' /\ fence_ ra' = fence_ ra)
        as (ra' & Hra' & Hfence).
      { destruct (decide (ref = a)) as [<-|Hne].
        - rewrite lookup_insert_eq. eexists. split; [done|].
          rewrite Hr in Hra. now inversion Hra.
        - rewrite lookup_insert_ne by done. eauto. }
      assert (is_Some (alter pop_armed this
                         (alter clear_signalled this (fences (world t)))
                         !! fence_ ra')) as [fa' Hfa'].
      { rewrite !lookup_alter_is_Some, Hfence. eauto. }
      exists ra', fa'. split; [done|]. exact Hfa'.
    - intros a Ha. rewrite (chain_fences_taken (world t) _ ref r _ Hr), Hrefs.
      now apply Halive. }
  simpl. rewrite (chain_fences_taken (world t) _ ref r _ Hr), Hrefs.
  erewrite bind_fence_run; [|run_all; reflexivity].
  erewrite bind_fence_run; [|run_all; reflexivity].
  erewrite bind_fence_run; [|run_all; reflexivity]. simpl.
  fold (fired this ref r (world t)).
  erewrite bind_fence_run; cycle 1.
  { unfold get_fence. run_all. rewrite Hf'. simpl. reflexivity. }
  unfold rearmed, still_armed, waited. simpl. rewrite Hf'.
  destruct (bool_decide (armed_refs_ f' ≠ [])); simpl.
  - unfold ready_wait_Begin_. run_all. rewrite Hf'. simpl.
    rewrite <- !app_assoc. reflexivity.
  - run_all. rewrite <- !app_assoc. reflexivity.
Qed.

Lemma ClearRef_run fuel this t f :
  fences (world t) !! this = Some f ->
  ClearRef fuel this t =
    release_opt fuel (cur_ref_ f)
      {| world := with_fences (<[this := set_cur_ref None f]>
                                 (fences (world t))) (world t);
         calls := calls t |}.
Proof. intros Hf. unfold Fence.ClearRef. run_all. now rewrite Hf. Qed.

Lemma CreateRef_fails fuel this t f :
  fences (world t) !! this = Some f ->
  CreateRef fuel this None t =
    (release_opt fuel (cur_ref_ f) ≫= fun _ => mret false)
      {| world := with_fences (<[this := set_cur_ref None f]>
                                 (fences (world t))) (world t);
         calls := calls t |}.
Proof.
  intros Hf. unfold Fence.CreateRef. run_all. rewrite Hf. simpl.
  unfold with_fences, set_cur_ref.
  now destruct (release_opt fuel (cur_ref_ f) _) as [[[] t1]|].
Qed.

Lemma CreateRef_succeeds fuel this r t f :
  fences (world t) !! this = Some f ->
  let fresh := {| fence_ := this; release_fence1_ := None;
                  release_fence2_ := None; held := 0 |} in
  CreateRef fuel this (Some r) t =
    (release_opt fuel (cur_ref_ f) ≫= fun _ =>
     f ← get_fence async_t this;
     put_fence async_t this (set_ref_count (ref_count_ f + 1) f);;
     mret true)
      {| world := {| fences := <[this := set_cur_ref (Some r) f]>
                                 (fences (world t));
                     references := <[r := fresh]> (references (world t));
                     async_ := async_ (world t) |};
         calls := calls t |}.
Proof.
  intros Hf fresh. unfold Fence.CreateRef. run_all. rewrite Hf. simpl.
  unfold set_cur_ref, set_ref_count.
  destruct (release_opt fuel (cur_ref_ f) _) as [[[] t1]|]; [|reflexivity].
  destruct (fences (world t1) !! this); reflexivity.
Qed.

(** C6.  [StartReadyWait] begins the wait on the event exactly when
    [armed_refs_] of the parent fence is empty at the call.  If the
    dispatcher then answers a status other than OK, that status is the
    result and the reference is not appended; in every other case the
    reference is appended at the back and the result is OK. *)
Theorem StartReadyWait_arms this t r f :
  references (world t) !! this = Some r ->
  fences (world t) !! fence_ r = Some f ->
  let wb := {| object := Some (fence_ r); trigger := ZX_EVENT_SIGNALED |} in
  let ans := async_begin_wait (async_ (world t)) (fence_ r) wb in
  exists st t' f',
    StartReadyWait this t = Some (st, t') /\
    fences (world t') !! fence_ r = Some f' /\
    (armed_refs_ f = [] ->
       calls t' = calls t ++ [ready_wait_Begin (fence_ r) wb] /\
       async_ (world t') = ans.2 /\
       (ans.1 ≠ ZX_OK -> st = ans.1 /\ armed_refs_ f' = armed_refs_ f) /\
       (ans.1 = ZX_OK -> st = ZX_OK /\ armed_refs_ f' = armed_refs_ f ++ [this])) /\
    (armed_refs_ f ≠ [] ->
       calls t' = calls t /\
       async_ (world t') = async_ (world t) /\
       st = ZX_OK /\ armed_refs_ f' = armed_refs_ f ++ [this]).
Proof.
  intros Hr Hf wb ans. unfold Fence.StartReadyWait.
  erewrite bind_fence_run; [|unfold get_ref; run_all; now rewrite Hr].
  destruct (armed_refs_ f) as [|x l] eqn:Harmed.
  - rewrite (OnRefArmed_empty _ this t f Hf Harmed). fold wb. fold ans.
    eexists _, _, _. split; [reflexivity|]. simpl.
    rewrite lookup_insert_eq. split; [reflexivity|]. split; [|done].
    intros _. repeat split.
    + destruct (decide (ans.1 = ZX_OK)); [done|]. simpl. now rewrite Harmed.
    + destruct (decide (ans.1 = ZX_OK)); done.
    + destruct (decide (ans.1 = ZX_OK)); done.
  - assert (armed_refs_ f ≠ []) as Hne by now rewrite Harmed.
    rewrite (OnRefArmed_nonempty _ this t f Hf Hne).
    eexists _, _, _. split; [reflexivity|]. simpl.
    rewrite lookup_insert_eq. split; [reflexivity|]. split; [done|].
    intros _. simpl. now rewrite Harmed.
Qed.

(** C10.  When [armed_refs_] of the fence is not empty at the call, arming
    a reference ([StartReadyWait], through [OnRefArmed]) returns OK
    whatever the dispatcher would answer: it is not called, and the
    reference is appended at the back. *)
Theorem arming_armed_fence_is_OK this t r f :
  references (world t) !! this = Some r ->
  fences (world t) !! fence_ r = Some f ->
  armed_refs_ f ≠ [] ->
  exists t',
    StartReadyWait this t = Some (ZX_OK, t') /\
    OnRefArmed (fence_ r) this t = Some (ZX_OK, t') /\
    calls t' = calls t /\
    async_ (world t') = async_ (world t) /\
    references (world t') = references (world t) /\
    fences (world t') =
      <[fence_ r := set_armed_refs (armed_refs_ f ++ [this]) f]>
        (fences (world t)).
Proof.
  intros Hr Hf Hne. unfold Fence.StartReadyWait.
  erewrite bind_fence_run; [|unfold get_ref; run_all; now rewrite Hr].
  rewrite (OnRefArmed_nonempty _ this t f Hf Hne).
  eexists. repeat split.
Qed.

(** A failed allocation, when nothing but the reference that was current
    can be destroyed in the call. *)
Lemma CreateRef_fails_released fuel this t f :
  fences (world t) !! this = Some f ->
  let t0 := {| world := with_fences (<[this := set_cur_ref None f]>
                                       (fences (world t))) (world t);
               calls := calls t |} in
  CreateRef fuel this None t = (ClearRef fuel this ≫= fun _ => mret false) t /\
  ((forall a, cur_ref_ f = Some a -> alive (world t0) a) ->
   CreateRef fuel this None t = Some (false, t0)) /\
  (forall a ra r1,
     cur_ref_ f = Some a ->
     ¬ alive (world t0) a ->
     references (world t) !! a = Some ra ->
     references (OnRefForFenceDead (fence_ ra) (world t0)) !! a = Some r1 ->
     chain r1 = [] ->
     CreateRef (S fuel) this None t =
       Some (false,
             {| world := without a (OnRefForFenceDead (fence_ ra) (world t0));
                calls := calls t ++ [cb_OnRefForFenceDead (fence_ ra)] |})) /\
  (exists f',
     fences (world t0) !! this = Some f' /\
     cur_ref_ f' = None /\
     ref_count_ f' = ref_count_ f /\
     armed_refs_ f' = armed_refs_ f /\
     event_ f' = event_ f /\
     ready_wait_ f' = ready_wait_ f) /\
  references (world t0) = references (world t) /\
  async_ (world t0) = async_ (world t).
Proof.
  intros Hf t0. rewrite (CreateRef_fails fuel this t f Hf). fold t0.
  split; [|split; [|split; [|split]]].
  - unfold mbind at 2, M_bind. now rewrite (ClearRef_run fuel this t f Hf).
  - intros Halive. destruct (cur_ref_ f) as [a|]; simpl.
    + erewrite bind_fence_run; [reflexivity|].
      apply release_alive. now apply Halive.
    + reflexivity.
  - intros a ra r1 Hcur Hdead Hra Hr1 Hchain.
    rewrite (CreateRef_fails (S fuel) this t f Hf). fold t0. rewrite Hcur.
    erewrite bind_fence_run; [reflexivity|].
    now apply (release_leaf fuel a t0 ra r1).
  - exists (set_cur_ref None f). simpl. rewrite lookup_insert_eq. done.
  - done.
Qed.

(** A firing in which no release-chain target is destroyed. *)
Lemma OnReady_run_released fuel this t f ref rest r observed :
  fences (world t) !! this = Some f ->
  armed_refs_ f = ref :: rest ->
  references (world t) !! ref = Some r ->
  Z.land observed ZX_EVENT_SIGNALED ≠ 0 ->
  let w := fired this ref r (world t) in
  let w' := OnFenceFired ref w in
  let w'' := unheld ref (rearmed this w') in
  let steps :=
    [event_signal this ZX_EVENT_SIGNALED 0] ++
    map (fun fid => event_signal fid 0 ZX_EVENT_SIGNALED)
        (chain_fences (world t) r) ++
    [cb_OnFenceFired ref] ++
    (if still_armed this w'
     then [ready_wait_Begin this (waited this w')]
     else []) in
  (forall a, a ∈ chain r -> resolvable (world t) a) ->
  (forall a, a ∈ chain r -> alive w a) ->
  is_Some (fences w' !! this) ->
  forall r',
    references w' !! ref = Some r' ->
    (alive w'' ref ->
     OnReady fuel this ZX_OK observed t =
       Some (tt, {| world := w''; calls := calls t ++ steps |})) /\
    (forall r1,
       ¬ alive w'' ref ->
       references (OnRefForFenceDead (fence_ r') w'') !! ref = Some r1 ->
       chain r1 = [] ->
       OnReady (S fuel) this ZX_OK observed t =
         Some (tt,
               {| world := without ref (OnRefForFenceDead (fence_ r') w'');
                  calls := calls t ++ steps ++
                           [cb_OnRefForFenceDead (fence_ r')] |})) /\
    armed_refs_ <$> fences w !! this = Some rest /\
    references w !! ref = Some (drop_chain (taken r)) /\
    (forall fid, fid ∈ chain_fences (world t) r -> signalled (fences w) fid) /\
    (this ∉ chain_fences (world t) r ->
     exists f1, fences w !! this = Some f1 /\
                Z.land (event_ f1) ZX_EVENT_SIGNALED = 0) /\
    (still_armed this w' = true <->
     exists f2, fences w' !! this = Some f2 /\ armed_refs_ f2 ≠ []).
Proof.
  intros Hf Harmed Hr Hobs w w' w'' steps Hres Halive Hthis r' Hr'.
  assert (references (rearmed this w') !! ref = Some r') as Hr''.
  { destruct (rearmed_fences this w') as [_ ->]. exact Hr'. }
  split; [|split].
  - intros Hlast.
    rewrite (OnReady_run fuel this t f ref rest r observed) by done.
    exact (drop_alive fuel ref
             {| world := rearmed this w'; calls := calls t ++ steps |}
             r' Hr'' Hlast).
  - intros r1 Hlast Hr1 Hchain.
    rewrite (OnReady_run (S fuel) this t f ref rest r observed) by done.
    pose proof (drop_leaf fuel ref
                  {| world := rearmed this w'; calls := calls t ++ steps |}
                  r' r1 Hr'' Hlast Hr1 Hchain) as Hdrop.
    simpl in Hdrop. rewrite <- !app_assoc in Hdrop. exact Hdrop.
  - subst w w'. unfold fired. simpl. repeat split.
    + rewrite raise_all_armed, !lookup_alter_eq, Hf. simpl. now rewrite Harmed.
    + now rewrite lookup_alter_eq, Hr.
    + intros fid Hfid. apply raise_all_signalled; [done|].
      rewrite !lookup_alter_is_Some.
      now apply (chain_fences_resolved (world t) r).
    + intros Hnot. rewrite raise_all_untouched by done.
      rewrite !lookup_alter_eq, Hf. simpl. eexists. split; [reflexivity|].
      simpl. apply land_ldiff_same.
    + apply still_armed_iff.
    + apply still_armed_iff.
Qed.

End Facts.

(** ** Destructions that go on through the release chains *)

Section Cascade.

Variable async_t : Type.
Variable OnRefForFenceDead : fence_id -> World async_t -> World async_t.
Hypothesis Hquiet : quiet OnRefForFenceDead.

Abbreviation release := (@release async_t OnRefForFenceDead).

Lemma same_fences_field {A} (g : Fence -> A) (o1 o2 : option Fence) :
  (forall f, g (uncounted f) = g f) ->
  uncounted <$> o1 = uncounted <$> o2 -> g <$> o1 = g <$> o2.
Proof.
  intros Hg Heq. destruct o1 as [f1|], o2 as [f2|]; try discriminate Heq;
    [|done].
  assert (uncounted f1 = uncounted f2) as Heq'
    by exact (Some_inj _ _ Heq).
  simpl. f_equal. now rewrite <- (Hg f1), <- (Hg f2), Heq'.
Qed.

Lemma same_fences_slots (w w' : World async_t) fid :
  same_fences w w' -> slots <$> fences w' !! fid = slots <$> fences w !! fid.
Proof. intros Hf. now apply (same_fences_field slots). Qed.

Lemma same_fences_refl (w : World async_t) : same_fences w w.
Proof. done. Qed.

Lemma same_fences_trans (w1 w2 w3 : World async_t) :
  same_fences w1 w2 -> same_fences w2 w3 -> same_fences w1 w3.
Proof. intros H12 H23 fid. now rewrite H23, H12. Qed.

Lemma narrowed_refl (w : World async_t) : narrowed w w.
Proof. split; intros x r Hx; exists r; done. Qed.

Lemma narrowed_trans (w1 w2 w3 : World async_t) :
  narrowed w1 w2 -> narrowed w2 w3 -> narrowed w1 w3.
Proof.
  intros [Hf12 Hr12] [Hf23 Hr23]. split.
  - intros fid f3 Hx. destruct (Hf23 fid f3 Hx) as (f2 & Hx2 & Hc2).
    destruct (Hf12 fid f2 Hx2) as (f1 & Hx1 & Hc1). exists f1. auto.
  - intros x r3 Hx. destruct (Hr23 x r3 Hx) as (r2 & Hx2 & Hc2).
    destruct (Hr12 x r2 Hx2) as (r1 & Hx1 & Hc1). exists r1. auto.
Qed.

Lemma narrowed_referenced (w w' : World async_t) a :
  narrowed w w' -> referenced w' a -> referenced w a.
Proof.
  intros [Hf Hr] [(fid & f' & Hf' & Hin)|(x & r' & Hx & Hin)].
  - left. destruct (Hf fid f' Hf') as (f & Hfid & Hsub). exists fid, f. auto.
  - right. destruct (Hr x r' Hx) as (r & Hx0 & Hsub). exists x, r. auto.
Qed.

Lemma narrowed_chain_referenced (w w' : World async_t) a :
  narrowed w w' -> chain_referenced w' a -> chain_referenced w a.
Proof.
  intros [_ Hr] (x & r' & Hx & Hin).
  destruct (Hr x r' Hx) as (r & Hx0 & Hsub). exists x, r. auto.
Qed.

Lemma same_fences_narrowed (w w' : World async_t) :
  same_fences w w' ->
  (forall x r',
     references w' !! x = Some r' ->
     exists r, references w !! x = Some r /\
               forall y, y ∈ chain r' -> y ∈ chain r) ->
  narrowed w w'.
Proof.
  intros Hf Hr. split; [|done]. intros fid f' Hf'.
  pose proof (same_fences_slots w w' fid Hf) as Hs. rewrite Hf' in Hs.
  destruct (fences w !! fid) as [f|] eqn:Hfid; [|discriminate Hs].
  exists f. split; [done|]. simpl in Hs. inversion Hs as [Hs'].
  now rewrite Hs'.
Qed.

Lemma shrunk_narrowed (w w' : World async_t) : shrunk w w' -> narrowed w w'.
Proof.
  intros (Hf & Hr & _). apply same_fences_narrowed; [done|].
  intros x r Hx. exists r. split; [auto|done].
Qed.

Lemma shrunk_refl (w : World async_t) : shrunk w w.
Proof.
  split; [done|]. split; [done|]. intros x r Hx Hnone. congruence.
Qed.

Lemma shrunk_trans (w1 w2 w3 : World async_t) :
  shrunk w1 w2 -> shrunk w2 w3 -> shrunk w1 w3.
Proof.
  intros H12 H23. pose proof (shrunk_narrowed _ _ H23) as Hn23.
  destruct H12 as (Hf12 & Hr12 & Hd12), H23 as (Hf23 & Hr23 & Hd23).
  split; [|split].
  - now apply (same_fences_trans w1 w2 w3).
  - auto.
  - intros x r Hx Hnone.
    destruct (references w2 !! x) as [r2|] eqn:Hx2.
    + destruct (Hd23 x r2 Hx2 Hnone) as [Hheld Hunref].
      pose proof (Hr12 x r2 Hx2) as Hx1. rewrite Hx in Hx1.
      inversion Hx1; subst r2. done.
    + destruct (Hd12 x r Hx Hx2) as [Hheld Hunref]. split; [done|].
      intros Href. apply Hunref. now apply (narrowed_referenced w2 w3).
Qed.

Lemma shrunk_closed (w w' : World async_t) :
  shrunk w w' -> closed w -> closed w'.
Proof.
  intros (Hf & Hr & Hd) Hclosed x r y Hx Hy.
  destruct (Hclosed x r y (Hr x r Hx) Hy) as [ry Hry].
  destruct (references w' !! y) as [ry'|] eqn:Hy'; [eauto|].
  destruct (Hd y ry Hry Hy') as [_ Hunref]. exfalso. apply Hunref.
  right. now exists x, r.
Qed.

(** A reference that somebody holds, or that a slot names, is not taken
    out of the store. *)
Lemma shrunk_keeps (w w' : World async_t) x r :
  shrunk w w' -> references w !! x = Some r ->
  (0 < held r)%nat \/ referenced w' x ->
  references w' !! x = Some r.
Proof.
  intros (Hf & Hr & Hd) Hx Hwhy.
  destruct (references w' !! x) as [r'|] eqn:Hx'.
  - pose proof (Hr x r' Hx') as Hx0. congruence.
  - destruct (Hd x r Hx Hx') as [Hheld Hunref].
    destruct Hwhy as [Hpos|Href]; [lia|done].
Qed.

Lemma narrowed_quiet fid (w : World async_t) :
  narrowed w (OnRefForFenceDead fid w).
Proof.
  destruct (Hquiet fid w) as [Hr Hf]. apply same_fences_narrowed; [done|].
  intros x r Hx. rewrite Hr in Hx. exists r. done.
Qed.

(** A record is put in the place of one with at least its chain
    handles. *)
Lemma narrowed_put (w : World async_t) a r r' :
  references w !! a = Some r ->
  (forall y, y ∈ chain r' -> y ∈ chain r) ->
  narrowed w (with_references (<[a := r']> (references w)) w).
Proof.
  intros Ha Hsub. apply same_fences_narrowed; [done|]. simpl. intros x rx Hx.
  destruct (decide (a = x)) as [<-|Hne].
  - rewrite lookup_insert_eq in Hx. inversion Hx; subst rx. exists r. done.
  - rewrite lookup_insert_ne in Hx by done. exists rx. done.
Qed.

Lemma narrowed_without (w : World async_t) a : narrowed w (without a w).
Proof.
  apply same_fences_narrowed; [done|]. simpl. intros x rx Hx.
  apply lookup_delete_Some in Hx as [_ Hx]. exists rx. done.
Qed.

Lemma closed_put (w : World async_t) a r r' :
  closed w ->
  references w !! a = Some r ->
  (forall y, y ∈ chain r' -> y ∈ chain r) ->
  closed (with_references (<[a := r']> (references w)) w).
Proof.
  intros Hclosed Ha Hsub x rx y Hx Hy. simpl in *.
  rewrite lookup_insert_is_Some'. right.
  destruct (decide (a = x)) as [<-|Hne].
  - rewrite lookup_insert_eq in Hx. inversion Hx; subst rx.
    apply (Hclosed a r y Ha). auto.
  - rewrite lookup_insert_ne in Hx by done. now apply (Hclosed x rx y).
Qed.

Lemma closed_quiet fid (w : World async_t) :
  closed w -> closed (OnRefForFenceDead fid w).
Proof.
  intros Hclosed x r y. destruct (Hquiet fid w) as [-> _]. apply Hclosed.
Qed.

Lemma forallb_death_notice_app ds1 ds2 :
  forallb death_notice ds1 = true -> forallb death_notice ds2 = true ->
  forallb death_notice (ds1 ++ ds2) = true.
Proof. intros H1 H2. rewrite forallb_app, H1, H2. reflexivity. Qed.

(** Releasing a handle always comes to an end in a store whose chain
    slots name objects, given fuel for every reference that a chain slot
    names: the references that had no handle left are destroyed, one
    after the other, the sink is told of each, and nothing else is
    called or changed. *)
Lemma release_total fuel :
  forall (S : gset ref_id) a (t : run async_t),
    (size S <= fuel)%nat ->
    a ∈ S ->
    (forall x, chain_referenced (world t) x -> x ∈ S) ->
    closed (world t) ->
    is_Some (references (world t) !! a) ->
    exists t' ds,
      release fuel a t = Some (tt, t') /\
      shrunk (world t) (world t') /\
      (forall x,
         is_Some (references (world t) !! x) ->
         references (world t') !! x = None ->
         x = a \/ chain_referenced (world t) x) /\
      calls t' = calls t ++ ds /\
      forallb death_notice ds = true /\
      (alive (world t) a -> t' = t /\ ds = []) /\
      (¬ alive (world t) a ->
       references (world t') !! a = None /\
       exists r, references (world t) !! a = Some r /\
                 head ds = Some (cb_OnRefForFenceDead (fence_ r))).
Proof.
  induction fuel as [|fuel IH]; intros S a t Hsize HaS HS Hclosed [r Hr].
  - destruct (decide (alive (world t) a)) as [Halive|Hdead].
    + exists t, []. rewrite (release_alive async_t OnRefForFenceDead 0 a t Halive).
      split; [done|]. split; [apply shrunk_refl|].
      split; [intros x [rx Hx] Hnone; congruence|].
      split; [now rewrite app_nil_r|]. split; [done|]. split; done.
    + exfalso. assert (size S = 0%nat) as Hzero by lia.
      apply size_empty_inv in Hzero. set_solver.
  - destruct (decide (alive (world t) a)) as [Halive|Hdead].
    { exists t, [].
      rewrite (release_alive async_t OnRefForFenceDead (Datatypes.S fuel) a t Halive).
      split; [done|]. split; [apply shrunk_refl|].
      split; [intros x [rx Hx] Hnone; congruence|].
      split; [now rewrite app_nil_r|]. split; [done|]. split; done. }
    assert (held r = 0%nat) as Hheld.
    { destruct (held r) eqn:Hh; [done|]. exfalso. apply Hdead. left.
      rewrite Hr. lia. }
    assert (¬ referenced (world t) a) as Hunref.
    { intros Href. apply Hdead. now right. }
    assert (a ∉ chain r) as Hself.
    { intros Hin. apply Hunref. right. now exists a, r. }
    (* the candidates that are left *)
    set (S' := S ∖ {[a]}).
    assert (size S' <= fuel)%nat as Hsize'.
    { unfold S'. rewrite size_difference by set_solver.
      rewrite size_singleton. lia. }
    assert (forall y, y ∈ chain r -> y ∈ S') as HchainS.
    { intros y Hy. unfold S'. apply elem_of_difference. split.
      - apply HS. now exists a, r.
      - intros Heq. apply elem_of_singleton in Heq. subst y. done. }
    (* the sink is told *)
    set (ws := OnRefForFenceDead (fence_ r) (world t)).
    destruct (Hquiet (fence_ r) (world t)) as [Hsr Hsf]. fold ws in Hsr, Hsf.
    pose proof (narrowed_quiet (fence_ r) (world t)) as N01. fold ws in N01.
    assert (closed ws) as Hclosed_s by now apply closed_quiet.
    assert (references ws !! a = Some r) as Hrs by now rewrite Hsr.
    (* the second chain slot goes *)
    set (r2 := {| fence_ := fence_ r; release_fence1_ := release_fence1_ r;
                  release_fence2_ := None; held := held r |}).
    set (w2 := with_references (<[a := r2]> (references ws)) ws).
    assert (forall y, y ∈ chain r2 -> y ∈ chain r) as Hsub2.
    { intros y. unfold chain. simpl. rewrite app_nil_r. intros Hy.
      apply elem_of_app. now left. }
    pose proof (narrowed_put ws a r r2 Hrs Hsub2) as N12.
    fold w2 in N12.
    pose proof (closed_put ws a r r2 Hclosed_s Hrs Hsub2) as Hclosed2.
    fold w2 in Hclosed2.
    pose proof (narrowed_trans _ _ _ N01 N12) as N02.
    assert (forall x, chain_referenced w2 x -> x ∈ S') as HS2.
    { intros x Hx. pose proof (narrowed_chain_referenced _ _ x N02 Hx) as Hx0.
      unfold S'. apply elem_of_difference. split; [now apply HS|].
      intros Heq. apply elem_of_singleton in Heq. subst x.
      apply Hunref. now right. }
    set (t2 := {| world := w2;
                  calls := calls t ++ [cb_OnRefForFenceDead (fence_ r)] |}).
    assert (exists t3 ds1,
              match release_fence2_ r with
              | Some b => release fuel b
              | None => mret tt
              end t2 = Some (tt, t3) /\
              shrunk w2 (world t3) /\
              (forall x, is_Some (references w2 !! x) ->
                         references (world t3) !! x = None ->
                         x ∈ chain r \/ chain_referenced w2 x) /\
              calls t3 = calls t2 ++ ds1 /\
              forallb death_notice ds1 = true)
      as (t3 & ds1 & Hrun3 & Hshr3 & Hdel3 & Hcalls3 & Hds1).
    { destruct (release_fence2_ r) as [b|] eqn:Hslot2.
      - assert (b ∈ chain r) as Hb.
        { unfold chain. rewrite Hslot2. apply elem_of_app. right. now left. }
        destruct (IH S' b t2 Hsize' (HchainS b Hb) HS2 Hclosed2)
          as (t3 & ds1 & Hrun & Hshr & Hdel & Hcalls & Hds & _).
        { simpl. rewrite lookup_insert_is_Some'. right. rewrite Hsr.
          now apply (Hclosed a r b). }
        exists t3, ds1. split; [done|]. split; [done|].
        split; [|done]. intros x Hx Hnone.
        destruct (Hdel x Hx Hnone) as [->|Hcr]; auto.
      - exists t2, []. split; [done|]. split; [apply shrunk_refl|].
        split; [intros x [rx Hx] Hnone; simpl in *; congruence|].
        split; [now rewrite app_nil_r|done]. }
    set (w3 := world t3) in *.
    destruct Hshr3 as (Hf3 & He3 & Hd3).
    pose proof (shrunk_narrowed w2 w3 (conj Hf3 (conj He3 Hd3))) as N23.
    assert (references w3 !! a = Some r2) as Hr3.
    { destruct (references w3 !! a) as [r3|] eqn:Ha3.
      - pose proof (He3 a r3 Ha3) as Ha2. simpl in Ha2.
        rewrite lookup_insert_eq in Ha2. congruence.
      - exfalso. destruct (Hdel3 a) as [Hin|Hcr]; [|done|done|].
        + simpl. rewrite lookup_insert_eq. eauto.
        + apply Hunref. right.
          exact (narrowed_chain_referenced _ _ a N02 Hcr). }
    assert (closed w3) as Hclosed3.
    { now apply (shrunk_closed w2 w3). }
    (* the first chain slot goes *)
    set (r4 := {| fence_ := fence_ r2; release_fence1_ := None;
                  release_fence2_ := release_fence2_ r2; held := held r2 |}).
    set (w4 := with_references (<[a := r4]> (references w3)) w3).
    assert (forall y, y ∈ chain r4 -> y ∈ chain r2) as Hsub4.
    { intros y Hy. now apply elem_of_nil in Hy. }
    pose proof (narrowed_put w3 a r2 r4 Hr3 Hsub4) as N34.
    fold w4 in N34.
    pose proof (closed_put w3 a r2 r4 Hclosed3 Hr3 Hsub4) as Hclosed4.
    fold w4 in Hclosed4.
    pose proof (narrowed_trans _ _ _ N02 (narrowed_trans _ _ _ N23 N34)) as N04.
    assert (forall x, chain_referenced w4 x -> x ∈ S') as HS4.
    { intros x Hx. pose proof (narrowed_chain_referenced _ _ x N04 Hx) as Hx0.
      unfold S'. apply elem_of_difference. split; [now apply HS|].
      intros Heq. apply elem_of_singleton in Heq. subst x.
      apply Hunref. now right. }
    set (t4 := {| world := w4; calls := calls t3 |}).
    assert (exists t5 ds2,
              match release_fence1_ r2 with
              | Some c => release fuel c
              | None => mret tt
              end t4 = Some (tt, t5) /\
              shrunk w4 (world t5) /\
              (forall x, is_Some (references w4 !! x) ->
                         references (world t5) !! x = None ->
                         x ∈ chain r \/ chain_referenced w4 x) /\
              calls t5 = calls t4 ++ ds2 /\
              forallb death_notice ds2 = true)
      as (t5 & ds2 & Hrun5 & Hshr5 & Hdel5 & Hcalls5 & Hds2).
    { destruct (release_fence1_ r2) as [c|] eqn:Hslot1.
      - assert (c ∈ chain r) as Hc.
        { unfold chain. simpl in Hslot1. rewrite Hslot1. apply elem_of_app.
          left. now left. }
        destruct (IH S' c t4 Hsize' (HchainS c Hc) HS4 Hclosed4)
          as (t5 & ds2 & Hrun & Hshr & Hdel & Hcalls & Hds & _).
        { simpl. rewrite lookup_insert_is_Some'. right.
          apply (Hclosed3 a r2 c Hr3). unfold chain. simpl.
          simpl in Hslot1. rewrite Hslot1. now left. }
        exists t5, ds2. split; [done|]. split; [done|].
        split; [|done]. intros x Hx Hnone.
        destruct (Hdel x Hx Hnone) as [->|Hcr]; auto.
      - exists t4, []. split; [done|]. split; [apply shrunk_refl|].
        split; [intros x [rx Hx] Hnone; simpl in *; congruence|].
        split; [now rewrite app_nil_r|done]. }
    set (w5 := world t5) in *.
    destruct Hshr5 as (Hf5 & He5 & Hd5).
    pose proof (shrunk_narrowed w4 w5 (conj Hf5 (conj He5 Hd5))) as N45.
    assert (references w5 !! a = Some r4) as Hr5.
    { destruct (references w5 !! a) as [r5|] eqn:Ha5.
      - pose proof (He5 a r5 Ha5) as Ha4. simpl in Ha4.
        rewrite lookup_insert_eq in Ha4. congruence.
      - exfalso. destruct (Hdel5 a) as [Hin|Hcr]; [|done|done|].
        + simpl. rewrite lookup_insert_eq. eauto.
        + apply Hunref. right.
          exact (narrowed_chain_referenced _ _ a N04 Hcr). }
    (* the object goes *)
    set (t' := {| world := without a w5; calls := calls t5 |}).
    pose proof (narrowed_trans _ _ _ N04
                  (narrowed_trans _ _ _ N45 (narrowed_without w5 a))) as N0'.
    exists t', ([cb_OnRefForFenceDead (fence_ r)] ++ ds1 ++ ds2).
    split; [|split; [|split; [|split; [|split; [|split]]]]].
    + change (release (Datatypes.S fuel) a t)
        with ((w ← get_world async_t;
               if decide (alive w a) then mret tt
               else
                 r ← get_ref async_t a;
                 called async_t (cb_OnRefForFenceDead (fence_ r));;
                 w ← get_world async_t;
                 put_world async_t (OnRefForFenceDead (fence_ r) w);;
                 r ← get_ref async_t a;
                 put_ref async_t a
                   {| fence_ := fence_ r;
                      release_fence1_ := release_fence1_ r;
                      release_fence2_ := None; held := held r |};;
                 match release_fence2_ r with
                 | Some b => release fuel b
                 | None => mret tt
                 end;;
                 r ← get_ref async_t a;
                 put_ref async_t a
                   {| fence_ := fence_ r; release_fence1_ := None;
                      release_fence2_ := release_fence2_ r;
                      held := held r |};;
                 match release_fence1_ r with
                 | Some b => release fuel b
                 | None => mret tt
                 end;;
                 w ← get_world async_t;
                 put_world async_t
                   {| fences := fences w;
                      references := delete a (references w);
                      async_ := async_ w |}) t).
      erewrite bind_fence_run; [|reflexivity].
      destruct (decide (alive (world t) a)) as [|_]; [done|].
      erewrite bind_fence_run; [|unfold get_ref; run_all; now rewrite Hr].
      erewrite bind_fence_run; [|reflexivity].
      erewrite bind_fence_run; [|reflexivity].
      erewrite bind_fence_run; [|reflexivity].
      erewrite bind_fence_run;
        [|unfold get_ref; run_all; fold ws; now rewrite Hrs].
      erewrite bind_fence_run; [|reflexivity].
      erewrite bind_fence_run; [|exact Hrun3].
      erewrite bind_fence_run;
        [|unfold get_ref; run_all; fold w3; now rewrite Hr3].
      erewrite bind_fence_run; [|reflexivity].
      erewrite bind_fence_run; [|exact Hrun5].
      reflexivity.
    + split; [|split].
      * intros fid. simpl.
        change (uncounted <$> fences w5 !! fid
                = uncounted <$> fences (world t) !! fid).
        rewrite (Hf5 fid).
        change (uncounted <$> fences w3 !! fid
                = uncounted <$> fences (world t) !! fid).
        rewrite (Hf3 fid). exact (Hsf fid).
      * intros x rx Hx. simpl in Hx.
        apply lookup_delete_Some in Hx as [Hne Hx].
        pose proof (He5 x rx Hx) as Hx4. simpl in Hx4.
        rewrite lookup_insert_ne in Hx4 by done.
        pose proof (He3 x rx Hx4) as Hx2. simpl in Hx2.
        rewrite lookup_insert_ne in Hx2 by done. now rewrite <- Hsr.
      * intros x rx Hx Hnone. destruct (decide (x = a)) as [->|Hne].
        { assert (rx = r) by congruence. subst rx. split; [done|].
          intros Href. apply Hunref.
          exact (narrowed_referenced _ _ a N0' Href). }
        simpl in Hnone. rewrite lookup_delete_ne in Hnone by done.
        assert (references w2 !! x = Some rx) as Hx2.
        { simpl. rewrite lookup_insert_ne by done. now rewrite Hsr. }
        destruct (references w3 !! x) as [rx3|] eqn:Hx3.
        -- pose proof (He3 x rx3 Hx3) as Hx2'.
           assert (rx3 = rx) by congruence. subst rx3.
           assert (references w4 !! x = Some rx) as Hx4.
           { simpl. now rewrite lookup_insert_ne. }
           destruct (Hd5 x rx Hx4 Hnone) as [Hh Hun]. split; [done|].
           intros Href. apply Hun.
           exact (narrowed_referenced _ _ x (narrowed_without w5 a) Href).
        -- destruct (Hd3 x rx Hx2 Hx3) as [Hh Hun]. split; [done|].
           intros Href. apply Hun.
           exact (narrowed_referenced _ _ x
                    (narrowed_trans _ _ _ N34
                       (narrowed_trans _ _ _ N45 (narrowed_without w5 a)))
                    Href).
    + intros x [rx Hx] Hnone. destruct (decide (x = a)) as [->|Hne]; [now left|].
      right. simpl in Hnone. rewrite lookup_delete_ne in Hnone by done.
      assert (references w2 !! x = Some rx) as Hx2.
      { simpl. rewrite lookup_insert_ne by done. now rewrite Hsr. }
      assert (forall y, y ∈ chain r -> chain_referenced (world t) y) as Hnamed.
      { intros y Hy. now exists a, r. }
      destruct (references w3 !! x) as [rx3|] eqn:Hx3.
      * pose proof (He3 x rx3 Hx3) as Hx2'.
        assert (rx3 = rx) by congruence. subst rx3.
        destruct (Hdel5 x) as [Hin|Hcr]; [| |auto|].
        -- simpl. rewrite lookup_insert_ne by done. eauto.
        -- done.
        -- exact (narrowed_chain_referenced _ _ x N04 Hcr).
      * destruct (Hdel3 x) as [Hin|Hcr]; [eauto| |auto|]; [done|].
        exact (narrowed_chain_referenced _ _ x N02 Hcr).
    + simpl. rewrite Hcalls5. simpl. rewrite Hcalls3. simpl.
      now rewrite <- !app_assoc.
    + simpl. now apply forallb_death_notice_app.
    + intros Halive. done.
    + intros _. split.
      * simpl. apply lookup_delete_eq.
      * exists r. done.
Qed.

Lemma release_returns fuel a (t : run async_t) :
  closed (world t) ->
  is_Some (references (world t) !! a) ->
  (size (references (world t)) <= fuel)%nat ->
  exists t' ds,
    release fuel a t = Some (tt, t') /\
    shrunk (world t) (world t') /\
    calls t' = calls t ++ ds /\
    forallb death_notice ds = true /\
    (alive (world t) a -> t' = t /\ ds = []) /\
    (¬ alive (world t) a ->
     references (world t') !! a = None /\
     exists r, references (world t) !! a = Some r /\
               head ds = Some (cb_OnRefForFenceDead (fence_ r))).
Proof.
  intros Hclosed Ha Hsize.
  destruct (release_total fuel (dom (references (world t))) a t)
    as (t' & ds & Hrun & Hshr & _ & Hrest); try done.
  - now rewrite size_dom.
  - now apply elem_of_dom.
  - intros x (y & ry & Hy & Hin). apply elem_of_dom.
    now apply (Hclosed y ry x).
  - exists t', ds. done.
Qed.

(** ** What is done to a store is done to what is left of it *)

Lemma shrunk_alter_ref (W w : World async_t) ref rr h :
  shrunk W w ->
  references w !! ref = Some rr ->
  (forall y, y ∈ chain (h rr) -> y ∈ chain rr) ->
  shrunk (with_references (alter h ref (references W)) W)
         (with_references (alter h ref (references w)) w).
Proof.
  intros (Hf & He & Hd) Hrr Hsub.
  assert (narrowed w (with_references (alter h ref (references w)) w)) as Hn.
  { apply same_fences_narrowed; [done|]. simpl. intros x rx Hx.
    destruct (decide (ref = x)) as [<-|Hne].
    - rewrite lookup_alter_eq, Hrr in Hx. inversion Hx; subst rx.
      exists rr. done.
    - rewrite lookup_alter_ne in Hx by done. exists rx. done. }
  split; [done|]. split; simpl.
  - intros x rx Hx. destruct (decide (ref = x)) as [<-|Hne].
    + rewrite lookup_alter_eq, Hrr in Hx.
      now rewrite lookup_alter_eq, (He ref rr Hrr).
    + rewrite lookup_alter_ne in Hx by done.
      rewrite lookup_alter_ne by done. auto.
  - intros x rx Hx Hnone. rewrite lookup_alter_None in Hnone.
    destruct (decide (ref = x)) as [<-|Hne]; [congruence|].
    rewrite lookup_alter_ne in Hx by done.
    destruct (Hd x rx Hx Hnone) as [Hheld Hunref]. split; [done|].
    intros Href. apply Hunref.
    exact (narrowed_referenced _ _ x Hn Href).
Qed.

Lemma shrunk_alter_fence (W w : World async_t) k g :
  shrunk W w ->
  (forall f, uncounted (g f) = g (uncounted f)) ->
  (forall f y, y ∈ slots (g f) -> y ∈ slots f) ->
  shrunk (with_fences (alter g k (fences W)) W)
         (with_fences (alter g k (fences w)) w).
Proof.
  intros (Hf & He & Hd) Hcomm Hsub.
  assert (narrowed w (with_fences (alter g k (fences w)) w)) as Hn.
  { split; simpl.
    - intros fid f' Hf'. destruct (decide (k = fid)) as [<-|Hne].
      + rewrite lookup_alter_eq in Hf'.
        destruct (fences w !! k) as [f|]; [|done].
        inversion Hf'; subst f'. exists f. split; [done|]. apply Hsub.
      + rewrite lookup_alter_ne in Hf' by done. exists f'. done.
    - intros x rx Hx. exists rx. done. }
  split; [|split]; simpl.
  - intros fid. simpl. destruct (decide (k = fid)) as [<-|Hne].
    + rewrite !lookup_alter_eq. pose proof (Hf k) as Hk.
      destruct (fences w !! k) as [f1|], (fences W !! k) as [f2|];
        try discriminate Hk; [|done].
      simpl in *. rewrite !Hcomm. f_equal. f_equal.
      exact (Some_inj _ _ Hk).
    + rewrite !lookup_alter_ne by done. apply Hf.
  - done.
  - intros x rx Hx Hnone. destruct (Hd x rx Hx Hnone) as [Hheld Hunref].
    split; [done|]. intros Href. apply Hunref.
    exact (narrowed_referenced _ _ x Hn Href).
Qed.

Lemma shrunk_frame (W w w' : World async_t) :
  shrunk W w -> fences w' = fences w -> references w' = references w ->
  shrunk W w'.
Proof.
  intros (Hf & He & Hd) Hfs Hrs. split; [|split].
  - intros fid. rewrite Hfs. apply Hf.
  - intros x r. rewrite Hrs. apply He.
  - intros x r Hx. rewrite Hrs. intros Hnone.
    destruct (Hd x r Hx Hnone) as [Hheld Hunref]. split; [done|].
    unfold referenced. now rewrite Hfs, Hrs.
Qed.

Lemma shrunk_size (W w : World async_t) :
  shrunk W w -> (size (references w) <= size (references W))%nat.
Proof.
  intros (_ & He & _). rewrite <- !size_dom. apply subseteq_size.
  intros x Hx. apply elem_of_dom in Hx as [r Hr]. apply elem_of_dom.
  rewrite (He x r Hr). eauto.
Qed.

Lemma shrunk_parented (W w : World async_t) :
  shrunk W w -> parented W -> parented w.
Proof.
  intros (Hf & He & _) Hp x r Hx.
  destruct (Hp x r (He x r Hx)) as [f Hfx].
  pose proof (Hf (fence_ r)) as Hk. rewrite Hfx in Hk.
  destruct (fences w !! fence_ r); [eauto|discriminate Hk].
Qed.

Lemma shrunk_housed (W w : World async_t) :
  shrunk W w -> housed W -> housed w.
Proof.
  intros Hs Hh fid f y Hfid Hy.
  destruct (shrunk_narrowed W w Hs) as [Hnf _].
  destruct (Hnf fid f Hfid) as (f0 & Hf0 & Hsub).
  destruct (Hh fid f0 y Hf0 (Hsub y Hy)) as [ry Hry].
  destruct (references w !! y) as [ry'|] eqn:Hy'; [eauto|].
  destruct Hs as (_ & _ & Hd). destruct (Hd y ry Hry Hy') as [_ Hunref].
  exfalso. apply Hunref. left. now exists fid, f.
Qed.

Lemma sound_shrunk fuel (W w : World async_t) :
  shrunk W w -> sound fuel W -> sound fuel w.
Proof.
  intros Hs (Hc & Hh & Hp & Hn). split; [|split; [|split]].
  - now apply (shrunk_closed W w).
  - now apply (shrunk_housed W w).
  - now apply (shrunk_parented W w).
  - pose proof (shrunk_size W w Hs). lia.
Qed.

(** The fences are put in the place of others that are there as well, with
    no more in their slots. *)
Lemma sound_frame fuel (w w' : World async_t) :
  (forall fid, is_Some (fences w !! fid) -> is_Some (fences w' !! fid)) ->
  (forall fid f',
     fences w' !! fid = Some f' ->
     exists f, fences w !! fid = Some f /\
               forall y, y ∈ slots f' -> y ∈ slots f) ->
  references w' = references w ->
  sound fuel w -> sound fuel w'.
Proof.
  intros Hfs Hslots Hrs (Hc & Hh & Hp & Hn). split; [|split; [|split]].
  - intros x r y. rewrite Hrs. apply Hc.
  - intros fid f' y Hfid Hy. rewrite Hrs.
    destruct (Hslots fid f' Hfid) as (f & Hf & Hsub).
    apply (Hh fid f y Hf). auto.
  - intros x r. rewrite Hrs. intros Hx. apply Hfs. now apply (Hp x r).
  - now rewrite Hrs.
Qed.

Lemma sound_same fuel (w w' : World async_t) :
  fences w' = fences w -> references w' = references w ->
  sound fuel w -> sound fuel w'.
Proof.
  intros Hfs Hrs. apply sound_frame; [| |done].
  - intros fid. now rewrite Hfs.
  - intros fid f'. rewrite Hfs. intros Hf'. exists f'. done.
Qed.

Lemma sound_alter_fence fuel (w : World async_t) g k :
  (forall f y, y ∈ slots (g f) -> y ∈ slots f) ->
  sound fuel w -> sound fuel (with_fences (alter g k (fences w)) w).
Proof.
  intros Hsub. apply sound_frame; [| |done].
  - intros fid. simpl. now rewrite lookup_alter_is_Some.
  - intros fid f' Hf'. simpl in Hf'.
    destruct (decide (k = fid)) as [<-|Hne].
    + rewrite lookup_alter_eq in Hf'.
      destruct (fences w !! k) as [f|]; [|done].
      inversion Hf'; subst f'. exists f. split; [done|]. apply Hsub.
    + rewrite lookup_alter_ne in Hf' by done. exists f'. done.
Qed.

Lemma sound_alter_ref fuel (w : World async_t) h ref :
  (forall r, fence_ (h r) = fence_ r) ->
  (forall r y, y ∈ chain (h r) -> y ∈ chain r) ->
  sound fuel w -> sound fuel (with_references (alter h ref (references w)) w).
Proof.
  intros Hfence Hsub (Hc & Hh & Hp & Hn).
  split; [|split; [|split]];
    [unfold closed|unfold housed|unfold parented|]; simpl.
  - intros x r y Hx Hy. rewrite lookup_alter_is_Some.
    destruct (decide (ref = x)) as [<-|Hne].
    + rewrite lookup_alter_eq in Hx.
      destruct (references w !! ref) as [r0|] eqn:Hr0; [|done].
      inversion Hx; subst r. apply (Hc ref r0 y Hr0). now apply Hsub.
    + rewrite lookup_alter_ne in Hx by done. now apply (Hc x r y).
  - intros fid f y Hfid Hy. rewrite lookup_alter_is_Some.
    now apply (Hh fid f y).
  - intros x r Hx. destruct (decide (ref = x)) as [<-|Hne].
    + rewrite lookup_alter_eq in Hx.
      destruct (references w !! ref) as [r0|] eqn:Hr0; [|done].
      inversion Hx; subst r. rewrite Hfence. now apply (Hp ref r0).
    + rewrite lookup_alter_ne in Hx by done. now apply (Hp x r).
  - rewrite <- size_dom, dom_alter, size_dom. done.
Qed.

(** ** A failed allocation, in general *)

Lemma CreateRef_fails_total fuel this (t : run async_t) f :
  fences (world t) !! this = Some f ->
  sound fuel (world t) ->
  let t0 := {| world := with_fences (<[this := set_cur_ref None f]>
                                       (fences (world t))) (world t);
               calls := calls t |} in
  exists t' ds f',
    Fence.CreateRef async_t OnRefForFenceDead fuel this None t
      = Some (false, t') /\
    calls t' = calls t ++ ds /\
    forallb death_notice ds = true /\
    shrunk (world t0) (world t') /\
    sound fuel (world t') /\
    (fences (world t') !! this = Some f' /\
     cur_ref_ f' = None /\
     armed_refs_ f' = armed_refs_ f /\
     event_ f' = event_ f /\
     ready_wait_ f' = ready_wait_ f) /\
    (forall a,
       cur_ref_ f = Some a ->
       (alive (world t0) a -> t' = t0) /\
       (¬ alive (world t0) a ->
        references (world t') !! a = None /\
        exists ra, references (world t) !! a = Some ra /\
                   head ds = Some (cb_OnRefForFenceDead (fence_ ra)))) /\
    (cur_ref_ f = None -> t' = t0).
Proof.
  intros Hf Hsound t0.
  assert (sound fuel (world t0)) as Hsound0.
  { revert Hsound. apply sound_frame; [| |done].
    - intros fid. simpl. rewrite lookup_insert_is_Some'. auto.
    - intros fid f1 Hf1. simpl in Hf1.
      destruct (decide (this = fid)) as [<-|Hne].
      + rewrite lookup_insert_eq in Hf1. inversion Hf1; subst f1.
        exists f. split; [done|]. intros y. unfold slots. simpl.
        intros Hy. apply elem_of_app. now right.
      + rewrite lookup_insert_ne in Hf1 by done. exists f1. done. }
  assert (exists t' ds,
            Fence.release_opt async_t OnRefForFenceDead fuel (cur_ref_ f) t0
              = Some (tt, t') /\
            shrunk (world t0) (world t') /\
            calls t' = calls t ++ ds /\
            forallb death_notice ds = true /\
            (forall a,
               cur_ref_ f = Some a ->
               (alive (world t0) a -> t' = t0) /\
               (¬ alive (world t0) a ->
                references (world t') !! a = None /\
                exists ra, references (world t) !! a = Some ra /\
                           head ds = Some (cb_OnRefForFenceDead (fence_ ra)))) /\
            (cur_ref_ f = None -> t' = t0))
    as (t' & ds & Hrun & Hshr & Hcalls & Hdn & Hcur & Hnone).
  { destruct (cur_ref_ f) as [a|] eqn:Hcur.
    - destruct (release_returns fuel a t0)
        as (t' & ds & Hrun & Hshr & Hcalls & Hdn & Hal & Hdead).
      + exact (proj1 Hsound0).
      + destruct Hsound as (_ & Hh & _).
        apply (Hh this f a Hf). unfold slots. rewrite Hcur.
        apply elem_of_app. left. now left.
      + exact (proj2 (proj2 (proj2 Hsound0))).
      + exists t', ds. split; [exact Hrun|]. split; [done|]. split; [done|].
        split; [done|]. split; [|done].
        intros a' Ha'. inversion Ha'; subst a'. split.
        * intros Ha. now destruct (Hal Ha).
        * exact Hdead.
    - exists t0, []. split; [reflexivity|]. split; [apply shrunk_refl|].
      simpl. rewrite app_nil_r. split; [done|]. split; [done|].
      split; [done|]. done. }
  assert (exists f', fences (world t') !! this = Some f' /\
                     uncounted f' = uncounted (set_cur_ref None f))
    as (f' & Hf' & Hsame).
  { destruct Hshr as (Hfs & _). specialize (Hfs this). simpl in Hfs.
    rewrite lookup_insert_eq in Hfs.
    destruct (fences (world t') !! this) as [f'|]; [|discriminate Hfs].
    exists f'. split; [done|]. exact (Some_inj _ _ Hfs). }
  exists t', ds, f'.
  split.
  { rewrite (CreateRef_fails async_t OnRefForFenceDead fuel this t f Hf).
    fold t0. now rewrite (bind_fence_run async_t _ _ _ _ _ Hrun). }
  split; [done|]. split; [done|]. split; [done|].
  split; [now apply (sound_shrunk fuel (world t0))|].
  split; [|done].
  split; [done|].
  split; [exact (f_equal cur_ref_ Hsame)|].
  split; [exact (f_equal armed_refs_ Hsame)|].
  split; [exact (f_equal event_ Hsame)|].
  exact (f_equal ready_wait_ Hsame).
Qed.

End Cascade.

(** ** A firing in a sound store *)

Section Firing.

Variable ZX_EVENT_SIGNALED : Z.
Variable async_t : Type.
Variable async_begin_wait : async_t -> fence_id -> WaitBase -> zx_status_t * async_t.
Variable OnFenceFired : ref_id -> World async_t -> World async_t.
Variable OnRefForFenceDead : fence_id -> World async_t -> World async_t.
Hypothesis Hquiet : quiet OnRefForFenceDead.

Abbreviation release := (@release async_t OnRefForFenceDead).
Abbreviation FenceReference_Signal :=
  (@FenceReference_Signal ZX_EVENT_SIGNALED async_t).
Abbreviation FenceReference_OnReady :=
  (@FenceReference_OnReady ZX_EVENT_SIGNALED async_t OnRefForFenceDead).
Abbreviation OnReady :=
  (@OnReady ZX_EVENT_SIGNALED async_t async_begin_wait OnFenceFired
     OnRefForFenceDead).
Abbreviation raise_signalled := (Fence.raise_signalled ZX_EVENT_SIGNALED).
Abbreviation raise_all := (Fence.raise_all ZX_EVENT_SIGNALED).

Lemma shrunk_left (W W' w : World async_t) :
  fences W' = fences W -> references W' = references W ->
  shrunk W w -> shrunk W' w.
Proof.
  intros Hfs Hrs (Hf & He & Hd). split; [|split].
  - intros fid. rewrite Hfs. apply Hf.
  - intros x r. rewrite Hrs. apply He.
  - intros x r. rewrite Hrs. apply Hd.
Qed.

(** One chain slot of a reference that its caller holds: the target is
    signalled, the slot is nulled, the handle is released. *)
Lemma chain_step fuel ref a null (W : World async_t) (t : run async_t) r ra :
  (forall r, fence_ (null r) = fence_ r) ->
  (forall r, held (null r) = held r) ->
  (forall r y, y ∈ chain (null r) -> y ∈ chain r) ->
  shrunk W (world t) ->
  sound fuel (world t) ->
  references (world t) !! ref = Some r ->
  (0 < held r)%nat ->
  references (world t) !! a = Some ra ->
  exists t' d,
    (FenceReference_Signal a ≫= fun _ =>
     get_ref async_t ref ≫= fun r0 =>
     put_ref async_t ref (null r0) ≫= fun _ => release fuel a) t
      = Some (tt, t') /\
    calls t' = calls t ++ [event_signal (fence_ ra) 0 ZX_EVENT_SIGNALED] ++ d /\
    forallb death_notice d = true /\
    shrunk (with_references (alter null ref (references W))
              (with_fences (alter raise_signalled (fence_ ra) (fences W)) W))
           (world t') /\
    sound fuel (world t') /\
    references (world t') !! ref = Some (null r).
Proof.
  intros Hfence Hheld Hsub Hshr Hsound Hr Hpos Ha.
  destruct (proj1 (proj2 (proj2 Hsound)) a ra Ha) as [fa Hfa].
  set (w1 := with_fences (alter raise_signalled (fence_ ra) (fences (world t)))
               (world t)).
  set (t1 := {| world := w1;
                calls := calls t ++
                         [event_signal (fence_ ra) 0 ZX_EVENT_SIGNALED] |}).
  assert (FenceReference_Signal a t = Some (tt, t1)) as Hsig
    by exact (FenceReference_Signal_run ZX_EVENT_SIGNALED async_t a t ra fa
                Ha Hfa).
  set (w2 := with_references (alter null ref (references w1)) w1).
  set (t2 := {| world := w2; calls := calls t1 |}).
  assert (sound fuel w2) as Hsound2.
  { apply sound_alter_ref; [done|done|]. now apply sound_alter_fence. }
  assert (shrunk (with_references (alter null ref (references W))
                    (with_fences (alter raise_signalled (fence_ ra) (fences W))
                       W)) w2) as Hshr2.
  { apply (shrunk_alter_ref async_t
             (with_fences (alter raise_signalled (fence_ ra) (fences W)) W)
             w1 ref r null).
    - apply shrunk_alter_fence; [done| |].
      + intros f. reflexivity.
      + intros f y Hy. exact Hy.
    - exact Hr.
    - apply Hsub. }
  destruct (release_returns async_t OnRefForFenceDead Hquiet fuel a t2)
    as (t' & d & Hrun & Hshr' & Hcalls & Hd & _).
  { exact (proj1 Hsound2). }
  { simpl. rewrite lookup_alter_is_Some. eauto. }
  { exact (proj2 (proj2 (proj2 Hsound2))). }
  exists t', d. split; [|split; [|split; [|split; [|split]]]].
  - erewrite bind_fence_run; [|exact Hsig].
    erewrite bind_fence_run; [|unfold get_ref; run_all; now rewrite Hr].
    erewrite bind_fence_run; cycle 1.
    { unfold put_ref. run_all.
      rewrite (insert_as_alter null _ ref r Hr). reflexivity. }
    exact Hrun.
  - rewrite Hcalls. simpl. now rewrite <- app_assoc.
  - done.
  - exact (shrunk_trans _ _ _ _ Hshr2 Hshr').
  - now apply (sound_shrunk async_t fuel w2).
  - apply (shrunk_keeps async_t w2 (world t') ref (null r) Hshr').
    + simpl. now rewrite lookup_alter_eq, Hr.
    + left. rewrite Hheld. done.
Qed.

Lemma drop_first_props :
  (forall r, fence_ (drop_first r) = fence_ r) /\
  (forall r, held (drop_first r) = held r) /\
  (forall r y, y ∈ chain (drop_first r) -> y ∈ chain r).
Proof.
  split; [done|]. split; [done|]. intros r y. unfold chain. simpl.
  intros Hy. apply elem_of_app. now right.
Qed.

Lemma drop_second_props :
  (forall r, fence_ (drop_second r) = fence_ r) /\
  (forall r, held (drop_second r) = held r) /\
  (forall r y, y ∈ chain (drop_second r) -> y ∈ chain r).
Proof.
  split; [done|]. split; [done|]. intros r y. unfold chain. simpl.
  rewrite app_nil_r. intros Hy. apply elem_of_app. now left.
Qed.

(** [FenceReference::OnReady] of a reference that its caller holds, in a
    sound store: it returns; its calls are the signal of the first target
    and the death notices that the release of the first handle brings,
    then the same for the second; and the store is the one with the events
    raised and the chain slots null, less the references destroyed. *)
Lemma FenceReference_OnReady_total fuel ref (W : World async_t)
    (t : run async_t) r :
  shrunk W (world t) ->
  sound fuel (world t) ->
  references (world t) !! ref = Some r ->
  (0 < held r)%nat ->
  let sig o :=
    map (fun fid => event_signal fid 0 ZX_EVENT_SIGNALED)
        (omap (fun a => fence_ <$> references (world t) !! a)
              (option_list o)) in
  exists t' d1 d2,
    FenceReference_OnReady fuel ref t = Some (tt, t') /\
    calls t' = calls t ++ sig (release_fence1_ r) ++ d1 ++
               sig (release_fence2_ r) ++ d2 /\
    forallb death_notice d1 = true /\
    forallb death_notice d2 = true /\
    shrunk (with_references (<[ref := drop_chain r]> (references W))
              (with_fences (raise_all (chain_fences (world t) r) (fences W))
                 W))
           (world t') /\
    sound fuel (world t') /\
    references (world t') !! ref = Some (drop_chain r).
Proof.
  intros Hshr Hsound Hr Hpos sig.
  destruct drop_first_props as (Hf1 & Hh1 & Hs1).
  destruct drop_second_props as (Hf2 & Hh2 & Hs2).
  assert (references W !! ref = Some r) as HrW.
  { destruct Hshr as (_ & He & _). now apply He. }
  set (l1 := omap (fun a => fence_ <$> references (world t) !! a)
               (option_list (release_fence1_ r))).
  set (l2 := omap (fun a => fence_ <$> references (world t) !! a)
               (option_list (release_fence2_ r))).
  assert (chain_fences (world t) r = l1 ++ l2) as Hl.
  { unfold chain_fences, chain. now rewrite omap_app. }
  (* the first slot *)
  set (W1 := with_references (<[ref := drop_first r]> (references W))
               (with_fences (raise_all l1 (fences W)) W)).
  assert (exists t1 d1,
            match release_fence1_ r with
            | Some r1 =>
                FenceReference_Signal r1 ≫= fun _ =>
                get_ref async_t ref ≫= fun r0 =>
                put_ref async_t ref (drop_first r0) ≫= fun _ =>
                release fuel r1
            | None => mret tt
            end t = Some (tt, t1) /\
            calls t1 = calls t ++ sig (release_fence1_ r) ++ d1 /\
            forallb death_notice d1 = true /\
            shrunk W1 (world t1) /\
            sound fuel (world t1) /\
            references (world t1) !! ref = Some (drop_first r))
    as (t1 & d1 & Hrun1 & Hcalls1 & Hd1 & Hshr1 & Hsound1 & Hr1).
  { destruct (release_fence1_ r) as [a|] eqn:Hslot1.
    - destruct (proj1 Hsound ref r a Hr) as [ra Ha].
      { unfold chain. rewrite Hslot1. now left. }
      destruct (chain_step fuel ref a drop_first W t r ra Hf1 Hh1 Hs1
                  Hshr Hsound Hr Hpos Ha)
        as (t1 & d1 & Hrun & Hcalls & Hd & Hshr1 & Hsound1 & Hr1).
      exists t1, d1. split; [exact Hrun|].
      assert (l1 = [fence_ ra]) as Hl1.
      { unfold l1. simpl. now rewrite Ha. }
      split; [|split; [done|split; [|done]]].
      + rewrite Hcalls. unfold sig. simpl. now rewrite Ha.
      + revert Hshr1. apply shrunk_left; unfold W1; simpl.
        * now rewrite Hl1.
        * exact (insert_as_alter drop_first _ ref r HrW).
    - exists t, []. split; [done|]. split; [now rewrite !app_nil_r|].
      split; [done|].
      assert (drop_first r = r) as Hsame.
      { destruct r as [fid s1 s2 h]. simpl in Hslot1. now subst s1. }
      split; [|split; [done|now rewrite Hsame]].
      revert Hshr. apply shrunk_left; unfold W1; simpl; [done|].
      rewrite Hsame. now apply insert_id. }
  (* the second slot *)
  assert (exists t' d2,
            match release_fence2_ (drop_first r) with
            | Some r2 =>
                FenceReference_Signal r2 ≫= fun _ =>
                get_ref async_t ref ≫= fun r0 =>
                put_ref async_t ref (drop_second r0) ≫= fun _ =>
                release fuel r2
            | None => mret tt
            end t1 = Some (tt, t') /\
            calls t' = calls t1 ++ sig (release_fence2_ r) ++ d2 /\
            forallb death_notice d2 = true /\
            shrunk (with_references (<[ref := drop_chain r]> (references W))
                      (with_fences (raise_all (l1 ++ l2) (fences W)) W))
                   (world t') /\
            sound fuel (world t') /\
            references (world t') !! ref = Some (drop_chain r))
    as (t' & d2 & Hrun2 & Hcalls2 & Hd2 & Hshr2 & Hsound2 & Hr2).
  { simpl. destruct (release_fence2_ r) as [b|] eqn:Hslot2.
    - destruct (proj1 Hsound ref r b Hr) as [rb Hb].
      { unfold chain. rewrite Hslot2. apply elem_of_app. right. now left. }
      destruct (proj1 Hsound1 ref (drop_first r) b Hr1) as [rb' Hb'].
      { unfold chain. simpl. rewrite Hslot2. now left. }
      assert (fence_ rb' = fence_ rb) as Hsame.
      { destruct Hshr1 as (_ & He1 & _). pose proof (He1 b rb' Hb') as HbW.
        unfold W1 in HbW. simpl in HbW.
        destruct (decide (ref = b)) as [<-|Hne].
        - rewrite lookup_insert_eq in HbW. inversion HbW; subst rb'.
          rewrite Hr in Hb. now inversion Hb.
        - rewrite lookup_insert_ne in HbW by done.
          destruct Hshr as (_ & He & _). pose proof (He b rb Hb). congruence. }
      assert (0 < held (drop_first r))%nat as Hpos1 by now rewrite Hh1.
      destruct (chain_step fuel ref b drop_second W1 t1 (drop_first r) rb'
                  Hf2 Hh2 Hs2 Hshr1 Hsound1 Hr1 Hpos1 Hb')
        as (t' & d2 & Hrun & Hcalls & Hd & Hshr' & Hsound' & Hr').
      exists t', d2. split; [exact Hrun|].
      assert (l2 = [fence_ rb]) as Hl2.
      { unfold l2. simpl. now rewrite Hb. }
      split; [|split; [done|split; [|done]]].
      + rewrite Hcalls, Hsame. unfold sig. simpl. now rewrite Hb.
      + revert Hshr'. apply shrunk_left; unfold W1; simpl.
        * rewrite Hl2, Hsame. unfold raise_all, Fence.raise_all.
          now rewrite foldl_app.
        * now rewrite alter_insert_eq.
    - exists t1, []. split; [done|]. split; [now rewrite !app_nil_r|].
      split; [done|].
      assert (drop_chain r = drop_first r) as Hsame.
      { unfold drop_chain, drop_first. now rewrite Hslot2. }
      assert (l2 = []) as Hl2 by reflexivity.
      split; [|split; [done|now rewrite Hsame]].
      revert Hshr1. apply shrunk_left; unfold W1; simpl.
      + now rewrite Hl2, app_nil_r.
      + now rewrite Hsame. }
  exists t', d1, d2. split; [|split; [|split; [done|split; [done|]]]].
  - unfold Fence.FenceReference_OnReady.
    erewrite bind_fence_run; [|unfold get_ref; run_all; now rewrite Hr].
    erewrite bind_fence_run; [|exact Hrun1].
    erewrite bind_fence_run; [|unfold get_ref; run_all; now rewrite Hr1].
    exact Hrun2.
  - rewrite Hcalls2, Hcalls1. now rewrite <- !app_assoc.
  - split; [|done]. now rewrite Hl.
Qed.

Lemma raise_all_field {A} (g : Fence -> A) l fs fid :
  (forall f, g (raise_signalled f) = g f) ->
  g <$> raise_all l fs !! fid = g <$> fs !! fid.
Proof.
  intros Hg. revert fs. induction l as [|x l IH]; intros fs; simpl; [done|].
  unfold raise_all, Fence.raise_all in *. simpl. rewrite IH.
  destruct (decide (x = fid)) as [->|Hne].
  - rewrite lookup_alter_eq. destruct (fs !! fid); [|done]. simpl.
    now rewrite Hg.
  - now rewrite lookup_alter_ne.
Qed.

(** [Fence::OnReady] in a sound store, with a sink that leaves fences and
    references alone when it is told of the firing and a sink that is
    quiet when it is told of a death: it returns, and its calls are, in
    this order, the SIGNALED bit cleared, the first chain target
    signalled, the second chain target signalled, the sink told of the
    firing and the wait begun again when references are still armed,
    with the death notices that the release of the first chain handle,
    of the second chain handle and, at the end, of the popped handle
    bring, each after its release.  The store is the one of the firing,
    less the references destroyed. *)
Lemma OnReady_total fuel this (t : run async_t) f ref rest r observed :
  (forall ref w, fences (OnFenceFired ref w) = fences w /\
                 references (OnFenceFired ref w) = references w) ->
  fences (world t) !! this = Some f ->
  armed_refs_ f = ref :: rest ->
  references (world t) !! ref = Some r ->
  sound fuel (world t) ->
  Z.land observed ZX_EVENT_SIGNALED ≠ 0 ->
  let sig o :=
    map (fun fid => event_signal fid 0 ZX_EVENT_SIGNALED)
        (omap (fun a => fence_ <$> references (world t) !! a)
              (option_list o)) in
  exists t' d1 d2 d3,
    OnReady fuel this ZX_OK observed t = Some (tt, t') /\
    calls t' =
      calls t ++ [event_signal this ZX_EVENT_SIGNALED 0] ++
      sig (release_fence1_ r) ++ d1 ++ sig (release_fence2_ r) ++ d2 ++
      [cb_OnFenceFired ref] ++
      (if bool_decide (rest ≠ [])
       then [ready_wait_Begin this (ready_wait_ f)] else []) ++ d3 /\
    forallb death_notice d1 = true /\
    forallb death_notice d2 = true /\
    forallb death_notice d3 = true /\
    shrunk {| fences :=
                raise_all (chain_fences (world t) r)
                  (alter pop_armed this
                     (alter (Fence.clear_signalled ZX_EVENT_SIGNALED) this
                        (fences (world t))));
              references := alter drop_chain ref (references (world t));
              async_ := async_ (world t) |}
           (world t') /\
    sound fuel (world t') /\
    ((references (world t') !! ref = Some (drop_chain r) /\ d3 = []) \/
     (references (world t') !! ref = None /\
      head d3 = Some (cb_OnRefForFenceDead (fence_ r)))).
Proof.
  intros Hsink1 Hf Harmed Hr Hsound Hobs sig.
  set (clear := Fence.clear_signalled ZX_EVENT_SIGNALED).
  set (F2 := alter pop_armed this (alter clear this (fences (world t)))).
  set (w2 := {| fences := F2;
                references := <[ref := taken r]> (references (world t));
                async_ := async_ (world t) |}).
  set (t2 := {| world := w2;
                calls := calls t ++ [event_signal this ZX_EVENT_SIGNALED 0] |}).
  assert (<[this := {| event_ := Z.lor (Z.ldiff (event_ f) ZX_EVENT_SIGNALED) 0;
                       ref_count_ := ref_count_ f; cur_ref_ := cur_ref_ f;
                       armed_refs_ := rest; ready_wait_ := ready_wait_ f |}]>
            (alter (fun f => set_event
                               (Z.lor (Z.ldiff (event_ f) ZX_EVENT_SIGNALED) 0) f)
               this (fences (world t)))
          = F2) as Hfences.
  { unfold F2. rewrite <- (insert_as_alter pop_armed _ this (clear f)).
    - unfold pop_armed, clear, Fence.clear_signalled. simpl. rewrite Harmed.
      simpl. rewrite Z.lor_0_r. f_equal. apply alter_ext. intros f0 _.
      now rewrite Z.lor_0_r.
    - now rewrite lookup_alter_eq, Hf. }
  assert (sound fuel w2) as Hsound2.
  { assert (w2 = with_references
                   (alter taken ref
                      (references
                         (with_fences F2 (world t))))
                   (with_fences F2 (world t))) as ->.
    { unfold w2, with_references, with_fences. simpl. f_equal.
      exact (insert_as_alter taken _ ref r Hr). }
    apply sound_alter_ref; [done|done|].
    revert Hsound. apply sound_frame; [| |done].
    - intros fid. simpl. unfold F2. now rewrite !lookup_alter_is_Some.
    - intros fid f' Hf'. simpl in Hf'. unfold F2 in Hf'.
      destruct (decide (this = fid)) as [<-|Hne].
      + rewrite !lookup_alter_eq, Hf in Hf'. inversion Hf'; subst f'.
        exists f. split; [done|]. intros y. unfold slots. simpl.
        rewrite Harmed. intros Hy.
        apply elem_of_app in Hy as [Hy|Hy]; apply elem_of_app;
          [now left|right; now right].
      + rewrite !lookup_alter_ne in Hf' by done. exists f'. done. }
  assert (references w2 !! ref = Some (taken r)) as Hr2.
  { simpl. now rewrite lookup_insert_eq. }
  destruct (FenceReference_OnReady_total fuel ref w2 t2 (taken r)
              (shrunk_refl async_t w2) Hsound2 Hr2)
    as (t3 & d1 & d2 & Hrun3 & Hcalls3 & Hd1 & Hd2 & Hshr3 & Hsound3 & Hr3).
  { simpl. lia. }
  assert (chain_fences (world t2) (taken r) = chain_fences (world t) r)
    as Hchain.
  { exact (chain_fences_taken async_t (world t) F2 ref r (async_ (world t))
             Hr). }
  assert (forall o,
            map (fun fid => event_signal fid 0 ZX_EVENT_SIGNALED)
                (omap (fun a => fence_ <$> references (world t2) !! a)
                      (option_list o)) = sig o) as Hsig.
  { intros o. unfold sig. f_equal. apply omap_fence_ext. intros x. simpl.
    destruct (decide (ref = x)) as [<-|Hne].
    - now rewrite lookup_insert_eq, Hr.
    - now rewrite lookup_insert_ne. }
  rewrite Hchain in Hshr3. simpl in Hcalls3. rewrite !Hsig in Hcalls3.
  set (W3 := with_references
               (<[ref := drop_chain (taken r)]> (references w2))
               (with_fences (raise_all (chain_fences (world t) r) (fences w2))
                  w2)) in *.
  (* the sink is told of the firing *)
  destruct (Hsink1 ref (world t3)) as [Hs1f Hs1r].
  set (w4 := OnFenceFired ref (world t3)) in *.
  assert (shrunk W3 w4) as Hshr4 by now apply (shrunk_frame _ W3 (world t3)).
  assert (sound fuel w4) as Hsound4
    by now apply (sound_same async_t fuel (world t3)).
  assert (exists f4, fences w4 !! this = Some f4 /\
                     armed_refs_ f4 = rest /\
                     ready_wait_ f4 = ready_wait_ f)
    as (f4 & Hf4 & Harmed4 & Hwait4).
  { destruct Hshr4 as (Hsame & _ & _).
    pose proof (same_fences_field armed_refs_ _ _
                  (fun f => eq_refl) (Hsame this)) as Ha.
    pose proof (same_fences_field ready_wait_ _ _
                  (fun f => eq_refl) (Hsame this)) as Hw.
    unfold W3 in Ha, Hw. simpl in Ha, Hw.
    rewrite (raise_all_field armed_refs_) in Ha by done.
    rewrite (raise_all_field ready_wait_) in Hw by done.
    unfold F2 in Ha, Hw. rewrite !lookup_alter_eq, Hf in Ha, Hw.
    simpl in Ha, Hw. rewrite Harmed in Ha. simpl in Ha.
    destruct (fences w4 !! this) as [f4|]; [|discriminate Ha].
    exists f4. split; [done|]. simpl in Ha, Hw. split; congruence. }
  set (cs4 := calls t3 ++ [cb_OnFenceFired ref]).
  set (t4 := {| world := w4; calls := cs4 |}).
  (* the wait is begun again *)
  set (w5 := if bool_decide (rest ≠ [])
             then {| fences := fences w4; references := references w4;
                     async_ := (async_begin_wait (async_ w4) this
                                  (ready_wait_ f)).2 |}
             else w4).
  set (t5 := {| world := w5;
                calls := cs4 ++
                         (if bool_decide (rest ≠ [])
                          then [ready_wait_Begin this (ready_wait_ f)]
                          else []) |}).
  assert (fences w5 = fences w4 /\ references w5 = references w4)
    as [Hf5 Hr5].
  { unfold w5. now destruct (bool_decide (rest ≠ [])). }
  assert (shrunk W3 w5) as Hshr5 by now apply (shrunk_frame _ W3 w4).
  assert (sound fuel w5) as Hsound5
    by now apply (sound_same async_t fuel w4).
  assert (references w5 !! ref = Some (drop_chain (taken r))) as Href5.
  { now rewrite Hr5, Hs1r. }
  (* the popped handle goes *)
  set (hand := fun r => set_held (pred (held r)) r).
  set (w6 := unheld ref w5).
  set (t6 := {| world := w6; calls := calls t5 |}).
  assert (shrunk (with_references (alter hand ref (references W3)) W3) w6)
    as Hshr6.
  { now apply (shrunk_alter_ref async_t W3 w5 ref (drop_chain (taken r)) hand). }
  assert (sound fuel w6) as Hsound6.
  { unfold w6, unheld. now apply sound_alter_ref. }
  assert (references w6 !! ref = Some (drop_chain r)) as Href6.
  { unfold w6, unheld. simpl. now rewrite lookup_alter_eq, Href5. }
  destruct (release_returns async_t OnRefForFenceDead Hquiet fuel ref t6)
    as (t' & d3 & Hrun' & Hshr' & Hcalls' & Hd3 & Halive & Hdead).
  { exact (proj1 Hsound6). }
  { exists (drop_chain r). exact Href6. }
  { exact (proj2 (proj2 (proj2 Hsound6))). }
  exists t', d1, d2, d3.
  split; [|split; [|split; [done|split; [done|split; [done|split;
    [|split]]]]]].
  - unfold Fence.OnReady.
    erewrite bind_fence_run; cycle 1.
    { rewrite bool_decide_eq_true_2 by done. run_all. reflexivity. }
    erewrite bind_fence_run;
      [|now apply (event_signal_run async_t _ _ _ _ f)].
    erewrite bind_fence_run; cycle 1.
    { unfold get_fence. run_all. rewrite lookup_alter_eq, Hf. simpl.
      reflexivity. }
    simpl. rewrite Harmed.
    erewrite bind_fence_run; [|run_all; reflexivity].
    erewrite bind_fence_run; cycle 1.
    { unfold acquire. run_all. rewrite Hr. simpl. reflexivity. }
    fold (taken r). rewrite Hfences. fold w2. fold t2.
    erewrite bind_fence_run; [|exact Hrun3].
    erewrite bind_fence_run; [|run_all; reflexivity].
    erewrite bind_fence_run; [|run_all; reflexivity].
    erewrite bind_fence_run; [|run_all; reflexivity].
    simpl. fold w4. fold cs4.
    erewrite bind_fence_run; cycle 1.
    { unfold get_fence. run_all. rewrite Hf4. simpl. reflexivity. }
    rewrite Harmed4.
    erewrite bind_fence_run; cycle 1.
    { instantiate (1 := t5). instantiate (1 := tt). unfold t5, w5.
      destruct (bool_decide (rest ≠ [])).
      - unfold ready_wait_Begin_. run_all. rewrite Hf4. simpl.
        rewrite Hwait4. reflexivity.
      - run_all. rewrite app_nil_r. now destruct w4. }
    unfold Fence.drop.
    erewrite bind_fence_run;
      [|now apply (hand_over_run async_t ref t5 (drop_chain (taken r)))].
    exact Hrun'.
  - rewrite Hcalls'. simpl. unfold cs4. rewrite Hcalls3. simpl.
    now rewrite <- !app_assoc.
  - apply (shrunk_trans async_t _ w6); [|done].
    revert Hshr6. apply shrunk_left; simpl; [done|].
    unfold hand. rewrite alter_insert_eq, insert_insert_eq.
    exact (eq_sym (insert_as_alter drop_chain _ ref r Hr)).
  - now apply (sound_shrunk async_t fuel w6).
  - destruct (decide (alive w6 ref)) as [Hlive|Hlast].
    + left. destruct (Halive Hlive) as [-> ->]. done.
    + right. destruct (Hdead Hlast) as (Hgone & r6 & Hr6 & Hhead).
      split; [done|]. change (references w6 !! ref = Some r6) in Hr6.
      rewrite Href6 in Hr6. inversion Hr6; subst r6. done.
Qed.

End Firing.

(** ** The claims on a failed allocation and on a firing *)

Section Claims.

Variable ZX_EVENT_SIGNALED : Z.
Variable async_t : Type.
Variable async_begin_wait : async_t -> fence_id -> WaitBase -> zx_status_t * async_t.
Variable OnFenceFired : ref_id -> World async_t -> World async_t.
Variable OnRefForFenceDead : fence_id -> World async_t -> World async_t.

Abbreviation CreateRef := (@CreateRef async_t OnRefForFenceDead).
Abbreviation ClearRef := (@ClearRef async_t OnRefForFenceDead).
Abbreviation OnReady :=
  (@OnReady ZX_EVENT_SIGNALED async_t async_begin_wait OnFenceFired
     OnRefForFenceDead).
Abbreviation clear_signalled := (Fence.clear_signalled ZX_EVENT_SIGNALED).
Abbreviation raise_all := (Fence.raise_all ZX_EVENT_SIGNALED).
Abbreviation signalled := (Fence.signalled ZX_EVENT_SIGNALED).
Abbreviation fired := (Fence.fired ZX_EVENT_SIGNALED).
Abbreviation rearmed := (Fence.rearmed async_begin_wait).



End Claims.

(** ** Sound stores, by evaluation *)

Lemma sound_checked {async_t} fuel (w : World async_t) :
  map_Forall (fun _ r => Forall (fun y => is_Some (references w !! y)) (chain r))
             (references w) ->
  map_Forall (fun _ f => Forall (fun y => is_Some (references w !! y)) (slots f))
             (fences w) ->
  map_Forall (fun _ r => is_Some (fences w !! fence_ r)) (references w) ->
  (size (references w) <= fuel)%nat ->
  sound fuel w.
Proof.
  intros Hc Hh Hp Hn. split; [|split; [|split]]; [| | |done].
  - intros x r y Hx Hy. specialize (Hc x r Hx). simpl in Hc.
    rewrite Forall_forall in Hc. now apply Hc.
  - intros fid f y Hf Hy. specialize (Hh fid f Hf). simpl in Hh.
    rewrite Forall_forall in Hh. now apply Hh.
  - intros x r Hx. exact (Hp x r Hx).
Qed.

Lemma quiet_sample_dead : quiet sample_dead.
Proof. intros fid w. split; [reflexivity|]. intros x. reflexivity. Qed.

(** The sink of the specification, which counts and does no more, is one
    of those the general statements are about. *)
Lemma quiet_counting_sink {async_t} : quiet (@counting_sink async_t).
Proof.
  intros fid w. unfold counting_sink, OnRefDead. run_all.
  destruct (fences w !! fid) as [f|] eqn:Hf; simpl.
  - rewrite lookup_insert_eq. simpl. split; [reflexivity|].
    intros x. simpl. destruct (decide (fid = x)) as [<-|Hne].
    + now rewrite lookup_insert_eq, Hf.
    + now rewrite lookup_insert_ne.
  - split; [reflexivity|]. intros x. reflexivity.
Qed.

#[local] Ltac by_evaluation := apply (bool_decide_unpack _); vm_compute; exact I.


Lemma sound_current_run : sound 6 (world current_run).
Proof. apply sound_checked; by_evaluation. Defined.

Lemma sound_lone_run : sound 5 (world lone_run).
Proof. apply sound_checked; by_evaluation. Defined.


Lemma StartReadyWait_arms_witness :
  exists t',
    Fence.StartReadyWait 8 unit sample_begin 7%positive sample_run =
      Some (ZX_ERR (-2), t') /\
    calls t' = [ready_wait_Begin 2%positive
                  {| object := Some 2%positive; trigger := 8 |}] /\
    armed_refs_ <$> fences (world t') !! 2%positive = Some [].
Proof.
  destruct (StartReadyWait_arms 8 unit sample_begin 7%positive sample_run
              (sample_ref 2%positive None None) (sample_fence [] None)
              eq_refl eq_refl)
    as (st & t' & f' & Hrun & Hf' & Hempty & _).
  destruct (Hempty eq_refl) as (Hcalls & _ & Hfail & _).
  destruct Hfail as [Hst Harmed]; [discriminate|].
  exists t'. rewrite Hrun, Hst, Hcalls. repeat split.
  pose proof (f_equal (fmap armed_refs_) Hf') as Hgoal.
  simpl in Hgoal. rewrite Harmed in Hgoal. exact Hgoal.
Defined.

Lemma arming_armed_fence_is_OK_witness :
  exists t',
    Fence.StartReadyWait 8 unit sample_begin 9%positive sample_run =
      Some (ZX_OK, t') /\
    calls t' = [] /\
    armed_refs_ <$> fences (world t') !! 1%positive = Some [5; 6; 9]%positive.
Proof.
  destruct (arming_armed_fence_is_OK 8 unit sample_begin 9%positive sample_run
              (sample_ref 1%positive None None)
              (sample_fence [5; 6]%positive (Some 6%positive))
              eq_refl eq_refl)
    as (t' & Hrun & _ & Hcalls & _ & _ & Hfences); [discriminate|].
  exists t'. rewrite Hrun, Hcalls. repeat split.
  pose proof (f_equal (fun fs => armed_refs_ <$> fs !! 1%positive) Hfences)
    as Hgoal.
  exact Hgoal.
Defined.


Lemma sample_chain_resolvable a :
  a ∈ [7; 8]%positive -> resolvable (world sample_run) a.
Proof.
  intros Ha. apply elem_of_cons in Ha as [->|Ha].
  - eexists _, _. split; reflexivity.
  - apply elem_of_cons in Ha as [->|Ha].
    + eexists _, _. split; reflexivity.
    + now apply elem_of_nil in Ha.
Defined.

Lemma lone_chain_resolvable a :
  a ∈ [7; 8]%positive -> resolvable (world lone_run) a.
Proof.
  intros Ha. apply elem_of_cons in Ha as [->|Ha].
  - eexists _, _. split; reflexivity.
  - apply elem_of_cons in Ha as [->|Ha].
    + eexists _, _. split; reflexivity.
    + now apply elem_of_nil in Ha.
Defined.


Section Lifetimes.

Variable ZX_EVENT_SIGNALED : Z.
Variable async_t : Type.
Variable async_begin_wait : async_t -> fence_id -> WaitBase -> zx_status_t * async_t.
Variable OnFenceFired : ref_id -> World async_t -> World async_t.
Variable OnRefForFenceDead : fence_id -> World async_t -> World async_t.

Abbreviation release := (@release async_t OnRefForFenceDead).
Abbreviation release_opt := (@release_opt async_t OnRefForFenceDead).
Abbreviation CreateRef := (@CreateRef async_t OnRefForFenceDead).
Abbreviation ClearRef := (@ClearRef async_t OnRefForFenceDead).
Abbreviation GetReference := (@GetReference async_t).
Abbreviation OnRefDead := (@OnRefDead async_t).
Abbreviation OnRefDisarmed := (@OnRefDisarmed async_t).
Abbreviation ResetReadyWait := (@ResetReadyWait async_t).
Abbreviation SetImmediateRelease :=
  (@SetImmediateRelease async_t OnRefForFenceDead).
Abbreviation StartReadyWait :=
  (@StartReadyWait ZX_EVENT_SIGNALED async_t async_begin_wait).
Abbreviation FenceReference_OnReady :=
  (@FenceReference_OnReady ZX_EVENT_SIGNALED async_t OnRefForFenceDead).
Abbreviation OnReady :=
  (@OnReady ZX_EVENT_SIGNALED async_t async_begin_wait OnFenceFired
     OnRefForFenceDead).
Abbreviation OnReady_times :=
  (@OnReady_times ZX_EVENT_SIGNALED async_t async_begin_wait OnFenceFired
     OnRefForFenceDead).
Abbreviation fired := (Fence.fired ZX_EVENT_SIGNALED).
Abbreviation rearmed := (Fence.rearmed async_begin_wait).

(** X12.  A successful [CreateRef] returns true, counts one reference
    more and makes the new reference, whose parent is this fence and whose
    release chain is empty, the one [GetReference] returns, of which the
    caller then has the one handle outside of the slot.  When the
    reference that was current before has another handle, or there was
    none, the queue, the event and the dispatcher are not touched and no
    call is made. *)
Theorem CreateRef_then_GetReference fuel this r t f :
  fences (world t) !! this = Some f ->
  (forall a, cur_ref_ f = Some a ->
     alive {| fences := <[this := set_cur_ref (Some r) f]> (fences (world t));
              references :=
                <[r := {| fence_ := this; release_fence1_ := None;
                          release_fence2_ := None; held := 0 |}]>
                  (references (world t));
              async_ := async_ (world t) |} a) ->
  exists t',
    (CreateRef fuel this (Some r) ≫= fun ok =>
     GetReference this ≫= fun cur => mret (ok, cur)) t
      = Some ((true, Some r), t') /\
    fences (world t') =
      <[this := {| event_ := event_ f; ref_count_ := ref_count_ f + 1;
                   cur_ref_ := Some r; armed_refs_ := armed_refs_ f;
                   ready_wait_ := ready_wait_ f |}]> (fences (world t)) /\
    references (world t') =
      <[r := {| fence_ := this; release_fence1_ := None;
                release_fence2_ := None; held := 1 |}]>
        (references (world t)) /\
    async_ (world t') = async_ (world t) /\
    calls t' = calls t.
Proof.
  intros Hf Halive.
  rewrite (bind_fence_run async_t _ _ t true
             {| world :=
                  {| fences := <[this := set_ref_count (ref_count_ f + 1)
                                           (set_cur_ref (Some r) f)]>
                                 (fences (world t));
                     references :=
                       <[r := {| fence_ := this; release_fence1_ := None;
                                 release_fence2_ := None; held := 0 |}]>
                         (references (world t));
                     async_ := async_ (world t) |};
                calls := calls t |}).
  - unfold Fence.GetReference, acquire. run_all. rewrite lookup_insert_eq.
    simpl. rewrite lookup_insert_eq. simpl. rewrite insert_insert_eq.
    eexists. repeat split.
  - rewrite (CreateRef_succeeds async_t OnRefForFenceDead fuel this r t f Hf).
    erewrite bind_fence_run; cycle 1.
    { destruct (cur_ref_ f) as [a|] eqn:Hcur; simpl.
      - apply release_alive. now apply Halive.
      - reflexivity. }
    run_all. rewrite lookup_insert_eq. simpl. now rewrite insert_insert_eq.
Qed.

Lemma GetReference_null this (t : run async_t) f :
  fences (world t) !! this = Some f ->
  cur_ref_ f = None ->
  GetReference this t = Some (None, t).
Proof.
  intros Hf Hnull. unfold Fence.GetReference. run_all. rewrite Hf. simpl.
  now rewrite Hnull.
Qed.

(** X13.  [ClearRef] empties the current-reference slot, so that
    [GetReference] returns null after it.  When the reference that was
    current has another handle, or there was none, it does nothing else:
    the reference stays counted in [ref_count_] and stays in the queue if
    it was armed.  When the slot held the last handle of a reference whose
    chain slots are null, the reference is destroyed and the sink is told,
    and [GetReference] returns null after that if the sink left the slot
    null. *)
Theorem ClearRef_then_GetReference fuel this t f :
  fences (world t) !! this = Some f ->
  let t0 := {| world := with_fences (<[this := set_cur_ref None f]>
                                       (fences (world t))) (world t);
               calls := calls t |} in
  ((forall a, cur_ref_ f = Some a -> alive (world t0) a) ->
   (ClearRef fuel this ≫= fun _ => GetReference this) t = Some (None, t0)) /\
  (forall a ra r1 f1,
     cur_ref_ f = Some a ->
     ¬ alive (world t0) a ->
     references (world t) !! a = Some ra ->
     references (OnRefForFenceDead (fence_ ra) (world t0)) !! a = Some r1 ->
     chain r1 = [] ->
     fences (OnRefForFenceDead (fence_ ra) (world t0)) !! this = Some f1 ->
     cur_ref_ f1 = None ->
     (ClearRef (S fuel) this ≫= fun _ => GetReference this) t =
       Some (None,
             {| world := without a (OnRefForFenceDead (fence_ ra) (world t0));
                calls := calls t ++ [cb_OnRefForFenceDead (fence_ ra)] |})).
Proof.
  intros Hf t0. split.
  - intros Halive.
    rewrite (bind_fence_run async_t _ _ t tt t0).
    + apply (GetReference_null this t0 (set_cur_ref None f)); [|done].
      simpl. now rewrite lookup_insert_eq.
    + rewrite (ClearRef_run async_t OnRefForFenceDead fuel this t f Hf).
      fold t0. destruct (cur_ref_ f) as [a|] eqn:Hcur; simpl.
      * apply release_alive. now apply Halive.
      * reflexivity.
  - intros a ra r1 f1 Hcur Hdead Hra Hr1 Hchain Hf1 Hnull.
    erewrite bind_fence_run; cycle 1.
    { rewrite (ClearRef_run async_t OnRefForFenceDead (S fuel) this t f Hf).
      fold t0. rewrite Hcur.
      apply (release_leaf async_t OnRefForFenceDead fuel a t0 ra r1);
        done. }
    now apply (GetReference_null this _ f1).
Qed.

(** X14.  [ref_count_] counts the live references.  On a fence without a
    current reference whose other references are counted, a reference that
    is created and then replaced by the next [CreateRef], before anybody
    took a handle on it, is destroyed in that call: the sink is told once,
    and when the sink decrements the count as the client does,
    [ref_count_] ends one above where it started, for the one reference
    that lives. *)
Theorem CreateRef_replaces_untaken fuel this r1 r2 t f :
  fences (world t) !! this = Some f ->
  cur_ref_ f = None ->
  0 < ref_count_ f ->
  r1 ≠ r2 ->
  ¬ referenced (world t) r1 ->
  exists t',
    (Fence.CreateRef async_t counting_sink fuel this (Some r1) ≫= fun _ =>
     Fence.CreateRef async_t counting_sink (S fuel) this (Some r2)) t
      = Some (true, t') /\
    fences (world t') =
      <[this := {| event_ := event_ f; ref_count_ := ref_count_ f + 1;
                   cur_ref_ := Some r2; armed_refs_ := armed_refs_ f;
                   ready_wait_ := ready_wait_ f |}]> (fences (world t)) /\
    references (world t') =
      <[r2 := {| fence_ := this; release_fence1_ := None;
                 release_fence2_ := None; held := 0 |}]>
        (delete r1 (references (world t))) /\
    async_ (world t') = async_ (world t) /\
    calls t' = calls t ++ [cb_OnRefForFenceDead this].
Proof.
  intros Hf Hcur _ Hne Hfresh.
  set (fresh := {| fence_ := this; release_fence1_ := None;
                   release_fence2_ := None; held := 0 |}).
  set (f1 := set_ref_count (ref_count_ f + 1) (set_cur_ref (Some r1) f)).
  set (t1 := {| world := {| fences := <[this := f1]> (fences (world t));
                            references := <[r1 := fresh]> (references (world t));
                            async_ := async_ (world t) |};
                calls := calls t |}).
  assert (Fence.CreateRef async_t counting_sink fuel this (Some r1) t
          = Some (true, t1)) as Hfirst.
  { rewrite (CreateRef_succeeds async_t counting_sink fuel this r1 t f Hf).
    rewrite Hcur. run_all. rewrite lookup_insert_eq. simpl.
    now rewrite insert_insert_eq. }
  rewrite (bind_fence_run async_t _ _ _ _ _ Hfirst).
  rewrite (CreateRef_succeeds async_t counting_sink (S fuel) this r2 t1 f1)
    by (simpl; now rewrite lookup_insert_eq).
  simpl.
  set (w2 := {| fences := <[this := set_cur_ref (Some r2) f1]>
                            (<[this := f1]> (fences (world t)));
                references := <[r2 := fresh]>
                                (<[r1 := fresh]> (references (world t)));
                async_ := async_ (world t) |}).
  assert (¬ alive w2 r1) as Hdead.
  { intros [Hheld|[(fid & f' & Hf' & Hin)|(y & ry & Hy & Hin)]]; simpl in *.
    - rewrite lookup_insert_ne, lookup_insert_eq in Hheld by done.
      simpl in Hheld. lia.
    - destruct (decide (this = fid)) as [<-|Hfid].
      + rewrite lookup_insert_eq in Hf'. inversion Hf'; subst f'.
        unfold slots in Hin. simpl in Hin.
        apply elem_of_cons in Hin as [Heq|Hin]; [done|].
        apply Hfresh. left. exists this, f. split; [done|].
        unfold slots. apply elem_of_app. now right.
      + rewrite !lookup_insert_ne in Hf' by done.
        apply Hfresh. left. now exists fid, f'.
    - destruct (decide (r2 = y)) as [<-|Hy2].
      + rewrite lookup_insert_eq in Hy. inversion Hy; subst ry.
        now apply elem_of_nil in Hin.
      + rewrite lookup_insert_ne in Hy by done.
        destruct (decide (r1 = y)) as [<-|Hy1].
        * rewrite lookup_insert_eq in Hy. inversion Hy; subst ry.
          now apply elem_of_nil in Hin.
        * rewrite lookup_insert_ne in Hy by done.
          apply Hfresh. right. now exists y, ry. }
  assert (references w2 !! r1 = Some fresh) as Hr1.
  { simpl. now rewrite lookup_insert_ne, lookup_insert_eq. }
  assert (counting_sink this w2
          = with_fences
              (<[this := set_ref_count (ref_count_ f + 1 - 1)
                           (set_cur_ref (Some r2) f1)]> (fences w2)) w2)
    as Hsink.
  { unfold counting_sink, Fence.OnRefDead. run_all.
    rewrite lookup_insert_eq. simpl. rewrite lookup_insert_eq. reflexivity. }
  erewrite bind_fence_run; cycle 1.
  { apply (release_leaf async_t counting_sink fuel r1
             {| world := w2; calls := calls t |} fresh fresh Hdead Hr1);
      simpl; [|done].
    fold w2. rewrite Hsink. exact Hr1. }
  simpl. fold w2. rewrite Hsink. run_all. rewrite lookup_insert_eq. simpl.
  eexists. split; [reflexivity|]. simpl. repeat split.
  - rewrite !insert_insert_eq. f_equal. unfold set_ref_count. simpl.
    f_equal. lia.
  - now rewrite delete_insert_ne, delete_insert_eq by done.
Qed.

Lemma erase_middle ref l1 l2 :
  ref ∉ l1 -> erase ref (l1 ++ ref :: l2) = l1 ++ l2.
Proof.
  induction l1 as [|x l1 IH]; intros Hin; simpl.
  - now destruct (decide (ref = ref)).
  - apply not_elem_of_cons in Hin as [Hne Hin].
    destruct (decide (x = ref)); [congruence|]. now rewrite IH.
Qed.

Lemma OnRefDisarmed_run this ref t f l1 l2 :
  fences (world t) !! this = Some f ->
  armed_refs_ f = l1 ++ ref :: l2 ->
  ref ∉ l1 ->
  OnRefDisarmed this ref t =
    Some (tt,
          {| world := with_fences (<[this := set_armed_refs (l1 ++ l2) f]>
                                     (fences (world t))) (world t);
             calls := calls t |}).
Proof.
  intros Hf Harmed Hin. unfold Fence.OnRefDisarmed. run_all. rewrite Hf. simpl.
  rewrite bool_decide_eq_true_2.
  - rewrite Harmed, erase_middle by done. reflexivity.
  - rewrite Harmed. apply elem_of_app. right. now left.
Qed.

Lemma ResetReadyWait_run this t r f l1 l2 :
  references (world t) !! this = Some r ->
  fences (world t) !! fence_ r = Some f ->
  armed_refs_ f = l1 ++ this :: l2 ->
  this ∉ l1 ->
  ResetReadyWait this t =
    Some (tt,
          {| world := with_fences
                        (<[fence_ r := set_armed_refs (l1 ++ l2) f]>
                           (fences (world t))) (world t);
             calls := calls t |}).
Proof.
  intros Hr Hf Harmed Hin. unfold Fence.ResetReadyWait.
  erewrite bind_fence_run; [|unfold get_ref; run_all; now rewrite Hr].
  now apply OnRefDisarmed_run.
Qed.


(** X16.  Arming a reference that is not in the queue and disarming it
    again leaves the queue as it was.  The dispatcher is not told: when
    the queue was empty, the wait that [StartReadyWait] began is still
    registered after the [ResetReadyWait]. *)
Theorem arm_then_disarm this t r f :
  references (world t) !! this = Some r ->
  fences (world t) !! fence_ r = Some f ->
  this ∉ armed_refs_ f ->
  let wb := {| object := Some (fence_ r); trigger := ZX_EVENT_SIGNALED |} in
  let ans := async_begin_wait (async_ (world t)) (fence_ r) wb in
  (armed_refs_ f = [] -> ans.1 = ZX_OK) ->
  exists t' f',
    (StartReadyWait this ≫= fun _ => ResetReadyWait this) t = Some (tt, t') /\
    fences (world t') !! fence_ r = Some f' /\
    armed_refs_ f' = armed_refs_ f /\
    event_ f' = event_ f /\
    ref_count_ f' = ref_count_ f /\
    (armed_refs_ f = [] ->
       calls t' = calls t ++ [ready_wait_Begin (fence_ r) wb] /\
       async_ (world t') = ans.2 /\ ready_wait_ f' = wb) /\
    (armed_refs_ f ≠ [] ->
       calls t' = calls t /\ async_ (world t') = async_ (world t) /\
       ready_wait_ f' = ready_wait_ f).
Proof.
  intros Hr Hf Hin wb ans Hok.
  unfold Fence.StartReadyWait.
  destruct (armed_refs_ f) as [|x l] eqn:Harmed.
  - specialize (Hok eq_refl).
    pose proof (OnRefArmed_empty ZX_EVENT_SIGNALED async_t async_begin_wait
                  (fence_ r) this t f Hf Harmed) as Harm.
    simpl in Harm. fold wb in Harm. fold ans in Harm. rewrite Hok in Harm.
    destruct (decide (ZX_OK = ZX_OK)) as [_|]; [|done].
    erewrite bind_fence_run; cycle 1.
    { erewrite bind_fence_run; [|unfold get_ref; run_all; now rewrite Hr].
      exact Harm. }
    erewrite (ResetReadyWait_run this _ r _ [] []); simpl;
      [|done|now rewrite lookup_insert_eq|done|apply not_elem_of_nil].
    eexists _, _. split; [reflexivity|]. simpl. rewrite lookup_insert_eq.
    split; [reflexivity|]. simpl. repeat split; done.
  - assert (armed_refs_ f ≠ []) as Hne by now rewrite Harmed.
    pose proof (OnRefArmed_nonempty ZX_EVENT_SIGNALED async_t async_begin_wait
                  (fence_ r) this t f Hf Hne) as Harm.
    erewrite bind_fence_run; cycle 1.
    { erewrite bind_fence_run; [|unfold get_ref; run_all; now rewrite Hr].
      exact Harm. }
    erewrite (ResetReadyWait_run this _ r _ (armed_refs_ f) []); simpl;
      [|done|now rewrite lookup_insert_eq|done|now rewrite Harmed].
    eexists _, _. split; [reflexivity|]. simpl. rewrite lookup_insert_eq.
    split; [reflexivity|]. simpl. rewrite ?app_nil_r, ?Harmed.
    repeat split; done.
Qed.

Lemma fmap_lookup_is_Some {A B} (g : A -> B) (m1 m2 : gmap ref_id A) x :
  g <$> m1 !! x = g <$> m2 !! x -> is_Some (m2 !! x) -> is_Some (m1 !! x).
Proof.
  intros Heq [v Hv]. rewrite Hv in Heq. destruct (m1 !! x); [eauto|done].
Qed.

(** The world after [SetImmediateRelease] on a reference without a chain:
    the slots name the two references and the caller's handles on them
    are no more. *)
Lemma SetImmediateRelease_run fuel ref t r a b :
  references (world t) !! ref = Some r ->
  chain r = [] ->
  ref ∉ option_list a ++ option_list b ->
  (forall x, x ∈ option_list a ++ option_list b ->
     is_Some (references (world t) !! x)) ->
  exists t0,
    SetImmediateRelease fuel ref a b t = Some (tt, t0) /\
    calls t0 = calls t /\
    fences (world t0) = fences (world t) /\
    references (world t0) !! ref
      = Some {| fence_ := fence_ r; release_fence1_ := a;
                release_fence2_ := b; held := held r |} /\
    (forall x, fence_ <$> references (world t0) !! x
               = fence_ <$> references (world t) !! x) /\
    (forall y, y ≠ ref -> (chain <$> references (world t0) !! y)
                          = (chain <$> references (world t) !! y)).
Proof.
  intros Hr Hchain Hself Hsome.
  assert (release_fence1_ r = None /\ release_fence2_ r = None) as [H1 H2].
  { destruct r as [fid [x|] [y|] h]; try discriminate Hchain. done. }
  assert ((ref ∉ option_list a) /\ (ref ∉ option_list b)) as [Hna Hnb].
  { split; intros Hin; apply Hself; apply elem_of_app; auto. }
  set (ra := {| fence_ := fence_ r; release_fence1_ := a;
                release_fence2_ := release_fence2_ r; held := held r |}).
  set (rab := {| fence_ := fence_ r; release_fence1_ := a;
                 release_fence2_ := b; held := held r |}).
  set (w1 := with_references (<[ref := ra]> (references (world t))) (world t)).
  set (w2 := unheld_opt a w1).
  set (w3 := with_references (<[ref := rab]> (references w2)) w2).
  set (w4 := unheld_opt b w3).
  assert (forall x, (fun r => (fence_ r, chain r)) <$> references w2 !! x
                    = (fun r => (fence_ r, chain r)) <$> references w1 !! x)
    as H21 by (intros x; apply unheld_opt_fence_chain).
  assert (forall x, (fun r => (fence_ r, chain r)) <$> references w4 !! x
                    = (fun r => (fence_ r, chain r)) <$> references w3 !! x)
    as H43 by (intros x; apply unheld_opt_fence_chain).
  assert (references w2 !! ref = Some ra) as Hra.
  { unfold w2. rewrite unheld_opt_lookup_ne by done. simpl.
    now rewrite lookup_insert_eq. }
  exists {| world := w4; calls := calls t |}.
  split; [|split; [done|split; [|split; [|split]]]].
  - assert (get_ref async_t ref t = Some (r, t)) as G1.
    { unfold get_ref. run_all. now rewrite Hr. }
    assert (put_ref async_t ref ra t
            = Some (tt, {| world := w1; calls := calls t |})) as P1
      by reflexivity.
    assert (hand_over_opt async_t a {| world := w1; calls := calls t |}
            = Some (tt, {| world := w2; calls := calls t |})) as O1.
    { refine (hand_over_opt_run async_t a {| world := w1; calls := calls t |} _).
      simpl. intros x Hx.
      rewrite lookup_insert_ne by (intros <-; done).
      apply Hsome. apply elem_of_app. now left. }
    assert (get_ref async_t ref {| world := w2; calls := calls t |}
            = Some (ra, {| world := w2; calls := calls t |})) as G2.
    { unfold get_ref. run_all. now rewrite Hra. }
    assert (put_ref async_t ref rab {| world := w2; calls := calls t |}
            = Some (tt, {| world := w3; calls := calls t |})) as P2
      by reflexivity.
    assert (hand_over_opt async_t b {| world := w3; calls := calls t |}
            = Some (tt, {| world := w4; calls := calls t |})) as O2.
    { refine (hand_over_opt_run async_t b {| world := w3; calls := calls t |} _).
      simpl. intros x Hx.
      rewrite lookup_insert_ne by (intros <-; done).
      apply (fmap_lookup_is_Some _ _ _ _ (H21 x)). unfold w1. simpl.
      rewrite lookup_insert_ne by (intros <-; done).
      apply Hsome. apply elem_of_app. now right. }
    unfold Fence.SetImmediateRelease.
    erewrite bind_fence_run; [|exact G1].
    erewrite bind_fence_run; [|exact P1].
    erewrite bind_fence_run; [|exact O1].
    rewrite H1. erewrite bind_fence_run; [|reflexivity].
    erewrite bind_fence_run; [|exact G2].
    erewrite bind_fence_run; [|exact P2].
    erewrite bind_fence_run; [|exact O2].
    simpl. rewrite H2. reflexivity.
  - simpl. unfold w4. destruct (unheld_opt_fences async_t b w3) as [-> _].
    unfold w3. simpl. unfold w2. destruct (unheld_opt_fences async_t a w1) as [-> _].
    done.
  - simpl. unfold w4. rewrite unheld_opt_lookup_ne by done. simpl.
    now rewrite lookup_insert_eq.
  - intros x. simpl.
    pose proof (f_equal (fmap fst) (H43 x)) as Hx4.
    rewrite <- !option_fmap_compose in Hx4. simpl in Hx4.
    change (fence_ <$> references w4 !! x = fence_ <$> references w3 !! x)
      in Hx4.
    rewrite Hx4. unfold w3. simpl.
    destruct (decide (ref = x)) as [<-|Hne].
    + now rewrite lookup_insert_eq, Hr.
    + rewrite lookup_insert_ne by done.
      pose proof (f_equal (fmap fst) (H21 x)) as Hx2.
      rewrite <- !option_fmap_compose in Hx2. simpl in Hx2.
      change (fence_ <$> references w2 !! x = fence_ <$> references w1 !! x)
        in Hx2.
      rewrite Hx2. unfold w1. simpl. now rewrite lookup_insert_ne.
  - intros y Hy. simpl.
    pose proof (f_equal (fmap snd) (H43 y)) as Hy4.
    rewrite <- !option_fmap_compose in Hy4. simpl in Hy4.
    change (chain <$> references w4 !! y = chain <$> references w3 !! y)
      in Hy4.
    rewrite Hy4. unfold w3. simpl. rewrite lookup_insert_ne by done.
    pose proof (f_equal (fmap snd) (H21 y)) as Hy2.
    rewrite <- !option_fmap_compose in Hy2. simpl in Hy2.
    change (chain <$> references w2 !! y = chain <$> references w1 !! y)
      in Hy2.
    rewrite Hy2. unfold w1. simpl. now rewrite lookup_insert_ne.
Qed.

(** X17.  The release chain of a reference fires once.  After
    [SetImmediateRelease] on a reference without a chain, with two
    references (either may be null, neither is the reference itself) that
    another slot names as well, the
    [OnReady] of the reference signals the event of the parent fence of
    the first and then of the second, and empties both slots; the two live
    on by the other slot, so that no reference is destroyed and the sink is
    not called.  An [OnReady] after that signals nothing and changes
    nothing. *)
Theorem release_chain_fires_once fuel ref t r a b :
  references (world t) !! ref = Some r ->
  chain r = [] ->
  ref ∉ option_list a ++ option_list b ->
  (forall x, x ∈ option_list a ++ option_list b ->
     resolvable (world t) x /\ referenced (world t) x) ->
  let targets := omap (fun x => fence_ <$> references (world t) !! x)
                      (option_list a ++ option_list b) in
  exists t1,
    (SetImmediateRelease fuel ref a b ≫= fun _ =>
     FenceReference_OnReady fuel ref) t = Some (tt, t1) /\
    calls t1 = calls t ++
               map (fun fid => event_signal fid 0 ZX_EVENT_SIGNALED) targets /\
    references (world t1) !! ref = Some (drop_chain r) /\
    (forall fid, fid ∈ targets ->
       Fence.signalled ZX_EVENT_SIGNALED (fences (world t1)) fid) /\
    (forall x, x ∈ option_list a ++ option_list b ->
       is_Some (references (world t1) !! x)) /\
    FenceReference_OnReady fuel ref t1 = Some (tt, t1).
Proof.
  intros Hr Hchain Hself Hres targets.
  destruct (SetImmediateRelease_run fuel ref t r a b Hr Hchain Hself)
    as (t0 & Hset & Hcalls0 & Hfences0 & Hr0 & Hfence & Hchains).
  { intros x Hx. destruct (Hres x Hx) as [(rx & fx & Hrx & _) _]. eauto. }
  set (r0 := {| fence_ := fence_ r; release_fence1_ := a;
                release_fence2_ := b; held := held r |}) in *.
  assert (forall x, x ∈ chain r0 -> resolvable (world t0) x) as Hres0.
  { intros x Hx. destruct (Hres x Hx) as [(rx & fx & Hrx & Hfx) _].
    pose proof (Hfence x) as Hx'. rewrite Hrx in Hx'.
    destruct (references (world t0) !! x) as [rx'|] eqn:Hrx'; [|done].
    inversion Hx' as [Hfid]. exists rx', fx. split; [done|].
    now rewrite Hfences0, Hfid. }
  assert (chain_fences (world t0) r0 = targets) as Htargets.
  { unfold chain_fences, targets. now apply omap_fence_ext. }
  assert (forall x, x ∈ chain r0 ->
            alive {| fences := Fence.raise_all ZX_EVENT_SIGNALED
                                 (chain_fences (world t0) r0)
                                 (fences (world t0));
                     references := alter drop_chain ref
                                     (references (world t0));
                     async_ := async_ (world t0) |} x) as Halive0.
  { intros x Hx. destruct (Hres x Hx) as [_ [Hslot|Hslot]].
    - destruct Hslot as (fid & fx & Hfx & Hin).
      pose proof (raise_all_slots ZX_EVENT_SIGNALED
                    (chain_fences (world t0) r0) (fences (world t0)) fid)
        as Hs.
      rewrite Hfences0, Hfx in Hs. simpl in Hs.
      destruct (Fence.raise_all _ _ _ !! fid) as [fx'|] eqn:Hfx'; [|done].
      inversion Hs as [Hslots].
      apply (alive_fence async_t _ x fid fx'); simpl.
      + now rewrite Hfences0.
      + now rewrite Hslots.
    - destruct Hslot as (y & ry & Hy & Hin).
      assert (y ≠ ref) as Hne.
      { intros ->. rewrite Hr in Hy. inversion Hy; subst ry.
        rewrite Hchain in Hin. now apply elem_of_nil in Hin. }
      pose proof (Hchains y Hne) as Hc. rewrite Hy in Hc. simpl in Hc.
      destruct (references (world t0) !! y) as [ry'|] eqn:Hy'; [|done].
      inversion Hc as [Hsame].
      apply (alive_chain async_t _ x y ry'); simpl.
      + now rewrite lookup_alter_ne.
      + now rewrite Hsame. }
  pose proof (FenceReference_OnReady_run ZX_EVENT_SIGNALED async_t
                OnRefForFenceDead fuel ref t0 r0 Hr0 Hres0 Halive0) as Hrun1.
  rewrite Htargets in Hrun1.
  eexists. split.
  { rewrite (bind_fence_run async_t _ _ _ _ _ Hset). exact Hrun1. }
  simpl. split; [now rewrite Hcalls0|].
  assert (alter drop_chain ref (references (world t0)) !! ref
          = Some (drop_chain r)) as Hr1.
  { now rewrite lookup_alter_eq, Hr0. }
  split; [exact Hr1|]. split; [|split].
  - intros fid Hfid. apply raise_all_signalled; [done|].
    apply (chain_fences_resolved async_t (world t0) r0 fid Hres0).
    now rewrite Htargets.
  - intros x Hx. rewrite lookup_alter_is_Some.
    destruct (Hres0 x Hx) as (rx & _ & Hrx & _). eauto.
  - unfold Fence.FenceReference_OnReady. run_all. rewrite Hr1. simpl.
    rewrite Hr1. reflexivity.
Qed.

(** X21.  A release-chain target that the chain slot alone keeps is
    signalled and then destroyed.  When the first chain slot of a
    reference holds the last handle on a reference without a chain of its
    own, and the second slot is null, [OnReady] of the reference signals
    the event of the fence of the target and nulls the slot, and with that
    the target is destroyed: the sink is told after the signal, and the
    object is no more. *)
Theorem OnReady_releases_chain_target fuel ref t r a ra fa r1 r2 :
  references (world t) !! ref = Some r ->
  release_fence1_ r = Some a ->
  release_fence2_ r = None ->
  a ≠ ref ->
  references (world t) !! a = Some ra ->
  fences (world t) !! fence_ ra = Some fa ->
  let w1 := {| fences := alter (Fence.raise_signalled ZX_EVENT_SIGNALED)
                           (fence_ ra) (fences (world t));
               references := alter drop_chain ref (references (world t));
               async_ := async_ (world t) |} in
  let w2 := OnRefForFenceDead (fence_ ra) w1 in
  ¬ alive w1 a ->
  references w2 !! a = Some r1 ->
  chain r1 = [] ->
  references w2 !! ref = Some r2 ->
  release_fence2_ r2 = None ->
  FenceReference_OnReady (S fuel) ref t =
    Some (tt,
          {| world := without a w2;
             calls := calls t ++
                      [event_signal (fence_ ra) 0 ZX_EVENT_SIGNALED;
                       cb_OnRefForFenceDead (fence_ ra)] |}).
Proof.
  intros Hr Hslot1 Hslot2 Hne Ha Hfa w1 w2 Hdead Hr1 Hchain Hr2 Hnone.
  assert (drop_chain r = {| fence_ := fence_ r; release_fence1_ := None;
                            release_fence2_ := release_fence2_ r;
                            held := held r |}) as Hdrop.
  { unfold drop_chain. now rewrite Hslot2. }
  assert (<[ref := {| fence_ := fence_ r; release_fence1_ := None;
                      release_fence2_ := release_fence2_ r;
                      held := held r |}]> (references (world t))
          = alter drop_chain ref (references (world t))) as Hrefs.
  { rewrite <- Hdrop. exact (insert_as_alter drop_chain _ _ _ Hr). }
  unfold Fence.FenceReference_OnReady.
  erewrite bind_fence_run; [|unfold get_ref; run_all; now rewrite Hr].
  rewrite Hslot1.
  erewrite bind_fence_run; cycle 1.
  { erewrite bind_fence_run;
      [|now apply (FenceReference_Signal_run ZX_EVENT_SIGNALED async_t
                     a t ra fa)].
    erewrite bind_fence_run; [|unfold get_ref; run_all; now rewrite Hr].
    erewrite bind_fence_run; [|run_all; reflexivity].
    simpl. rewrite Hrefs.
    refine (release_leaf async_t OnRefForFenceDead fuel a
              {| world := w1; calls := _ |} ra r1 Hdead _ Hr1 Hchain).
    simpl. now rewrite lookup_alter_ne. }
  erewrite bind_fence_run; cycle 1.
  { unfold get_ref. run_all. fold w1. fold w2.
    rewrite lookup_delete_ne by done. rewrite Hr2. reflexivity. }
  rewrite Hnone. run_all. now rewrite <- app_assoc.
Qed.

Lemma fired_refs_signals (l : list fence_id) :
  fired_refs (map (fun fid => event_signal fid 0 ZX_EVENT_SIGNALED) l) = [].
Proof. induction l; simpl; done. Qed.

Lemma begun_signals (l : list fence_id) :
  begun (map (fun fid => event_signal fid 0 ZX_EVENT_SIGNALED) l) = O.
Proof. unfold begun. induction l; simpl; done. Qed.

Lemma begun_app cs1 cs2 : begun (cs1 ++ cs2) = (begun cs1 + begun cs2)%nat.
Proof. unfold begun. now rewrite List.filter_app, length_app. Qed.

Lemma fired_refs_app cs1 cs2 :
  fired_refs (cs1 ++ cs2) = fired_refs cs1 ++ fired_refs cs2.
Proof. apply omap_app. Qed.

Lemma fired_refs_deaths ds : forallb death_notice ds = true -> fired_refs ds = [].
Proof.
  induction ds as [|c ds IH]; [done|]. simpl. intros Hds.
  apply andb_prop in Hds as [Hc Hds]. destruct c; try discriminate Hc.
  simpl. now apply IH.
Qed.

Lemma begun_deaths ds : forallb death_notice ds = true -> begun ds = O.
Proof.
  unfold begun. induction ds as [|c ds IH]; [done|]. simpl. intros Hds.
  apply andb_prop in Hds as [Hc Hds]. destruct c; try discriminate Hc.
  now apply IH.
Qed.

(** X18.  First armed, first fired.  In a store in which every handle
    names an object, with sinks that leave the slots and the references
    alone, firing the wait of a fence as many times as there are armed
    references tells the sink about each of them once, in the order of the
    queue, and leaves the queue empty; the wait is begun again after every
    firing but the last.  This holds whatever the firings destroy: the
    references that fire, when the queue held their last handle, and the
    release-chain targets that nothing but a chain slot kept. *)
Theorem OnReady_fires_in_order fuel this observed l :
  forall t f,
    fences (world t) !! this = Some f ->
    armed_refs_ f = l ->
    sound fuel (world t) ->
    (forall ref w, fences (OnFenceFired ref w) = fences w /\
                   references (OnFenceFired ref w) = references w) ->
    quiet OnRefForFenceDead ->
    Z.land observed ZX_EVENT_SIGNALED ≠ 0 ->
    exists t',
      OnReady_times fuel (length l) this observed t = Some (tt, t') /\
      fired_refs (calls t') = fired_refs (calls t) ++ l /\
      armed_refs_ <$> fences (world t') !! this = Some [] /\
      begun (calls t') = (begun (calls t) + (length l - 1))%nat /\
      sound fuel (world t').
Proof.
  induction l as [|ref rest IH]; intros t f Hf Harmed Hsound Hsink1 Hquiet Hobs.
  - exists t. simpl. rewrite app_nil_r, Hf. simpl. rewrite Harmed.
    split; [done|]. split; [done|]. split; [done|]. split; [lia|done].
  - assert (is_Some (references (world t) !! ref)) as [r Hr].
    { destruct Hsound as (_ & Hh & _). apply (Hh this f ref Hf).
      unfold slots. rewrite Harmed. apply elem_of_app. right. now left. }
    destruct (OnReady_total ZX_EVENT_SIGNALED async_t async_begin_wait
                OnFenceFired OnRefForFenceDead Hquiet fuel this t f ref rest
                r observed Hsink1 Hf Harmed Hr Hsound Hobs)
      as (t1 & d1 & d2 & d3 & Hrun & Hcalls & Hd1 & Hd2 & Hd3 & Hshr
          & Hsound1 & _).
    assert (armed_refs_ <$> fences (world t1) !! this = Some rest) as Hrest.
    { destruct Hshr as (Hfs & _).
      rewrite (same_fences_field armed_refs_ _ _ (fun _ => eq_refl)
                 (Hfs this)).
      simpl. rewrite raise_all_armed, !lookup_alter_eq, Hf. simpl.
      now rewrite Harmed. }
    destruct (fences (world t1) !! this) as [f1|] eqn:Hf1;
      [|discriminate Hrest].
    assert (armed_refs_ f1 = rest) as Harmed1
      by (simpl in Hrest; congruence).
    destruct (IH t1 f1 Hf1 Harmed1 Hsound1 Hsink1 Hquiet Hobs)
      as (t' & Hrun' & Hfired' & Hempty & Hbegun' & Hsound').
    exists t'. split.
    { change (OnReady_times fuel (length (ref :: rest)) this observed t)
        with ((OnReady fuel this ZX_OK observed ≫= fun _ =>
               OnReady_times fuel (length rest) this observed) t).
      now rewrite (bind_fence_run async_t _ _ _ _ _ Hrun). }
    split.
    { rewrite Hfired', Hcalls, !fired_refs_app, !fired_refs_signals,
        (fired_refs_deaths d1 Hd1), (fired_refs_deaths d2 Hd2),
        (fired_refs_deaths d3 Hd3).
      destruct (bool_decide (rest ≠ [])); simpl; now rewrite <- app_assoc. }
    split; [done|]. split; [|done].
    rewrite Hbegun', Hcalls, !begun_app, !begun_signals,
      (begun_deaths d1 Hd1), (begun_deaths d2 Hd2), (begun_deaths d3 Hd3).
    destruct rest as [|x rest]; unfold begun; simpl; lia.
Qed.

End Lifetimes.

Lemma CreateRef_then_GetReference_witness :
  exists t',
    (Fence.CreateRef unit sample_dead 0 1%positive (Some 10%positive) ≫= fun ok =>
     Fence.GetReference unit 1%positive ≫= fun cur => mret (ok, cur)) sample_run
      = Some ((true, Some 10%positive), t') /\
    ref_count_ <$> fences (world t') !! 1%positive = Some 3 /\
    held <$> references (world t') !! 10%positive = Some 1%nat /\
    calls t' = calls sample_run.
Proof.
  destruct (CreateRef_then_GetReference unit sample_dead 0 1%positive
              10%positive sample_run
              (sample_fence [5; 6]%positive (Some 6%positive)) eq_refl)
    as (t' & Hrun & Hfences & Hrefs & _ & Hcalls).
  - intros a Ha. inversion Ha; subst. by_evaluation.
  - exists t'. split; [exact Hrun|]. rewrite Hfences, Hrefs.
    split; [reflexivity|]. split; [reflexivity|exact Hcalls].
Defined.

Lemma ClearRef_then_GetReference_witness :
  (Fence.ClearRef unit sample_dead 0 1%positive ≫= fun _ =>
   Fence.GetReference unit 1%positive) sample_run =
    Some (None,
          {| world := with_fences
                        (<[1%positive := set_cur_ref None
                                           (sample_fence [5; 6]%positive
                                              (Some 6%positive))]>
                           (fences (world sample_run))) (world sample_run);
             calls := calls sample_run |}) /\
  (Fence.ClearRef unit sample_dead 1 2%positive ≫= fun _ =>
   Fence.GetReference unit 2%positive) current_run =
    Some (None,
          {| world :=
               without 10%positive
                 (sample_dead 2%positive
                    (with_fences
                       (<[2%positive := set_cur_ref None
                                          (sample_fence [] (Some 10%positive))]>
                          (fences (world current_run))) (world current_run)));
             calls := calls current_run ++ [cb_OnRefForFenceDead 2%positive] |}).
Proof.
  split.
  - destruct (ClearRef_then_GetReference unit sample_dead 0 1%positive
                sample_run (sample_fence [5; 6]%positive (Some 6%positive))
                eq_refl) as [Hkept _].
    apply Hkept. intros a Ha. inversion Ha; subst. by_evaluation.
  - destruct (ClearRef_then_GetReference unit sample_dead 0 2%positive
                current_run (sample_fence [] (Some 10%positive))
                eq_refl) as [_ Hlast].
    apply (Hlast 10%positive (set_held 0 (sample_ref 2%positive None None))
             (set_held 0 (sample_ref 2%positive None None))
             (set_cur_ref None (sample_fence [] (Some 10%positive))));
      try reflexivity.
    by_evaluation.
Defined.

Lemma CreateRef_replaces_untaken_witness :
  exists t',
    (Fence.CreateRef unit counting_sink 0 2%positive (Some 10%positive) ≫= fun _ =>
     Fence.CreateRef unit counting_sink 1 2%positive (Some 11%positive))
      sample_run = Some (true, t') /\
    ref_count_ <$> fences (world t') !! 2%positive = Some 3 /\
    cur_ref_ <$> fences (world t') !! 2%positive = Some (Some 11%positive) /\
    references (world t') !! 10%positive = None /\
    calls t' = calls sample_run ++ [cb_OnRefForFenceDead 2%positive].
Proof.
  destruct (CreateRef_replaces_untaken unit 0 2%positive 10%positive
              11%positive sample_run (sample_fence [] None) eq_refl eq_refl)
    as (t' & Hrun & Hfences & Hrefs & _ & Hcalls).
  - reflexivity.
  - discriminate.
  - by_evaluation.
  - exists t'. split; [exact Hrun|]. rewrite Hfences, Hrefs.
    split; [reflexivity|]. split; [reflexivity|].
    split; [reflexivity|exact Hcalls].
Defined.


Lemma arm_then_disarm_witness :
  exists t' f',
    (Fence.StartReadyWait 8 unit (fun _ _ _ => (ZX_OK, tt)) 7%positive ≫= fun _ =>
     Fence.ResetReadyWait unit 7%positive) sample_run = Some (tt, t') /\
    fences (world t') !! 2%positive = Some f' /\
    armed_refs_ f' = [] /\
    calls t' = calls sample_run ++
               [ready_wait_Begin 2%positive
                  {| object := Some 2%positive; trigger := 8 |}].
Proof.
  destruct (arm_then_disarm 8 unit (fun _ _ _ => (ZX_OK, tt)) 7%positive
              sample_run (sample_ref 2%positive None None)
              (sample_fence [] None) eq_refl eq_refl)
    as (t' & f' & Hrun & Hf' & Harmed & _ & _ & Hempty & _).
  - apply not_elem_of_nil.
  - intros _. reflexivity.
  - destruct (Hempty eq_refl) as (Hcalls & _).
    exists t', f'. split; [exact Hrun|]. split; [exact Hf'|].
    split; [exact Harmed|exact Hcalls].
Defined.

Lemma release_chain_fires_once_witness :
  exists t1,
    (Fence.SetImmediateRelease unit sample_dead 0 6%positive (Some 7%positive)
       (Some 8%positive) ≫= fun _ =>
     Fence.FenceReference_OnReady 8 unit sample_dead 0 6%positive) sample_run
      = Some (tt, t1) /\
    calls t1 = calls sample_run ++
               map (fun fid => event_signal fid 0 8)
                   (omap (fun x => fence_ <$> references (world sample_run) !! x)
                         (option_list (Some 7%positive) ++
                          option_list (Some 8%positive))) /\
    Fence.FenceReference_OnReady 8 unit sample_dead 0 6%positive t1
      = Some (tt, t1).
Proof.
  destruct (release_chain_fires_once 8 unit sample_dead 0 6%positive sample_run
              (sample_ref 1%positive None None) (Some 7%positive)
              (Some 8%positive) eq_refl eq_refl)
    as (t1 & Hrun & Hcalls & _ & _ & _ & Hrun2).
  - by_evaluation.
  - intros x Hx. apply elem_of_cons in Hx as [->|Hx].
    + split; [eexists _, _; split; reflexivity|by_evaluation].
    + apply elem_of_cons in Hx as [->|Hx].
      * split; [eexists _, _; split; reflexivity|by_evaluation].
      * now apply elem_of_nil in Hx.
  - exists t1. split; [exact Hrun|]. split; [exact Hcalls|exact Hrun2].
Defined.

Lemma OnReady_releases_chain_target_witness :
  exists t',
    Fence.FenceReference_OnReady 8 unit sample_dead 1 6%positive chained_run
      = Some (tt, t') /\
    calls t' = [event_signal 2%positive 0 8; cb_OnRefForFenceDead 2%positive] /\
    references (world chained_run) !! 10%positive
      = Some (set_held 0 (sample_ref 2%positive None None)) /\
    references (world t') !! 10%positive = None.
Proof.
  eexists. split.
  - apply (OnReady_releases_chain_target 8 unit sample_dead 0 6%positive
             chained_run (sample_ref 1%positive (Some 10%positive) None)
             10%positive (set_held 0 (sample_ref 2%positive None None))
             (sample_fence [] None)
             (set_held 0 (sample_ref 2%positive None None))
             (drop_chain (sample_ref 1%positive (Some 10%positive) None)));
      try reflexivity.
    + discriminate.
    + by_evaluation.
  - repeat split.
Defined.

Lemma sound_chained_run : sound 6 (world chained_run).
Proof. apply sound_checked; by_evaluation. Defined.

Lemma OnReady_fires_in_order_witness :
  exists t',
    Fence.OnReady_times 8 unit sample_begin sample_sink sample_dead 6
      (length [5; 6]%positive) 1%positive 8 chained_run = Some (tt, t') /\
    fired_refs (calls t') = fired_refs (calls chained_run) ++ [5; 6]%positive /\
    armed_refs_ <$> fences (world t') !! 1%positive = Some [] /\
    begun (calls t') =
      (begun (calls chained_run) + (length [5; 6]%positive - 1))%nat /\
    sound 6 (world t').
Proof.
  apply (OnReady_fires_in_order 8 unit sample_begin sample_sink sample_dead
           6 1%positive 8 [5; 6]%positive chained_run
           (sample_fence [5; 6]%positive (Some 6%positive)) eq_refl eq_refl).
  - exact sound_chained_run.
  - intros ref w. split; reflexivity.
  - exact quiet_sample_dead.
  - discriminate.
Defined.

End FenceFacts.

(** * Properties of the condition variable *)

Module CondvarFacts.
Import Condvar.

#[local] Ltac run_step :=
  unfold mbind, mret, M_bind, M_ret, get_world, get_now, put_world, called,
    lift, stuck, yield, get_node; simpl.

#[local] Ltac run_all := repeat (progress run_step).

#[local] Ltac run_in H :=
  repeat (progress
            (unfold mbind, mret, M_bind, M_ret, get_world, get_now, put_world,
               called, lift, stuck, yield, get_node in H; simpl in H)).

Lemma wrap_int_small x : - 2 ^ 31 <= x < 2 ^ 31 -> wrap_int x = x.
Proof. intros Hx. unfold wrap_int. rewrite Z.mod_small; lia. Qed.

Section Runs.

Context {Mutex : Type} `{MutexOps Mutex}.
Variable others : nat -> @World Mutex -> @World Mutex.
Variable woken : nat -> zx_status_t.

Lemma bind_thread_run {A B} (m : M A) (k : A -> M B) (t : @thread Mutex) a t1 :
  m t = Some (a, t1) -> (m ≫= k) t = k a t1.
Proof. intros Hm. unfold mbind, M_bind. now rewrite Hm. Qed.

Lemma bind_inv {A B} (m : M A) (k : A -> M B) (t : @thread Mutex) b t' :
  (m ≫= k) t = Some (b, t') ->
  exists a t1, m t = Some (a, t1) /\ k a t1 = Some (b, t').
Proof.
  unfold mbind, M_bind. destruct (m t) as [[a t1]|]; [|done]. eauto.
Qed.

Lemma atomic_load_inv f (t : @thread Mutex) v t1 :
  atomic_load others f t = Some (v, t1) ->
  read_word f (world t) = Some v /\ t1 = turn others t.
Proof.
  unfold atomic_load. run_all. destruct (read_word f (world t)); simpl; [|done].
  intros Heq. inversion Heq; subst. done.
Qed.

Lemma futex_wait_inv f v d (t : @thread Mutex) st t1 :
  futex_wait others woken f v d t = Some (st, t1) ->
  st = woken (now t) /\
  calls t1 = calls t ++ [zx_futex_wait f v d] /\
  now t1 = S (now t).
Proof.
  unfold futex_wait. run_all. intros Heq. inversion Heq; subst. done.
Qed.

Lemma wait_spins_calls f cur spins (t : @thread Mutex) r t' :
  wait_spins others spins f cur t = Some (r, t') ->
  exists k,
    calls t' = calls t ++ repeat spin k /\
    (k <= spins)%nat /\
    (r = false -> k = spins) /\
    now t' = (now t + k + (if r then 1 else 0))%nat.
Proof.
  revert t. induction spins as [|spins IH]; intros t; simpl.
  - run_all. intros Heq. inversion Heq; subst. exists O. simpl.
    rewrite app_nil_r. repeat split; lia.
  - intros Hrun. apply bind_inv in Hrun as (v & t1 & Hload & Hrun).
    apply atomic_load_inv in Hload as [_ ->].
    destruct (decide (v = cur)) as [_|_].
    + apply bind_inv in Hrun as ([] & t2 & Hcall & Hrun).
      unfold called in Hcall. inversion Hcall; subst. clear Hcall.
      apply IH in Hrun as (k & Hcalls & Hk & Hr & Hnow). simpl in *.
      exists (S k). rewrite Hcalls, <- app_assoc. simpl.
      repeat split; [lia| |lia]. intros Hf. now rewrite (Hr Hf).
    + run_all. inversion Hrun; subst. exists O. simpl. rewrite app_nil_r.
      repeat split; [lia|done|lia].
Qed.

Lemma wait_sleep_calls f cur fuel (t : @thread Mutex) t' :
  wait_sleep others woken fuel f cur t = Some (tt, t') ->
  exists j,
    calls t' = calls t ++ repeat (zx_futex_wait f cur ZX_TIME_INFINITE) j /\
    now t' = (now t + 1 + 2 * j)%nat.
Proof.
  revert t. induction fuel as [|fuel IH]; intros t; simpl.
  - intros Hrun. apply bind_inv in Hrun as (v & t1 & Hload & Hrun).
    apply atomic_load_inv in Hload as [_ ->].
    destruct (decide (v = cur)); [done|].
    inversion Hrun; subst. exists O. simpl. rewrite app_nil_r. split; [done|lia].
  - intros Hrun. apply bind_inv in Hrun as (v & t1 & Hload & Hrun).
    apply atomic_load_inv in Hload as [_ ->].
    destruct (decide (v = cur)).
    + apply bind_inv in Hrun as (st & t2 & Hwait & Hrun).
      apply futex_wait_inv in Hwait as (_ & Hcalls & Hnow).
      apply IH in Hrun as (j & Hcalls' & Hnow').
      exists (S j). rewrite Hcalls', Hcalls, <- app_assoc. simpl in *.
      split; [done|lia].
    + inversion Hrun; subst. exists O. simpl. rewrite app_nil_r.
      split; [done|lia].
Qed.

Lemma write_word_read l (w : @World Mutex) v v' :
  read_word l w = Some v ->
  exists w1, write_word l v' w = Some w1 /\ read_word l w1 = Some v'.
Proof.
  destruct l as [a|a|a]; simpl; [| |done].
  - destruct (waiters w !! a) as [n|]; simpl; [|done]. intros _.
    eexists. split; [reflexivity|]. simpl. now rewrite lookup_insert_eq.
  - destruct (ints w !! a) as [n|]; simpl; [|done]. intros _.
    eexists. split; [reflexivity|]. simpl. now rewrite lookup_insert_eq.
Qed.

Lemma unlock_run l (t : @thread Mutex) v w1 :
  read_word l (world t) = Some v ->
  write_word l UNLOCKED (world t) = Some w1 ->
  unlock others l t =
    Some (tt,
          if decide (v = LOCKED_MAYBE_WAITERS) then
            {| world := others (S (now t)) (others (now t) w1);
               now := S (S (now t));
               calls := calls t ++ [zx_futex_wake l 1] |}
          else
            {| world := others (now t) w1; now := S (now t);
               calls := calls t |}).
Proof.
  intros Hread Hwrite. unfold unlock, atomic_exchange, futex_wake. run_all.
  rewrite Hread. simpl. rewrite Hwrite. simpl.
  destruct (decide (v = LOCKED_MAYBE_WAITERS)); reflexivity.
Qed.

Lemma spun_calls i (t : @thread Mutex) :
  calls (spun others i t) = calls t ++ repeat spin i.
Proof.
  induction i as [|i IH]; simpl; [now rewrite app_nil_r|].
  rewrite IH, <- app_assoc. f_equal. symmetry. apply repeat_cons.
Qed.

Lemma slept_calls f cur j (t : @thread Mutex) :
  calls (slept others f cur j t) =
    calls t ++ repeat (zx_futex_wait f cur ZX_TIME_INFINITE) j.
Proof.
  induction j as [|j IH]; simpl; [now rewrite app_nil_r|].
  rewrite IH, <- app_assoc. f_equal. symmetry. apply repeat_cons.
Qed.

Lemma spun_succ i (t : @thread Mutex) :
  spun others (S i) t = spun others i (spin_round others t).
Proof. unfold spun. apply Nat.iter_succ_r. Qed.

Lemma slept_succ f cur j (t : @thread Mutex) :
  slept others f cur (S j) t = slept others f cur j (sleep_round others f cur t).
Proof. unfold slept. apply Nat.iter_succ_r. Qed.

Lemma wait_spins_run f cur k :
  forall spins (t : @thread Mutex) v,
    (k < spins)%nat ->
    (forall i, (i < k)%nat ->
       read_word f (world (spun others i t)) = Some cur) ->
    read_word f (world (spun others k t)) = Some v ->
    v ≠ cur ->
    wait_spins others spins f cur t = Some (true, turn others (spun others k t)).
Proof.
  induction k as [|k IH]; intros spins t v Hk Hsame Hread Hne;
    (destruct spins as [|spins]; [lia|]).
  - simpl in Hread. simpl. unfold atomic_load. run_all.
    rewrite Hread. simpl. now destruct (decide (v = cur)).
  - assert (read_word f (world t) = Some cur) as H0 by (apply (Hsame O); lia).
    rewrite spun_succ in Hread. rewrite spun_succ.
    assert (wait_spins others spins f cur (spin_round others t)
            = Some (true, turn others (spun others k (spin_round others t))))
      as Hrest.
    { apply (IH spins _ v); [lia| |done|done].
      intros i Hi. rewrite <- spun_succ. apply Hsame. lia. }
    rewrite <- Hrest. simpl. unfold atomic_load. run_all.
    rewrite H0. simpl. destruct (decide (cur = cur)) as [_|]; [|done].
    reflexivity.
Qed.

Lemma wait_spins_all f cur spins :
  forall (t : @thread Mutex),
    (forall i, (i < spins)%nat ->
       read_word f (world (spun others i t)) = Some cur) ->
    wait_spins others spins f cur t = Some (false, spun others spins t).
Proof.
  induction spins as [|spins IH]; intros t Hsame; [done|].
  assert (read_word f (world t) = Some cur) as H0 by (apply (Hsame O); lia).
  rewrite spun_succ.
  assert (wait_spins others spins f cur (spin_round others t)
          = Some (false, spun others spins (spin_round others t))) as Hrest.
  { apply IH. intros i Hi. rewrite <- spun_succ. apply Hsame. lia. }
  rewrite <- Hrest. simpl. unfold atomic_load. run_all.
  rewrite H0. simpl. destruct (decide (cur = cur)) as [_|]; [|done].
  reflexivity.
Qed.

Lemma wait_sleep_run f cur j :
  forall fuel (t : @thread Mutex) v,
    (j <= fuel)%nat ->
    (forall i, (i < j)%nat ->
       read_word f (world (slept others f cur i t)) = Some cur) ->
    read_word f (world (slept others f cur j t)) = Some v ->
    v ≠ cur ->
    wait_sleep others woken fuel f cur t =
      Some (tt, turn others (slept others f cur j t)).
Proof.
  induction j as [|j IH]; intros fuel t v Hj Hsame Hread Hne.
  - simpl in Hread.
    destruct fuel; simpl; unfold atomic_load; run_all; rewrite Hread; simpl;
      now destruct (decide (v = cur)).
  - destruct fuel as [|fuel]; [lia|].
    assert (read_word f (world t) = Some cur) as H0 by (apply (Hsame O); lia).
    rewrite slept_succ in Hread. rewrite slept_succ.
    assert (wait_sleep others woken fuel f cur (sleep_round others f cur t)
            = Some (tt, turn others
                          (slept others f cur j (sleep_round others f cur t))))
      as Hrest.
    { apply (IH fuel _ v); [lia| |done|done].
      intros i Hi. rewrite <- slept_succ. apply Hsame. lia. }
    rewrite <- Hrest. simpl. unfold atomic_load. run_all.
    rewrite H0. simpl. destruct (decide (cur = cur)) as [_|]; [|done].
    unfold futex_wait. run_all. reflexivity.
Qed.

(** C8.  [unlock] exchanges the word for UNLOCKED, whatever it held, and
    calls [zx_futex_wake] on it, with count 1, exactly when it held
    LOCKED_MAYBE_WAITERS.  A run of [wait] calls [spin] at most 100 times,
    and has called it 100 times before its first [zx_futex_wait]: every
    call of [spin] follows a load of the word, and so does every futex
    wait.  [wait] is what its two loops say: when the [k]-th load, [k]
    below 100, is the first that finds the word changed, it returns after
    [k] spins and without a futex wait; when 100 loads find it unchanged,
    it has spun 100 times and then sleeps in a futex wait after every
    further load that finds it unchanged, and returns on the first that
    does not. *)
Theorem unlock_wakes_and_wait_spins :
  (forall l (t : @thread Mutex) v,
     read_word l (world t) = Some v ->
     exists w1 t',
       write_word l UNLOCKED (world t) = Some w1 /\
       read_word l w1 = Some UNLOCKED /\
       unlock others l t = Some (tt, t') /\
       (v = LOCKED_MAYBE_WAITERS ->
          calls t' = calls t ++ [zx_futex_wake l 1] /\
          world t' = others (S (now t)) (others (now t) w1)) /\
       (v ≠ LOCKED_MAYBE_WAITERS ->
          calls t' = calls t /\ world t' = others (now t) w1)) /\
  (forall fuel f cur (t t' : @thread Mutex),
     wait others woken fuel f cur t = Some (tt, t') ->
     exists k j,
       calls t' = calls t ++ repeat spin k ++
                  repeat (zx_futex_wait f cur ZX_TIME_INFINITE) j /\
       (k <= 100)%nat /\
       (j ≠ O -> k = 100%nat) /\
       now t' = (now t + k + 1 + 2 * j)%nat) /\
  (forall fuel f cur (t : @thread Mutex) k v,
     (k < 100)%nat ->
     (forall i, (i < k)%nat ->
        read_word f (world (spun others i t)) = Some cur) ->
     read_word f (world (spun others k t)) = Some v ->
     v ≠ cur ->
     wait others woken fuel f cur t = Some (tt, turn others (spun others k t)) /\
     calls (turn others (spun others k t)) = calls t ++ repeat spin k) /\
  (forall fuel f cur (t : @thread Mutex) j v,
     (forall i, (i < 100)%nat ->
        read_word f (world (spun others i t)) = Some cur) ->
     (j <= fuel)%nat ->
     (forall i, (i < j)%nat ->
        read_word f (world (slept others f cur i (spun others 100 t)))
        = Some cur) ->
     read_word f (world (slept others f cur j (spun others 100 t))) = Some v ->
     v ≠ cur ->
     wait others woken fuel f cur t =
       Some (tt, turn others (slept others f cur j (spun others 100 t))) /\
     calls (turn others (slept others f cur j (spun others 100 t))) =
       calls t ++ repeat spin 100 ++
       repeat (zx_futex_wait f cur ZX_TIME_INFINITE) j).
Proof.
  split; [|split; [|split]].
  - intros l t v Hread.
    destruct (write_word_read l (world t) v UNLOCKED Hread) as (w1 & Hw & Hr).
    eexists w1, _. split; [done|]. split; [done|].
    split; [exact (unlock_run l t v w1 Hread Hw)|].
    destruct (decide (v = LOCKED_MAYBE_WAITERS)); split; intros; done.
  - intros fuel f cur t t' Hrun. unfold wait in Hrun.
    apply bind_inv in Hrun as (r & t1 & Hspins & Hrun).
    apply wait_spins_calls in Hspins as (k & Hcalls & Hk & Hr & Hnow).
    destruct r.
    + inversion Hrun; subst. exists k, O. simpl. rewrite app_nil_r.
      repeat split; [done|lia| done |lia].
    + apply wait_sleep_calls in Hrun as (j & Hcalls' & Hnow').
      exists k, j. rewrite Hcalls', Hcalls, <- app_assoc.
      repeat split; [lia| |lia]. intros _. now apply Hr.
  - intros fuel f cur t k v Hk Hsame Hread Hne. split.
    + unfold wait.
      rewrite (bind_thread_run _ _ _ _ _
                 (wait_spins_run f cur k 100 t v Hk Hsame Hread Hne)).
      reflexivity.
    + change (calls (turn others (spun others k t)))
        with (calls (spun others k t)).
      apply spun_calls.
  - intros fuel f cur t j v Hspun Hj Hsame Hread Hne. split.
    + unfold wait.
      rewrite (bind_thread_run _ _ _ _ _ (wait_spins_all f cur 100 t Hspun)).
      exact (wait_sleep_run f cur j fuel _ v Hj Hsame Hread Hne).
    + change (calls (turn others (slept others f cur j (spun others 100 t))))
        with (calls (slept others f cur j (spun others 100 t))).
      rewrite slept_calls, spun_calls. now rewrite <- app_assoc.
Qed.

Lemma cas_state_fails a (t : @thread Mutex) w expected desired :
  waiters (world t) !! a = Some w ->
  state w ≠ expected ->
  cas_state others a expected desired t = Some (false, turn others t).
Proof.
  intros Hw Hne. unfold cas_state. run_all. rewrite Hw. simpl.
  now destruct (decide (state w = expected)).
Qed.

Lemma unlock_requeue_inv l r (t t' : @thread Mutex) :
  unlock_requeue others l r t = Some (tt, t') ->
  calls t' = calls t ++ [zx_futex_requeue l 0 UNLOCKED r 1].
Proof.
  unfold unlock_requeue, atomic_store. intros Hrun. run_in Hrun.
  destruct (write_word l UNLOCKED (world t)); simpl in Hrun; [|done].
  now inversion Hrun.
Qed.

Lemma timedwait_handoff_inv a status (t : @thread Mutex) r t' :
  timedwait_handoff others a status t = Some (r, t') ->
  exists w rest,
    waiters (world t) !! a = Some w /\
    r = (if decide ((lock_with_waiters (mutex (world t)) (waiters_delta_of w)).1
                    ≠ ZX_OK)
         then ZX_ERR_BAD_STATE else status) /\
    calls t' = calls t ++
               MutexOps_lock_with_waiters (waiters_delta_of w) :: rest.
Proof.
  unfold timedwait_handoff. intros Hrun.
  apply bind_inv in Hrun as (w & t1 & Hnode & Hrun).
  run_in Hnode.
  destruct (waiters (world t) !! a) as [w0|] eqn:Hw; simpl in Hnode; [|done].
  inversion Hnode; subst w0 t1. clear Hnode.
  apply bind_inv in Hrun as (st & t2 & Hlock & Hrun).
  unfold MutexOps_lock_with_waiters_ in Hlock. run_in Hlock.
  inversion Hlock; subst st t2. clear Hlock.
  apply bind_inv in Hrun as (w2 & t3 & Hnode & Hrun).
  run_in Hnode.
  match type of Hnode with
  | match ?o with _ => _ end _ = _ => destruct o as [w2'|]; [|done]
  end.
  inversion Hnode; subst w2' t3. clear Hnode.
  apply bind_inv in Hrun as ([] & t4 & Hrq & Hrun).
  inversion Hrun; subst r t'. clear Hrun.
  destruct (prev w2) as [p|].
  - apply bind_inv in Hrq as (w3 & t5 & Hget & Hrq).
    inversion Hget; subst w3 t5. clear Hget.
    apply unlock_requeue_inv in Hrq. simpl in Hrq.
    exists w. eexists. split; [done|]. split; [done|].
    rewrite Hrq, <- app_assoc. reflexivity.
  - inversion Hrq; subst t4. exists w, []. done.
Qed.

(** When the wait loop ended on TIMED_OUT and the CAS to LEAVING fails,
    what follows does not return OK: it returns TIMED_OUT whenever
    [lock_with_waiters] succeeds, because nothing on that path sets
    [status] back to OK. *)
Lemma timedwait_finish_not_OK fuel a (t : @thread Mutex) w r t' :
  waiters (world t) !! a = Some w ->
  state w ≠ WAITING ->
  timedwait_finish others woken fuel a ZX_ERR_TIMED_OUT t = Some (r, t') ->
  r ≠ ZX_OK /\
  ((forall m d, (lock_with_waiters m d).1 = ZX_OK) -> r = ZX_ERR_TIMED_OUT).
Proof.
  intros Hw Hne Hrun. unfold timedwait_finish in Hrun.
  rewrite (bind_thread_run _ _ _ _ _ (cas_state_fails a t w _ _ Hw Hne)) in Hrun.
  unfold timedwait_wake in Hrun.
  apply bind_inv in Hrun as ([] & t1 & _ & Hrun).
  apply timedwait_handoff_inv in Hrun as (w1 & rest & _ & -> & _).
  split.
  - now destruct (decide _).
  - intros Hok. rewrite Hok. now destruct (decide (ZX_OK ≠ ZX_OK)).
Qed.

Lemma dll_seg_lookup (h : gmap addr Waiter) pv l nx i a :
  dll_seg h pv l nx ->
  l !! i = Some a ->
  exists w, h !! a = Some w /\
            prev w = match i with O => pv | S j => l !! j end /\
            next w = match l !! S i with Some b => Some b | None => nx end.
Proof.
  revert pv i. induction l as [|b l IH]; intros pv i Hseg Hi; [done|].
  destruct Hseg as (w & Hw & Hp & Hn & Hseg).
  destruct i as [|i]; simpl in *.
  - inversion Hi; subst. exists w. split; [done|]. split; [done|].
    now destruct l.
  - destruct (IH _ _ Hseg Hi) as (w' & Hw' & Hp' & Hn').
    exists w'. split; [done|]. split; [|done].
    rewrite Hp'. now destruct i.
Qed.


End Runs.

(** ** The doubly linked list *)

Section Lists.

Implicit Types (h : gmap addr Waiter) (l : list addr) (a : addr).

Lemma dll_seg_ext h h' pv l nx :
  (forall a, a ∈ l -> links <$> h' !! a = links <$> h !! a) ->
  dll_seg h pv l nx -> dll_seg h' pv l nx.
Proof.
  revert pv. induction l as [|a l IH]; intros pv Hsame Hseg; [done|].
  destruct Hseg as (w & Hw & Hp & Hn & Hseg).
  pose proof (Hsame a ltac:(left)) as Ha. rewrite Hw in Ha.
  destruct (h' !! a) as [w'|] eqn:Hw'; [|done].
  simpl in Ha. inversion Ha as [[Hp' Hn']].
  exists w'. split; [done|]. split; [congruence|]. split; [congruence|].
  apply IH; [|done]. intros b Hb. apply Hsame. now right.
Qed.

Lemma dll_seg_frame h h' pv l nx :
  (forall a, a ∈ l -> h' !! a = h !! a) ->
  dll_seg h pv l nx -> dll_seg h' pv l nx.
Proof.
  intros Hsame. apply dll_seg_ext. intros a Ha. now rewrite Hsame.
Qed.

Lemma dll_seg_allocated h pv l nx a :
  dll_seg h pv l nx -> a ∈ l -> is_Some (h !! a).
Proof.
  revert pv. induction l as [|b l IH]; intros pv Hseg Ha.
  - now apply elem_of_nil in Ha.
  - destruct Hseg as (w & Hw & _ & _ & Hseg).
    apply elem_of_cons in Ha as [->|Ha]; [eauto|]. now apply (IH (Some b)).
Qed.

Lemma last_or_cons a l pv : last_or (a :: l) pv = last_or l (Some a).
Proof.
  unfold last_or. destruct l as [|b l]; [done|].
  change (last (a :: b :: l)) with (last (b :: l)).
  destruct (last (b :: l)) eqn:Hl; [done|].
  now apply last_None in Hl.
Qed.

Lemma dll_seg_app h pv l1 l2 nx :
  dll_seg h pv (l1 ++ l2) nx <->
  dll_seg h pv l1 (first_or l2 nx) /\ dll_seg h (last_or l1 pv) l2 nx.
Proof.
  revert pv. induction l1 as [|a l1 IH]; intros pv.
  - simpl. unfold last_or. simpl. tauto.
  - rewrite last_or_cons. simpl. split.
    + intros (w & Hw & Hp & Hn & Hseg). apply IH in Hseg as [Hs1 Hs2].
      split; [|done]. exists w. split; [done|]. split; [done|]. split; [|done].
      rewrite Hn. now destruct l1, l2.
    + intros [(w & Hw & Hp & Hn & Hs1) Hs2].
      exists w. split; [done|]. split; [done|]. split.
      * rewrite Hn. now destruct l1, l2.
      * apply IH. done.
Qed.

Lemma dll_seg_set_prev h pv pv' a l nx w :
  NoDup (a :: l) ->
  h !! a = Some w ->
  dll_seg h pv (a :: l) nx ->
  dll_seg (<[a := set_prev pv' w]> h) pv' (a :: l) nx.
Proof.
  intros Hnd Hw (w' & Hw' & Hp & Hn & Hseg). apply NoDup_cons in Hnd as [Ha _].
  rewrite Hw in Hw'. inversion Hw'; subst w'.
  exists (set_prev pv' w). rewrite lookup_insert_eq. repeat split; [done|].
  apply (dll_seg_frame h); [|done].
  intros b Hb. apply lookup_insert_ne. intros ->. done.
Qed.

Lemma dll_seg_set_next h pv l a nx nx' w :
  NoDup (l ++ [a]) ->
  h !! a = Some w ->
  dll_seg h pv (l ++ [a]) nx ->
  dll_seg (<[a := set_next nx' w]> h) pv (l ++ [a]) nx'.
Proof.
  intros Hnd Hw Hseg. apply dll_seg_app in Hseg as [Hs1 (w' & Hw' & Hp & _)].
  apply NoDup_app in Hnd as (_ & Hdisj & _).
  rewrite Hw in Hw'. inversion Hw'; subst w'.
  apply dll_seg_app. split.
  - apply (dll_seg_frame h); [|done].
    intros b Hb. apply lookup_insert_ne. intros ->.
    apply (Hdisj _ Hb). now left.
  - exists (set_next nx' w). rewrite lookup_insert_eq. done.
Qed.

Lemma hd_error_app_cons l1 a l2 :
  hd_error (l1 ++ a :: l2) = Some (hd a l1).
Proof. now destruct l1. Qed.

Lemma last_app_cons l1 a l2 :
  last (l1 ++ a :: l2) = last (a :: l2).
Proof.
  induction l1 as [|b l1 IH]; [done|].
  simpl. rewrite <- IH. now destruct (l1 ++ a :: l2) eqn:E; [destruct l1|].
Qed.

Lemma enqueue_list c h l a :
  cv_list c h l ->
  h !! a = None ->
  exists c' h', enqueue a c h = Some (c', h') /\ cv_list c' h' (a :: l).
Proof.
  intros (Hh & Ht & Hnd & Hseg) Hfresh.
  assert (a ∉ l) as Hnotin.
  { intros Ha. destruct (dll_seg_allocated _ _ _ _ _ Hseg Ha) as [w Hw].
    congruence. }
  unfold enqueue. destruct l as [|b l].
  - simpl in Hh, Ht. rewrite Ht, Hh. eexists _, _. split; [reflexivity|].
    repeat split; simpl.
    + apply NoDup_singleton.
    + eexists. rewrite lookup_insert_eq. done.
  - simpl in Hh. destruct (tail c) as [tl|] eqn:Htl; cycle 1.
    { symmetry in Ht. now apply last_None in Ht. }
    destruct Hseg as (wb & Hwb & Hp & Hn & Hseg').
    assert (a ≠ b) as Hab by (intros ->; apply Hnotin; now left).
    simpl. rewrite lookup_insert_eq. simpl. rewrite Hh. simpl.
    rewrite lookup_insert_ne by done. rewrite Hwb. simpl.
    eexists _, _. split; [reflexivity|].
    split; [done|]. split; [now rewrite last_cons_cons|].
    split; [now apply NoDup_cons|].
    eexists. split.
    { rewrite lookup_insert_ne by done. now rewrite lookup_insert_eq. }
    split; [done|]. split; [done|].
    apply (dll_seg_set_prev _ None); [done| |].
    + now rewrite lookup_insert_ne.
    + apply (dll_seg_frame h).
      * intros x Hx. apply lookup_insert_ne. intros ->. done.
      * exists wb. done.
Qed.

Lemma unlink_listed c h l1 a l2 :
  cv_list c h (l1 ++ a :: l2) ->
  exists c' h', unlink a c h = Some (c', h') /\ cv_list c' h' (l1 ++ l2).
Proof.
  intros (Hh & Ht & Hnd & Hseg).
  rewrite hd_error_app_cons in Hh. rewrite last_app_cons in Ht.
  pose proof Hnd as Hnd'.
  apply NoDup_app in Hnd' as (Hnd1 & Hdisj & Hnd2).
  apply NoDup_cons in Hnd2 as [Ha2 Hnd2].
  apply dll_seg_app in Hseg as [Hs1 (wa & Hwa & Hpa & Hna & Hs2)].
  unfold unlink. rewrite Hwa. simpl.
  destruct l1 as [|x l1 _] using rev_ind; destruct l2 as [|n l2].
  - simpl in *. rewrite Hh, Ht. simpl.
    destruct (decide (Some a = Some a)); [|done]. simpl. rewrite Hwa. simpl.
    destruct (decide (Some a = Some a)); [|done].
    eexists _, _. split; [reflexivity|].
    rewrite Hna, Hpa. unfold last_or. simpl. repeat split. apply NoDup_nil_2.
  - simpl in *. rewrite Hh.
    destruct (decide (Some a = Some a)); [|done]. simpl. rewrite Hwa. simpl.
    change (tail c = last (n :: l2)) in Ht.
    destruct (decide (tail c = Some a)) as [Heq|_].
    { exfalso. rewrite Heq in Ht. symmetry in Ht.
      apply last_Some_elem_of in Ht. done. }
    rewrite Hna. destruct Hs2 as (wn & Hwn & Hpn & Hnn & Hs2).
    rewrite Hwn. simpl. eexists _, _. split; [reflexivity|].
    split; [done|]. split; [done|]. split; [done|].
    rewrite Hpa. unfold last_or. simpl.
    apply (dll_seg_set_prev _ (Some a)); [done|done|]. exists wn. done.
  - rewrite app_nil_r. simpl in Ht.
    assert (hd a (l1 ++ [x]) ≠ a) as Hhd.
    { intros Heq. apply (Hdisj a); [|now left].
      rewrite <- Heq. destruct l1; simpl; [now left|now left]. }
    destruct (decide (head c = Some a)) as [Heq|_]; [congruence|].
    unfold last_or in Hpa. rewrite last_snoc in Hpa. rewrite Hpa.
    assert (x ≠ a) as Hxa.
    { intros ->. apply (Hdisj a); [|now left].
      apply elem_of_app. right. now left. }
    destruct (dll_seg_allocated _ _ _ _ x Hs1) as [wx Hwx].
    { apply elem_of_app. right. now left. }
    rewrite Hwx. simpl. rewrite lookup_insert_ne by done. rewrite Hwa. simpl.
    rewrite Ht. destruct (decide (Some a = Some a)); [|done].
    eexists _, _. split; [reflexivity|].
    split. { simpl. rewrite Hh. now destruct l1. }
    split. { simpl. now rewrite Hpa, last_snoc. }
    split; [done|].
    rewrite Hna. simpl. now apply (dll_seg_set_next _ _ _ _ (Some a)).
  - assert (hd a (l1 ++ [x]) ≠ a) as Hhd.
    { intros Heq. apply (Hdisj a); [|now left].
      rewrite <- Heq. destruct l1; simpl; [now left|now left]. }
    destruct (decide (head c = Some a)) as [Heq|_]; [congruence|].
    unfold last_or in Hpa. rewrite last_snoc in Hpa. rewrite Hpa.
    assert (x ≠ a) as Hxa.
    { intros ->. apply (Hdisj a); [|now left].
      apply elem_of_app. right. now left. }
    destruct (dll_seg_allocated _ _ _ _ x Hs1) as [wx Hwx].
    { apply elem_of_app. right. now left. }
    rewrite Hwx. simpl. rewrite lookup_insert_ne by done. rewrite Hwa. simpl.
    rewrite last_cons_cons in Ht.
    destruct (decide (tail c = Some a)) as [Heq|_].
    { exfalso. rewrite Heq in Ht. symmetry in Ht.
      apply last_Some_elem_of in Ht. done. }
    rewrite Hna. simpl.
    assert (x ≠ n) as Hxn.
    { intros ->. apply (Hdisj n); [|right; now left].
      apply elem_of_app. right. now left. }
    destruct Hs2 as (wn & Hwn & Hpn & Hnn & Hs2).
    rewrite lookup_insert_ne by done. rewrite Hwn. simpl.
    eexists _, _. split; [reflexivity|].
    assert (NoDup ((l1 ++ [x]) ++ n :: l2)) as Hnd3.
    { apply NoDup_app. split; [done|]. split; [|done].
      intros y Hy1 Hy2. apply (Hdisj y Hy1). now right. }
    split. { simpl. rewrite Hh. rewrite hd_error_app_cons.
             f_equal. now destruct l1. }
    split. { simpl. now rewrite Ht, last_app_cons. }
    split; [done|].
    apply dll_seg_app. split.
    + simpl. apply (dll_seg_frame (<[x := set_next (Some n) wx]> h)).
      * intros y Hy. apply lookup_insert_ne. intros Heq. subst y.
        apply (Hdisj n Hy). right. now left.
      * now apply (dll_seg_set_next _ _ _ _ (Some a)).
    + unfold last_or. rewrite last_snoc, Hpa.
      apply (dll_seg_set_prev _ (Some a)); [done| |].
      * now rewrite lookup_insert_ne.
      * apply (dll_seg_frame h).
        -- intros y Hy. apply lookup_insert_ne. intros Heq. subst y.
           apply (Hdisj x); [|now right].
           apply elem_of_app. right. now left.
        -- exists wn. done.
Qed.

Lemma unlink_detached c h l a wa :
  cv_list c h l ->
  a ∉ l ->
  h !! a = Some wa ->
  (forall p, prev wa = Some p -> (p ∉ l) /\ is_Some (h !! p)) ->
  (forall n, next wa = Some n -> (n ∉ l) /\ is_Some (h !! n)) ->
  exists h', unlink a c h = Some (c, h') /\ cv_list c h' l.
Proof.
  intros (Hh & Ht & Hnd & Hseg) Ha Hwa Hprev Hnext.
  assert (head c ≠ Some a) as Hhead.
  { intros Heq. rewrite Heq in Hh. destruct l; [done|].
    simpl in Hh. inversion Hh; subst. apply Ha. now left. }
  assert (tail c ≠ Some a) as Htail.
  { intros Heq. rewrite Heq in Ht. symmetry in Ht.
    now apply last_Some_elem_of in Ht. }
  unfold unlink. rewrite Hwa. simpl.
  destruct (decide (head c = Some a)); [done|].
  assert (exists h1 wa1,
            match prev wa with
            | Some p =>
                h !! p ≫= (fun wp => Some (c, <[p := set_next (next wa) wp]> h))
            | None => Some (c, h)
            end = Some (c, h1) /\
            h1 !! a = Some wa1 /\ prev wa1 = prev wa /\ next wa1 = next wa /\
            (forall n, is_Some (h !! n) -> is_Some (h1 !! n)) /\
            (forall x, x ∈ l -> h1 !! x = h !! x)) as
      (h1 & wa1 & -> & Hwa1 & Hp1 & Hn1 & Halloc & Hframe).
  { destruct (prev wa) as [p|] eqn:Hp.
    - destruct (Hprev p eq_refl) as [Hpl [wp Hwp]]. rewrite Hwp. simpl.
      destruct (decide (p = a)) as [->|Hpa].
      + eexists _, _. split; [reflexivity|]. rewrite lookup_insert_eq.
        split; [reflexivity|]. rewrite Hwa in Hwp. inversion Hwp; subst.
        split; [done|]. split; [done|]. split.
        * intros n' Hn'. rewrite lookup_insert_is_Some'. now right.
        * intros x Hx. apply lookup_insert_ne. intros ->. done.
      + eexists _, _. split; [reflexivity|]. rewrite lookup_insert_ne by done.
        split; [done|]. split; [done|]. split; [done|]. split.
        * intros n' Hn'. rewrite lookup_insert_is_Some'. now right.
        * intros x Hx. apply lookup_insert_ne. intros ->. done.
    - eexists _, _. split; [reflexivity|]. done. }
  simpl. rewrite Hwa1. simpl.
  destruct (decide (tail c = Some a)); [done|].
  rewrite Hn1. destruct (next wa) as [n'|] eqn:Hn.
  - destruct (Hnext n' eq_refl) as [Hnl Hsome].
    destruct (Halloc _ Hsome) as [wn Hwn]. rewrite Hwn. simpl.
    eexists. split; [reflexivity|]. repeat split; try done.
    apply (dll_seg_frame h); [|done].
    intros x Hx. rewrite lookup_insert_ne; [now apply Hframe|].
    intros ->. done.
  - eexists. split; [reflexivity|]. repeat split; try done.
    now apply (dll_seg_frame h).
Qed.

Lemma mark_links ref_addr w : links (mark ref_addr w) = links w.
Proof. unfold mark. now destruct (decide _). Qed.

Lemma state_at_insert_ne h a b w :
  a ≠ b -> state_at (<[a := w]> h) b = state_at h b.
Proof. intros Hne. unfold state_at. now rewrite lookup_insert_ne. Qed.

Lemma signal_walk_list ref_addr l1 :
  forall l2 s fuel,
    NoDup (l1 ++ l2) ->
    dll_seg (w_heap s) None (l1 ++ l2) None ->
    w_p s = last l1 ->
    (length l1 <= fuel)%nat ->
    exists s' l1' l2',
      signal_walk ref_addr fuel s = Some s' /\
      l1 = l1' ++ l2' /\
      length l2' = visits (w_n s) (map (state_at (w_heap s)) (rev l1)) /\
      w_p s' = last l1' /\
      (forall a, a ∈ l2' -> w_heap s' !! a = mark ref_addr <$> w_heap s !! a) /\
      (forall a, a ∉ l2' -> w_heap s' !! a = w_heap s !! a) /\
      ((forall a, a ∈ l2' -> state_at (w_heap s) a = WAITING) ->
       w_ref s' = w_ref s /\
       w_first s' = match w_first s with
                    | Some f => Some f
                    | None => last l2'
                    end).
Proof.
  induction l1 as [|a l1 IH] using rev_ind; intros l2 s fuel Hnd Hseg Hp Hfuel.
  - exists s, [], []. simpl in Hp. split.
    { destruct fuel; simpl; rewrite Hp; now destruct (decide (w_n s = 0)). }
    split; [done|]. split; [done|]. split; [done|].
    split; [intros a Ha; now apply elem_of_nil in Ha|]. split; [done|].
    intros _. split; [done|]. now destruct (w_first s).
  - rewrite last_snoc in Hp. rewrite rev_unit. simpl.
    destruct (decide (w_n s = 0)) as [Hn0|Hn0].
    { exists s, (l1 ++ [a]), []. split.
      { destruct fuel; simpl; now destruct (decide (w_n s = 0)). }
      rewrite app_nil_r, last_snoc.
      split; [done|]. split; [done|]. split; [done|].
      split; [intros b Hb; now apply elem_of_nil in Hb|]. split; [done|].
      intros _. split; [done|]. now destruct (w_first s). }
    rewrite length_app in Hfuel. simpl in Hfuel.
    destruct fuel as [|fuel]; [lia|].
    rewrite <- app_assoc in Hnd, Hseg. simpl in Hnd, Hseg.
    pose proof Hseg as Hseg0.
    apply dll_seg_app in Hseg0 as [_ (w & Hw & Hpw & _)].
    pose proof Hnd as Hnd0. apply NoDup_app in Hnd0 as (_ & Hdisj & _).
    assert (a ∉ l1) as Hal1 by (intros Hin; apply (Hdisj a Hin); now left).
    assert (forall h',
              (forall b, b ≠ a -> h' !! b = w_heap s !! b) ->
              map (state_at h') (rev l1) = map (state_at (w_heap s)) (rev l1))
      as Hstates.
    { intros h' Hsame. apply map_ext_in. intros b Hb. unfold state_at.
      rewrite Hsame; [done|]. intros ->. apply Hal1.
      apply list_elem_of_In. now apply in_rev. }
    assert (state_at (w_heap s) a = state w) as Hsa
      by (unfold state_at; now rewrite Hw).
    rewrite Hsa.
    simpl. destruct (decide (w_n s = 0)); [done|]. rewrite Hp. rewrite Hw. simpl.
    destruct (decide (state w = WAITING)) as [Hst|Hst].
    + rewrite lookup_insert_eq. simpl.
      edestruct (IH (a :: l2)
                   {| w_heap := <[a := set_state SIGNALED w]> (w_heap s);
                      w_p := prev w; w_n := wrap_int (w_n s - 1);
                      w_first := match w_first s with
                                 | Some f => Some f
                                 | None => Some a
                                 end;
                      w_ref := w_ref s |} fuel)
        as (s' & l1' & l2' & Hrun & Hl1 & Hlen & Hp' & Hin & Hout & Hall);
        simpl; [done| | |lia|].
      { apply (dll_seg_ext (w_heap s)); [|done]. intros b _.
        destruct (decide (a = b)) as [->|Hne].
        - now rewrite lookup_insert_eq, Hw.
        - now rewrite lookup_insert_ne. }
      { rewrite Hpw. unfold last_or. now destruct (last l1). }
      simpl in *.
      assert (w_first s = None -> match w_first s with
                                  | Some f => Some f | None => Some a end
                                  = Some a) as Hfirst by (now intros ->).
      exists s', l1', (l2' ++ [a]). split.
      { destruct (w_first s); exact Hrun. }
      split; [now rewrite Hl1, app_assoc|].
      split. { rewrite length_app, Hlen. simpl.
               rewrite Hstates; [lia|]. intros b Hb.
               now apply lookup_insert_ne. }
      split; [done|].
      assert (a ∉ l2') as Hal2.
      { intros Hin'. apply Hal1. rewrite Hl1. apply elem_of_app. now right. }
      split.
      { intros b Hb. apply elem_of_app in Hb as [Hb|Hb].
        - rewrite (Hin b Hb). rewrite lookup_insert_ne; [done|].
          intros ->. done.
        - apply list_elem_of_singleton in Hb as ->.
          rewrite (Hout a Hal2), lookup_insert_eq, Hw. simpl.
          unfold mark. now destruct (decide (state w = WAITING)). }
      split.
      { intros b Hb. rewrite Hout.
        - apply lookup_insert_ne. intros ->. apply Hb.
          apply elem_of_app. right. now left.
        - intros Hb'. apply Hb. apply elem_of_app. now left. }
      intros Hwaiting. destruct Hall as [Href Hf].
      { intros b Hb. rewrite state_at_insert_ne.
        - apply Hwaiting. apply elem_of_app. now left.
        - intros ->. done. }
      split; [done|]. rewrite Hf, last_snoc. now destruct (w_first s).
    + rewrite lookup_insert_eq. simpl.
      edestruct (IH (a :: l2)
                   {| w_heap := <[a := set_notify (Some ref_addr) w]> (w_heap s);
                      w_p := prev w; w_n := w_n s;
                      w_first := w_first s;
                      w_ref := wrap_int (w_ref s + 1) |} fuel)
        as (s' & l1' & l2' & Hrun & Hl1 & Hlen & Hp' & Hin & Hout & Hall);
        simpl; [done| | |lia|].
      { apply (dll_seg_ext (w_heap s)); [|done]. intros b _.
        destruct (decide (a = b)) as [->|Hne].
        - now rewrite lookup_insert_eq, Hw.
        - now rewrite lookup_insert_ne. }
      { rewrite Hpw. unfold last_or. now destruct (last l1). }
      simpl in *.
      exists s', l1', (l2' ++ [a]). split; [done|].
      split; [now rewrite Hl1, app_assoc|].
      split. { rewrite length_app, Hlen. simpl.
               rewrite Hstates; [lia|]. intros b Hb.
               now apply lookup_insert_ne. }
      split; [done|].
      assert (a ∉ l2') as Hal2.
      { intros Hin'. apply Hal1. rewrite Hl1. apply elem_of_app. now right. }
      split.
      { intros b Hb. apply elem_of_app in Hb as [Hb|Hb].
        - rewrite (Hin b Hb). rewrite lookup_insert_ne; [done|].
          intros ->. done.
        - apply list_elem_of_singleton in Hb as ->.
          rewrite (Hout a Hal2), lookup_insert_eq, Hw. simpl.
          unfold mark. now destruct (decide (state w = WAITING)). }
      split.
      { intros b Hb. rewrite Hout.
        - apply lookup_insert_ne. intros ->. apply Hb.
          apply elem_of_app. right. now left.
        - intros Hb'. apply Hb. apply elem_of_app. now left. }
      intros Hwaiting. exfalso. apply Hst.
      specialize (Hwaiting a). unfold state_at in Hwaiting.
      rewrite Hw in Hwaiting. apply Hwaiting. apply elem_of_app. right. now left.
Qed.

Lemma split_list c h l1 l2 :
  NoDup (l1 ++ l2) ->
  dll_seg h None (l1 ++ l2) None ->
  head c = hd_error (l1 ++ l2) ->
  exists c' h',
    split (last l1) c h = Some (c', h') /\
    cv_list c' h' l1 /\
    dll_seg h' None l2 None /\
    (forall a, state <$> h' !! a = state <$> h !! a) /\
    (forall a, notify <$> h' !! a = notify <$> h !! a) /\
    (forall a, a ∉ l1 ++ l2 -> h' !! a = h !! a) /\
    (l2 = [] -> h' = h).
Proof.
  intros Hnd Hseg Hh. unfold split.
  destruct l1 as [|a l1 _] using rev_ind.
  - simpl in *. eexists _, _. split; [reflexivity|].
    split; [repeat split; apply NoDup_nil_2|]. done.
  - rewrite last_snoc.
    pose proof Hseg as Hseg0.
    apply dll_seg_app in Hseg0 as [Hs1 Hs2].
    pose proof Hs1 as Hs1'.
    apply dll_seg_app in Hs1' as [_ (wa & Hwa & Hpa & Hna & _)].
    simpl in Hna.
    pose proof Hnd as Hnd0.
    apply NoDup_app in Hnd0 as (Hnd1 & Hdisj & Hnd2).
    rewrite Hwa. simpl. rewrite Hna.
    assert (head c = hd_error (l1 ++ [a])) as Hh'.
    { rewrite Hh. now destruct l1. }
    destruct l2 as [|b l2].
    + simpl. rewrite Hwa. simpl.
      assert (<[a := set_next None wa]> h = h) as Hid.
      { apply insert_id. rewrite Hwa. f_equal. destruct wa. simpl in *.
        now subst. }
      rewrite Hid. eexists _, _. split; [reflexivity|].
      split. { rewrite app_nil_r in *. split; [done|]. split; [|done].
               simpl. now rewrite last_snoc. }
      done.
    + simpl. unfold last_or in Hs2. rewrite last_snoc in Hs2.
      destruct Hs2 as (wb & Hwb & Hpb & Hnb & Hs2).
      assert (a ≠ b) as Hab.
      { intros ->. apply (Hdisj b); [|now left].
        apply elem_of_app. right. now left. }
      rewrite Hwb. simpl. rewrite lookup_insert_ne by done.
      rewrite Hwa. simpl. eexists _, _. split; [reflexivity|].
      split.
      { split; [done|]. split; [simpl; now rewrite last_snoc|].
        split; [done|].
        apply (dll_seg_set_next _ _ _ _ (Some b)); [done| |].
        - now rewrite lookup_insert_ne.
        - apply (dll_seg_frame h); [|done].
          intros x Hx. apply lookup_insert_ne. intros Heq; subst x.
          apply (Hdisj b Hx). now left. }
      split.
      { change (dll_seg (<[a := set_next None wa]> (<[b := set_prev None wb]> h))
                  None (b :: l2) None).
        apply (dll_seg_frame (<[b := set_prev None wb]> h)).
        - intros x Hx. apply lookup_insert_ne. intros Heq; subst x.
          apply (Hdisj a); [|done]. apply elem_of_app. right. now left.
        - apply (dll_seg_set_prev _ (Some a)); [done|done|].
          exists wb. done. }
      split.
      { intros x. destruct (decide (a = x)) as [->|Hax].
        - now rewrite lookup_insert_eq, Hwa.
        - rewrite lookup_insert_ne by done.
          destruct (decide (b = x)) as [->|Hbx].
          + now rewrite lookup_insert_eq, Hwb.
          + now rewrite lookup_insert_ne. }
      split.
      { intros x. destruct (decide (a = x)) as [->|Hax].
        - now rewrite lookup_insert_eq, Hwa.
        - rewrite lookup_insert_ne by done.
          destruct (decide (b = x)) as [->|Hbx].
          + now rewrite lookup_insert_eq, Hwb.
          + now rewrite lookup_insert_ne. }
      split; [|done].
      intros x Hx. rewrite !lookup_insert_ne; [done| |].
      * intros Heq; subst x. apply Hx. apply elem_of_app. right. now left.
      * intros Heq; subst x. apply Hx. apply elem_of_app. left.
        apply elem_of_app. right. now left.
Qed.

Lemma mark_state ref_addr w :
  state (mark ref_addr w) =
    if decide (state w = WAITING) then SIGNALED else state w.
Proof. unfold mark. now destruct (decide _). Qed.

(** What [signal] does to the list while it holds the lock: it visits the
    [visits] oldest nodes [l2], marks them, and detaches them. *)
Lemma signal_locked_list ref_addr fuel n c h l :
  cv_list c h l ->
  (length l <= fuel)%nat ->
  exists c' h' l1 l2 first ref,
    signal_locked ref_addr fuel n c h = Some (c', h', first, ref) /\
    l = l1 ++ l2 /\
    length l2 = visits n (map (state_at h) (rev l)) /\
    cv_list c' h' l1 /\
    dll_seg h' None l2 None /\
    (forall a, a ∈ l2 ->
       state <$> h' !! a = state <$> (mark ref_addr <$> h !! a)) /\
    (forall a, a ∉ l2 -> state <$> h' !! a = state <$> h !! a) /\
    (forall a, a ∉ l -> h' !! a = h !! a) /\
    (l2 = [] -> h' = h) /\
    ((forall a, a ∈ l2 -> state_at h a = WAITING) ->
     ref = 0 /\ first = last l2).
Proof.
  intros (Hh & Ht & Hnd & Hseg) Hfuel. unfold signal_locked.
  destruct (signal_walk_list ref_addr l []
              {| w_heap := h; w_p := tail c; w_n := n; w_first := None;
                 w_ref := 0 |} fuel)
    as (s' & l1 & l2 & Hrun & Hl & Hlen & Hp & Hin & Hout & Hall);
    simpl; rewrite ?app_nil_r; try done.
  simpl in *. rewrite Hrun. simpl.
  assert (dll_seg (w_heap s') None (l1 ++ l2) None) as Hseg'.
  { rewrite <- Hl. apply (dll_seg_ext h); [|done]. intros a _.
    destruct (decide (a ∈ l2)) as [Ha|Ha].
    - rewrite (Hin a Ha). destruct (h !! a); [|done]. simpl.
      now rewrite mark_links.
    - now rewrite (Hout a Ha). }
  destruct (split_list c (w_heap s') l1 l2)
    as (c' & h' & Hsplit & Hlist & Hchain & Hst & Hnt & Hframe & Hempty).
  { now rewrite <- Hl. }
  { done. }
  { now rewrite <- Hl. }
  rewrite Hp, Hsplit. simpl.
  exists c', h', l1, l2, (w_first s'), (w_ref s').
  split; [done|]. split; [done|]. split; [done|]. split; [done|].
  split; [done|].
  split. { intros a Ha. now rewrite Hst, (Hin a Ha). }
  split. { intros a Ha. now rewrite Hst, (Hout a Ha). }
  split. { intros a Ha. rewrite Hframe by now rewrite <- Hl.
           apply Hout. intros Ha'. apply Ha. rewrite Hl.
           apply elem_of_app. now right. }
  split. { intros ->. rewrite (Hempty eq_refl). apply map_eq. intros a.
           now apply Hout. }
  exact Hall.
Qed.

Lemma visits_waiting n m :
  0 <= n < 2 ^ 31 ->
  visits n (repeat WAITING m) = Nat.min (Z.to_nat n) m.
Proof.
  revert n. induction m as [|m IH]; intros n Hn; simpl; [lia|].
  destruct (decide (n = 0)) as [->|Hn0]; [done|].
  rewrite wrap_int_small by lia. rewrite IH by lia. lia.
Qed.

Lemma visits_all n m :
  n < 0 -> - 2 ^ 31 <= n - Z.of_nat m ->
  visits n (repeat WAITING m) = m.
Proof.
  revert n. induction m as [|m IH]; intros n Hn Hm; simpl; [done|].
  destruct (decide (n = 0)) as [->|Hn0]; [lia|].
  rewrite wrap_int_small by lia. rewrite IH by lia. done.
Qed.

Lemma reaches_snoc link (h : gmap addr Waiter) a b c w :
  reaches link h a b -> h !! b = Some w -> link w = Some c ->
  is_Some (h !! c) -> reaches link h a c.
Proof.
  intros Hab Hw Hl Hc. induction Hab as [a Ha|a b' c' w' Hw' Hl' _ IH].
  - apply (reaches_step _ _ a c c w); [done|done|]. now apply reaches_here.
  - apply (reaches_step _ _ a b' c w'); [done|done|]. now apply IH.
Qed.

Lemma dll_reaches h a l :
  forall pv nx tl,
    dll_seg h pv (a :: l) nx -> last (a :: l) = Some tl ->
    reaches next h a tl /\ reaches prev h tl a.
Proof.
  revert a. induction l as [|b l IH]; intros a pv nx tl Hseg Hl.
  - simpl in Hl. inversion Hl; subst tl.
    destruct Hseg as (w & Hw & _). split; apply reaches_here; eauto.
  - rewrite last_cons_cons in Hl.
    destruct Hseg as (w & Hw & Hp & Hn & Hseg).
    destruct (IH b (Some a) nx tl Hseg Hl) as [Hnext Hprev].
    destruct Hseg as (wb & Hwb & Hpb & _).
    split.
    + now apply (reaches_step _ _ a b tl w).
    + apply (reaches_snoc _ _ _ b a wb); eauto.
Qed.

Lemma cv_list_head_tail c h l : cv_list c h l -> head_tail_invariant c h.
Proof.
  intros (Hh & Ht & _ & Hseg). destruct l as [|a l].
  - now left.
  - right. destruct (last (a :: l)) as [tl|] eqn:Hl; cycle 1.
    { now apply last_None in Hl. }
    destruct (dll_reaches h a l None None tl Hseg Hl) as [Hnext Hprev].
    exists a, tl. done.
Qed.

Lemma cv_list_empty h : cv_list {| head := None; tail := None |} h [].
Proof. repeat split. apply NoDup_nil_2. Qed.

(** C5.  The list invariant ([cv_list]: [head] and [tail] bound a doubly
    linked list that ends in null on both sides) holds of the empty
    condition variable, gives the invariant as the specification words it
    ([head_tail_invariant]), and is kept by the three list edits: the
    enqueue of [timedwait] puts the fresh node in front; the self-unlink
    of a timed-out waiter takes its node out, and leaves the list alone
    when the node is on a chain [signal] detached before; the walk and
    split of [signal] leave a front part of the list. *)
Theorem list_invariant_preserved :
  (forall h, cv_list {| head := None; tail := None |} h []) /\
  (forall c h l, cv_list c h l -> head_tail_invariant c h) /\
  (forall c h l a,
     cv_list c h l -> h !! a = None ->
     exists c' h', enqueue a c h = Some (c', h') /\ cv_list c' h' (a :: l)) /\
  (forall c h l1 a l2,
     cv_list c h (l1 ++ a :: l2) ->
     exists c' h', unlink a c h = Some (c', h') /\ cv_list c' h' (l1 ++ l2)) /\
  (forall c h l a wa,
     cv_list c h l -> a ∉ l -> h !! a = Some wa ->
     (forall p, prev wa = Some p -> (p ∉ l) /\ is_Some (h !! p)) ->
     (forall n, next wa = Some n -> (n ∉ l) /\ is_Some (h !! n)) ->
     exists h', unlink a c h = Some (c, h') /\ cv_list c h' l) /\
  (forall ref_addr fuel n c h l,
     cv_list c h l -> (length l <= fuel)%nat ->
     exists c' h' first ref l1 l2,
       signal_locked ref_addr fuel n c h = Some (c', h', first, ref) /\
       l = l1 ++ l2 /\ cv_list c' h' l1).
Proof.
  split; [exact cv_list_empty|].
  split; [exact cv_list_head_tail|].
  split; [exact enqueue_list|].
  split; [exact unlink_listed|].
  split; [exact unlink_detached|].
  intros ref_addr fuel n c h l Hlist Hfuel.
  destruct (signal_locked_list ref_addr fuel n c h l Hlist Hfuel)
    as (c' & h' & l1 & l2 & first & ref & Hrun & Hl & _ & Hlist' & _).
  exists c', h', first, ref, l1, l2. done.
Qed.

(** C3.  Against [m] waiters, all WAITING, [signal(c, n)] claims the
    [min n m] oldest ones when [n >= 0] and all [m] when [n = -1]: they go
    from WAITING to SIGNALED, starting with the oldest (which is [first]),
    and are detached as one chain; no other node changes state, no waiter
    is counted in [ref], and the newer waiters stay on the list. *)
Theorem signal_claims_oldest ref_addr fuel n c h l :
  cv_list c h l ->
  (forall a, a ∈ l -> state_at h a = WAITING) ->
  (length l <= fuel)%nat ->
  0 <= n < 2 ^ 31 \/ (n = -1 /\ Z.of_nat (length l) < 2 ^ 31) ->
  exists c' h' l1 l2,
    signal_locked ref_addr fuel n c h = Some (c', h', last l2, 0) /\
    l = l1 ++ l2 /\
    length l2 = (if decide (n = -1) then length l
                 else Nat.min (Z.to_nat n) (length l)) /\
    (forall a, a ∈ l2 -> state_at h' a = SIGNALED) /\
    (forall a, a ∉ l2 -> state <$> h' !! a = state <$> h !! a) /\
    cv_list c' h' l1 /\
    dll_seg h' None l2 None.
Proof.
  intros Hlist Hwaiting Hfuel Hn.
  destruct (signal_locked_list ref_addr fuel n c h l Hlist Hfuel)
    as (c' & h' & l1 & l2 & first & ref & Hrun & Hl & Hlen & Hlist' & Hchain
        & Hin & Hout & _ & _ & Hall).
  assert (forall a, a ∈ l2 -> a ∈ l) as Hsub.
  { intros a Ha. rewrite Hl. apply elem_of_app. now right. }
  destruct Hall as [-> ->]; [intros a Ha; apply Hwaiting; auto|].
  exists c', h', l1, l2. split; [done|]. split; [done|].
  split.
  { rewrite Hlen.
    assert (map (state_at h) (rev l) = repeat WAITING (length l)) as ->.
    { rewrite <- length_rev, <- (length_map (state_at h)).
      apply Forall_eq_repeat. apply Forall_forall. intros st Hst.
      apply list_elem_of_In, in_map_iff in Hst as (a & <- & Ha).
      symmetry. apply Hwaiting. apply list_elem_of_In. now apply in_rev. }
    destruct Hn as [Hn|[-> Hm]].
    - destruct (decide (n = -1)); [lia|]. now apply visits_waiting.
    - simpl. apply visits_all; lia. }
  split; [|done].
  intros a Ha. pose proof (Hin a Ha) as Hst.
  pose proof (Hwaiting a (Hsub a Ha)) as Hw. unfold state_at in *.
  destruct Hlist as (_ & _ & _ & Hseg).
  destruct (dll_seg_allocated _ _ _ _ a Hseg (Hsub a Ha)) as [w Hwa].
  rewrite Hwa in Hst, Hw. simpl in Hst. rewrite mark_state in Hst.
  destruct (h' !! a) as [w'|]; [|done]. simpl in Hst.
  inversion Hst as [Hst']. rewrite Hst'.
  now destruct (decide (state w = WAITING)).
Qed.

Lemma signal_locked_zero ref_addr fuel c h :
  cv_inv c h -> signal_locked ref_addr fuel 0 c h = Some (c, h, None, 0).
Proof.
  intros [l Hlist]. unfold signal_locked.
  assert (signal_walk ref_addr fuel
            {| w_heap := h; w_p := tail c; w_n := 0; w_first := None;
               w_ref := 0 |}
          = Some {| w_heap := h; w_p := tail c; w_n := 0; w_first := None;
                    w_ref := 0 |}) as -> by now destruct fuel.
  simpl. pose proof Hlist as (Hh & Ht & Hnd & Hseg).
  destruct (split_list c h l [])
    as (c' & h' & Hsplit & (Hh' & Ht' & _) & _ & _ & _ & _ & Hsame);
    rewrite ?app_nil_r; try done.
  rewrite Ht, Hsplit. simpl. rewrite (Hsame eq_refl).
  destruct c as [hd tl], c' as [hd' tl']. simpl in *. congruence.
Qed.

End Lists.

Section Signal.

Context {Mutex : Type} `{MutexOps Mutex}.
Variable others : nat -> @World Mutex -> @World Mutex.
Variable woken : nat -> zx_status_t.

(** C9.  [signal(c, 0)] edits nothing: with the lock held it leaves
    [head], [tail] and every node as they are, claims no waiter and
    counts none; the calls it makes are the lock and the unlock of
    [c->lock], so no barrier is unlocked and no thread is woken.  Run
    with no other thread in between, it leaves the shared memory as it
    found it. *)
Theorem signal_zero_is_noop :
  (forall ref_addr fuel c h,
     cv_inv c h -> signal_locked ref_addr fuel 0 c h = Some (c, h, None, 0)) /\
  (forall fuel ref_addr (t : @thread Mutex),
     cv_inv (cv (world t)) (waiters (world t)) ->
     (forall k w, ints (others k w) !! ref_addr = ints w !! ref_addr) ->
     exists t',
       signal others woken fuel ref_addr 0 t = Some (tt, t') /\
       calls t' = calls t ++ [sync_mtx_lock; sync_mtx_unlock]) /\
  (forall fuel ref_addr (t : @thread Mutex),
     cv_inv (cv (world t)) (waiters (world t)) ->
     ints (world t) !! ref_addr = None ->
     signal (fun _ w => w) woken fuel ref_addr 0 t =
       Some (tt, {| world := world t; now := S (S (now t));
                    calls := calls t ++ [sync_mtx_lock; sync_mtx_unlock] |})).
Proof.
  split; [exact signal_locked_zero|]. split.
  - intros fuel ref_addr t Hinv Hothers.
    unfold signal, locked, signal_section. run_all.
    rewrite (signal_locked_zero ref_addr fuel _ _ Hinv). simpl.
    assert (forall rounds (t1 : @thread Mutex),
              ints (world t1) !! ref_addr = Some 0 ->
              signal_rendezvous others woken fuel rounds ref_addr t1
              = Some (tt, turn others t1)) as Hrdv.
    { intros rounds t1 Ht1.
      destruct rounds; simpl; unfold atomic_load; run_all; now rewrite Ht1. }
    rewrite Hrdv; cycle 1.
    { simpl. rewrite Hothers. simpl. now rewrite lookup_insert_eq. }
    simpl. eexists. split; [reflexivity|]. simpl. now rewrite <- app_assoc.
  - intros fuel ref_addr t Hinv Hfresh.
    unfold signal, locked, signal_section. run_all.
    rewrite (signal_locked_zero ref_addr fuel _ _ Hinv). simpl.
    assert (forall rounds (t1 : @thread Mutex),
              ints (world t1) !! ref_addr = Some 0 ->
              signal_rendezvous (fun _ w => w) woken fuel rounds ref_addr t1
              = Some (tt, turn (fun _ w => w) t1)) as Hrdv.
    { intros rounds t1 Ht1.
      destruct rounds; simpl; unfold atomic_load; run_all; now rewrite Ht1. }
    rewrite Hrdv; cycle 1.
    { simpl. now rewrite lookup_insert_eq. }
    simpl. rewrite <- app_assoc. simpl.
    rewrite insert_insert_eq, delete_insert_eq, delete_id by done.
    now destruct t as [[c h i m] k cs].
Qed.

End Signal.

Lemma three_list : cv_list three.1 three.2 [3; 2; 1]%positive.
Proof.
  split; [reflexivity|]. split; [reflexivity|]. split.
  - refine (bool_decide_unpack _ _). vm_compute. exact I.
  - repeat (eexists; split; [reflexivity|];
            split; [reflexivity|]; split; [reflexivity|]).
    exact I.
Qed.

Lemma chain_world_chain :
  dll_seg (waiters chain_world) None [3; 2; 1]%positive None.
Proof.
  repeat (eexists; split; [reflexivity|];
          split; [reflexivity|]; split; [reflexivity|]).
  exact I.
Qed.

(** C1 on the code, at the failing input: the waiter's futex wait ends
    with TIMED_OUT, [signal(c, 1)] claims it before its CAS, the mutex is
    taken back without error, and [timedwait] returns TIMED_OUT. *)
Lemma timedwait_TIMED_OUT_though_signaled :
  (exists t1 w1,
     (timedwait_enqueue race 1%positive ≫=
        fun _ => timedwait_wait race timeout_at_2 8 1%positive
                    (deadline_at 1000))
       (start empty_world) = Some (ZX_ERR_TIMED_OUT, t1) /\
     waiters (world t1) !! 1%positive = Some w1 /\
     state w1 = SIGNALED) /\
  timedwait race timeout_at_2 8 1%positive (deadline_at 1000)
    (start empty_world) =
    Some (ZX_ERR_TIMED_OUT,
          {| world := empty_world; now := 6;
             calls := [sync_mtx_lock; sync_mtx_unlock; MutexOps_unlock;
                       zx_futex_wait (barrier_of 1%positive)
                         LOCKED_MAYBE_WAITERS (deadline_at 1000);
                       MutexOps_lock_with_waiters 0] |}).
Proof.
  split.
  - eexists _, _. split; [vm_compute; reflexivity|].
    split; [vm_compute; reflexivity|]. reflexivity.
  - vm_compute. reflexivity.
Qed.

Lemma signal_claims_oldest_witness :
  exists c' h' l1 l2,
    signal_locked 50%positive 8 2 three.1 three.2 = Some (c', h', last l2, 0) /\
    [3; 2; 1]%positive = l1 ++ l2 /\
    length l2 = 2%nat /\
    (forall a, a ∈ l2 -> state_at h' a = SIGNALED) /\
    (forall a, a ∉ l2 -> state <$> h' !! a = state <$> three.2 !! a) /\
    cv_list c' h' l1 /\
    dll_seg h' None l2 None.
Proof.
  apply (signal_claims_oldest 50%positive 8 2 three.1 three.2
           [3; 2; 1]%positive three_list).
  - intros a Ha.
    repeat (apply elem_of_cons in Ha as [->|Ha]; [reflexivity|]).
    now apply elem_of_nil in Ha.
  - simpl. lia.
  - left. lia.
Defined.

Lemma list_invariant_preserved_witness :
  (exists c' h',
     enqueue 4%positive three.1 three.2 = Some (c', h') /\
     cv_list c' h' [4; 3; 2; 1]%positive) /\
  (exists c' h',
     unlink 2%positive three.1 three.2 = Some (c', h') /\
     cv_list c' h' [3; 1]%positive) /\
  (exists c' h' first ref l1 l2,
     signal_locked 50%positive 8 2 three.1 three.2 = Some (c', h', first, ref) /\
     [3; 2; 1]%positive = l1 ++ l2 /\ cv_list c' h' l1).
Proof.
  destruct list_invariant_preserved as (_ & _ & Henq & Hunl & _ & Hsig).
  split; [|split].
  - apply (Henq three.1 three.2 [3; 2; 1]%positive 4%positive three_list).
    reflexivity.
  - apply (Hunl three.1 three.2 [3%positive] 2%positive [1%positive] three_list).
  - apply (Hsig 50%positive 8%nat 2 three.1 three.2 [3; 2; 1]%positive three_list).
    simpl. lia.
Defined.


Lemma unlock_wakes_and_wait_spins_witness :
  (exists w1 t',
     write_word (barrier_of 1%positive) UNLOCKED (world (start three_world))
       = Some w1 /\
     read_word (barrier_of 1%positive) w1 = Some UNLOCKED /\
     unlock alone (barrier_of 1%positive) (start three_world) = Some (tt, t') /\
     calls t' = calls (start three_world) ++
                [zx_futex_wake (barrier_of 1%positive) 1]) /\
  (exists t' k j,
     wait release_at_101 never 1 (barrier_of 1%positive) LOCKED_MAYBE_WAITERS
       (start three_world) = Some (tt, t') /\
     calls t' = calls (start three_world) ++ repeat spin k ++
                repeat (zx_futex_wait (barrier_of 1%positive)
                          LOCKED_MAYBE_WAITERS ZX_TIME_INFINITE) j /\
     (j ≠ O -> k = 100%nat)) /\
  (wait release_at_101 never 1 (barrier_of 1%positive) LOCKED_MAYBE_WAITERS
     (start three_world) =
     Some (tt, turn release_at_101
                 (slept release_at_101 (barrier_of 1%positive)
                    LOCKED_MAYBE_WAITERS 1
                    (spun release_at_101 100 (start three_world)))) /\
   calls (turn release_at_101
            (slept release_at_101 (barrier_of 1%positive)
               LOCKED_MAYBE_WAITERS 1
               (spun release_at_101 100 (start three_world)))) =
     calls (start three_world) ++ repeat spin 100 ++
     repeat (zx_futex_wait (barrier_of 1%positive) LOCKED_MAYBE_WAITERS
               ZX_TIME_INFINITE) 1).
Proof.
  split; [|split].
  - destruct (proj1 (unlock_wakes_and_wait_spins alone never)
                (barrier_of 1%positive) (start three_world)
                LOCKED_MAYBE_WAITERS eq_refl)
      as (w1 & t' & Hw & Hr & Hrun & Hwake & _).
    destruct (Hwake eq_refl) as [Hcalls _].
    exists w1, t'. split; [exact Hw|]. split; [exact Hr|].
    split; [exact Hrun|exact Hcalls].
  - assert (exists t',
              wait release_at_101 never 1 (barrier_of 1%positive)
                LOCKED_MAYBE_WAITERS (start three_world) = Some (tt, t'))
      as (t' & Hrun) by (eexists; vm_compute; reflexivity).
    destruct (proj1 (proj2 (unlock_wakes_and_wait_spins release_at_101 never))
                1%nat (barrier_of 1%positive) LOCKED_MAYBE_WAITERS
                (start three_world) t' Hrun)
      as (k & j & Hcalls & _ & Hj & _).
    exists t', k, j. split; [exact Hrun|]. split; [exact Hcalls|exact Hj].
  - apply (proj2 (proj2 (proj2
                   (unlock_wakes_and_wait_spins release_at_101 never)))
             1%nat (barrier_of 1%positive) LOCKED_MAYBE_WAITERS
             (start three_world) 1%nat UNLOCKED).
    + intros i Hi.
      do 100 (destruct i as [|i]; [vm_compute; reflexivity|]). lia.
    + lia.
    + intros i Hi. destruct i as [|i]; [vm_compute; reflexivity|lia].
    + vm_compute. reflexivity.
    + discriminate.
Defined.

Lemma signal_zero_is_noop_witness :
  signal_locked 50%positive 8 0 three.1 three.2 = Some (three.1, three.2, None, 0) /\
  signal (fun _ w => w) never 8 50%positive 0 (start three_world) =
    Some (tt, {| world := world (start three_world);
                 now := S (S (now (start three_world)));
                 calls := calls (start three_world) ++
                          [sync_mtx_lock; sync_mtx_unlock] |}).
Proof.
  destruct (signal_zero_is_noop alone never) as (Hlocked & _ & Hrun).
  split.
  - apply Hlocked. exists [3; 2; 1]%positive. exact three_list.
  - apply (Hrun 8%nat 50%positive (start three_world)).
    + exists [3; 2; 1]%positive. exact three_list.
    + reflexivity.
Defined.

(** * Further properties of the condition variable *)

Section Locks.

Context {Mutex : Type} `{MutexOps Mutex}.
Variable others : nat -> @World Mutex -> @World Mutex.
Variable woken : nat -> zx_status_t.

Lemma cas_inv f e d (t : @thread Mutex) b t' :
  cas others f e d t = Some (b, t') ->
  exists old,
    read_word f (world t) = Some old /\
    ((b = true /\ old = e /\
      exists w1, write_word f d (world t) = Some w1 /\
                 t' = {| world := others (now t) w1; now := S (now t);
                         calls := calls t |}) \/
     (b = false /\ old ≠ e /\ t' = turn others t)).
Proof.
  unfold cas. intros Hrun. run_in Hrun.
  destruct (read_word f (world t)) as [old|]; simpl in Hrun; [|done].
  exists old. split; [done|].
  destruct (decide (old = e)) as [Heq|Hne]; run_in Hrun.
  - destruct (write_word f d (world t)) as [w1|]; simpl in Hrun; [|done].
    inversion Hrun; subst. left. eauto.
  - inversion Hrun; subst. right. done.
Qed.

Lemma write_then_read f v (w w1 : @World Mutex) :
  write_word f v w = Some w1 -> read_word f w1 = Some v.
Proof.
  destruct f as [a|a|a]; simpl; [| |done].
  - destruct (waiters w !! a); simpl; [|done]. intros [= <-]. simpl.
    now rewrite lookup_insert_eq.
  - destruct (ints w !! a); simpl; [|done]. intros [= <-]. simpl.
    now rewrite lookup_insert_eq.
Qed.

Lemma wait_calls fuel f cur (t t' : @thread Mutex) :
  wait others woken fuel f cur t = Some (tt, t') ->
  exists cs, calls t' = calls t ++ cs /\ waits_only f cur cs.
Proof.
  intros Hrun. unfold wait in Hrun.
  apply bind_inv in Hrun as (r & t1 & Hspins & Hrun).
  apply wait_spins_calls in Hspins as (k & Hcalls & _).
  assert (waits_only f cur (repeat spin k)) as Hk.
  { apply Forall_forall. intros c Hc. apply list_elem_of_In in Hc.
    apply repeat_spec in Hc. now left. }
  destruct r.
  - inversion Hrun; subst. eauto.
  - apply wait_sleep_calls in Hrun as (j & Hcalls' & _).
    exists (repeat spin k ++ repeat (zx_futex_wait f cur ZX_TIME_INFINITE) j).
    split; [now rewrite Hcalls', Hcalls, <- app_assoc|].
    apply Forall_app. split; [done|].
    apply Forall_forall. intros c Hc. apply list_elem_of_In in Hc.
    apply repeat_spec in Hc. now right.
Qed.

Lemma lock_loop_inv fuel l rounds (t t' : @thread Mutex) :
  lock_loop others woken fuel rounds l t = Some (tt, t') ->
  exists w1 k cs,
    world t' = others k w1 /\
    read_word l w1 = Some LOCKED_MAYBE_WAITERS /\
    calls t' = calls t ++ cs /\
    waits_only l LOCKED_MAYBE_WAITERS cs.
Proof.
  revert t. induction rounds as [|rounds IH]; intros t; simpl; [done|].
  intros Hrun. apply bind_inv in Hrun as ([] & t1 & Hwait & Hrun).
  apply wait_calls in Hwait as (cs & Hcs & Hall).
  apply bind_inv in Hrun as (ok & t2 & Hcas & Hrun).
  apply cas_inv in Hcas as (old & _ & [(-> & _ & w1 & Hw1 & ->)|(-> & _ & ->)]).
  - inversion Hrun; subst. exists w1, (now t1), cs. simpl.
    split; [done|]. split; [now apply (write_then_read l _ (world t1))|].
    done.
  - apply IH in Hrun as (w1 & k & cs' & Hw & Hr & Hcalls & Hall').
    exists w1, k, (cs ++ cs'). split; [done|]. split; [done|].
    split; [simpl in Hcalls; now rewrite Hcalls, Hcs, <- app_assoc|].
    now apply Forall_app.
Qed.

(** X2.  When [lock] returns, the last thing this thread did to the word
    was to store a locked value: LOCKED_NO_WAITERS, and without any call,
    when it found the word UNLOCKED; LOCKED_MAYBE_WAITERS in every other
    case, so that the [unlock] that follows wakes a waiter.  On the way
    [lock] only spins and futex-waits on that word; it wakes nobody. *)
Theorem lock_stores_locked fuel l (t t' : @thread Mutex) :
  lock others woken fuel l t = Some (tt, t') ->
  exists w1 k cs,
    world t' = others k w1 /\
    calls t' = calls t ++ cs /\
    waits_only l LOCKED_MAYBE_WAITERS cs /\
    ((read_word l (world t) = Some UNLOCKED /\
      read_word l w1 = Some LOCKED_NO_WAITERS /\ cs = []) \/
     (read_word l (world t) ≠ Some UNLOCKED /\
      read_word l w1 = Some LOCKED_MAYBE_WAITERS)).
Proof.
  unfold lock. intros Hrun.
  apply bind_inv in Hrun as (ok & t1 & Hcas & Hrun).
  apply cas_inv in Hcas
    as (old & Hold & [(-> & -> & w1 & Hw1 & ->)|(-> & Hne & ->)]).
  - inversion Hrun; subst. exists w1, (now t), []. simpl.
    rewrite app_nil_r. split; [done|]. split; [done|].
    split; [apply Forall_nil_2|]. left.
    split; [done|]. split; [|done]. now apply (write_then_read l _ (world t)).
  - apply bind_inv in Hrun as (ok & t2 & Hcas & Hrun).
    apply cas_inv in Hcas as (old' & _ & Hcases).
    assert (calls t2 = calls t) as Hcalls2.
    { destruct Hcases as [(_ & _ & w1 & _ & ->)|(_ & _ & ->)]; done. }
    apply lock_loop_inv in Hrun as (w1 & k & cs & Hw & Hr & Hcalls & Hall).
    exists w1, k, cs. split; [done|]. split; [now rewrite Hcalls, Hcalls2|].
    split; [done|]. right. split; [|done]. rewrite Hold. congruence.
Qed.

Lemma write_write_back l (w w1 w2 : @World Mutex) v v' :
  read_word l w = Some v ->
  write_word l v' w = Some w1 ->
  write_word l v w1 = Some w2 ->
  w2 = w.
Proof.
  destruct l as [a|a|a]; simpl; [| |done].
  - destruct (waiters w !! a) as [n|] eqn:Hn; simpl; [|done].
    intros [= <-] [= <-]. simpl. rewrite lookup_insert_eq. simpl.
    intros [= <-]. rewrite insert_insert_eq.
    destruct w as [c h i m]. simpl in *. f_equal.
    apply insert_id. rewrite Hn. f_equal. now destruct n.
  - destruct (ints w !! a) as [n|] eqn:Hn; simpl; [|done].
    intros [= <-] [= <-]. simpl. rewrite lookup_insert_eq. simpl.
    intros [= <-]. rewrite insert_insert_eq.
    destruct w as [c h i m]. simpl in *. f_equal. now apply insert_id.
Qed.

End Locks.

Section Alone.

Context {Mutex : Type} `{MutexOps Mutex}.
Variable woken : nat -> zx_status_t.

Abbreviation nobody := (fun (_ : nat) (w : @World Mutex) => w).

(** X1.  With no other thread in between, [lock] on an UNLOCKED word
    followed by [unlock] makes no system call and leaves the shared memory
    as it was: the word went to LOCKED_NO_WAITERS and back. *)
Theorem lock_unlock_uncontended fuel l (t : @thread Mutex) :
  read_word l (world t) = Some UNLOCKED ->
  (lock nobody woken fuel l ≫= fun _ => unlock nobody l) t =
    Some (tt, {| world := world t; now := S (S (now t)); calls := calls t |}).
Proof.
  intros Hread.
  destruct (write_word_read l (world t) UNLOCKED LOCKED_NO_WAITERS Hread)
    as (w1 & Hw1 & Hr1).
  destruct (write_word_read l w1 LOCKED_NO_WAITERS UNLOCKED Hr1)
    as (w2 & Hw2 & Hr2).
  assert (w2 = world t) as -> by exact (write_write_back l _ _ _ _ _ Hread Hw1 Hw2).
  assert (lock nobody woken fuel l t
          = Some (tt, {| world := w1; now := S (now t); calls := calls t |}))
    as Hlock.
  { unfold lock, cas. run_all. rewrite Hread. simpl.
    destruct (decide (UNLOCKED = UNLOCKED)); [|done]. simpl.
    now rewrite Hw1. }
  rewrite (bind_thread_run _ _ _ _ _ Hlock).
  rewrite (unlock_run nobody l _ LOCKED_NO_WAITERS (world t)); simpl; try done.
Qed.

End Alone.

Section Waits.

Context {Mutex : Type} `{MutexOps Mutex}.
Variable others : nat -> @World Mutex -> @World Mutex.
Variable woken : nat -> zx_status_t.

Lemma locked_inv {A} (f : @World Mutex -> option (A * @World Mutex))
    (t : @thread Mutex) a t' :
  locked others f t = Some (a, t') ->
  exists w1,
    f (world t) = Some (a, w1) /\
    t' = {| world := others (now t) w1; now := S (now t);
            calls := calls t ++ [sync_mtx_lock; sync_mtx_unlock] |}.
Proof.
  unfold locked. intros Hrun. run_in Hrun.
  destruct (f (world t)) as [[a' w1]|]; simpl in Hrun; [|done].
  inversion Hrun; subst. exists w1. split; [done|].
  now rewrite <- app_assoc.
Qed.

Lemma cas_state_inv a e d (t : @thread Mutex) b t' :
  cas_state others a e d t = Some (b, t') ->
  exists w,
    waiters (world t) !! a = Some w /\
    calls t' = calls t /\
    ((b = true /\ state w = e) \/ (b = false /\ state w ≠ e)).
Proof.
  unfold cas_state. intros Hrun. run_in Hrun.
  destruct (waiters (world t) !! a) as [w|]; simpl in Hrun; [|done].
  exists w. split; [done|].
  destruct (decide (state w = e)); run_in Hrun; inversion Hrun; subst; eauto.
Qed.

Lemma timedwait_wait_inv fuel a deadline (t : @thread Mutex) st t' :
  timedwait_wait others woken fuel a deadline t = Some (st, t') ->
  exists j,
    calls t' = calls t ++
               repeat (zx_futex_wait (barrier_of a) LOCKED_MAYBE_WAITERS deadline)
                      (S j) /\
    ((st = ZX_ERR_TIMED_OUT /\ woken (pred (now t')) = ZX_ERR_TIMED_OUT) \/
     (st = ZX_OK /\
      woken (pred (pred (now t'))) ≠ ZX_ERR_TIMED_OUT /\
      exists w v, world t' = others (pred (now t')) w /\
                  read_word (barrier_of a) w = Some v /\
                  v ≠ LOCKED_MAYBE_WAITERS)).
Proof.
  revert t. induction fuel as [|fuel IH]; intros t; simpl; [done|].
  intros Hrun. apply bind_inv in Hrun as (s & t1 & Hwait & Hrun).
  pose proof Hwait as Hwait'.
  apply futex_wait_inv in Hwait' as (Hs & Hcalls & Hnow).
  destruct (decide (s = ZX_ERR_TIMED_OUT)) as [Hto|Hto].
  - inversion Hrun; subst st t'. exists O. split; [done|]. left.
    split; [done|]. rewrite Hnow. simpl. congruence.
  - apply bind_inv in Hrun as (v & t2 & Hload & Hrun).
    apply atomic_load_inv in Hload as [Hv ->].
    destruct (decide (v ≠ LOCKED_MAYBE_WAITERS)) as [Hv'|Hv'].
    + inversion Hrun; subst st t'. exists O. split; [done|]. right.
      split; [done|]. simpl. rewrite Hnow. simpl. split; [congruence|].
      exists (world t1), v. done.
    + apply IH in Hrun as (j & Hcalls' & Hst). exists (S j). split; [|done].
      rewrite Hcalls'. simpl. rewrite Hcalls, <- app_assoc. done.
Qed.

(** X3.  The loop of [timedwait] around [_zx_futex_wait] ends with OK or
    TIMED_OUT and nothing else.  It ends with TIMED_OUT exactly on a wait
    the kernel ended with TIMED_OUT; every other kernel status counts as a
    wake-up, and the loop ends with OK only after it loaded a barrier
    value other than LOCKED_MAYBE_WAITERS: a wake-up with the barrier
    still locked makes it wait again.  All its calls are futex waits on
    the node's barrier with the caller's deadline. *)
Theorem timedwait_wait_ends fuel a deadline (t : @thread Mutex) st t' :
  timedwait_wait others woken fuel a deadline t = Some (st, t') ->
  exists j,
    calls t' = calls t ++
               repeat (zx_futex_wait (barrier_of a) LOCKED_MAYBE_WAITERS deadline)
                      (S j) /\
    ((st = ZX_ERR_TIMED_OUT /\ woken (pred (now t')) = ZX_ERR_TIMED_OUT) \/
     (st = ZX_OK /\
      woken (pred (pred (now t'))) ≠ ZX_ERR_TIMED_OUT /\
      exists w v, world t' = others (pred (now t')) w /\
                  read_word (barrier_of a) w = Some v /\
                  v ≠ LOCKED_MAYBE_WAITERS)).
Proof. exact (timedwait_wait_inv fuel a deadline t st t'). Qed.

Lemma atomic_fetch_add_inv f d (t : @thread Mutex) old t1 :
  atomic_fetch_add others f d t = Some (old, t1) ->
  read_word f (world t) = Some old /\
  exists w1,
    write_word f (wrap_int (old + d)) (world t) = Some w1 /\
    t1 = {| world := others (now t) w1; now := S (now t); calls := calls t |}.
Proof.
  unfold atomic_fetch_add. intros Hrun. run_in Hrun.
  destruct (read_word f (world t)) as [v|]; simpl in Hrun; [|done].
  destruct (write_word f (wrap_int (v + d)) (world t)) as [w1|] eqn:Hw1;
    simpl in Hrun; [|done].
  inversion Hrun; subst. eauto.
Qed.

Lemma atomic_store_inv f v (t : @thread Mutex) t1 :
  atomic_store others f v t = Some (tt, t1) ->
  exists w1,
    write_word f v (world t) = Some w1 /\
    t1 = {| world := others (now t) w1; now := S (now t); calls := calls t |}.
Proof.
  unfold atomic_store. intros Hrun. run_in Hrun.
  destruct (write_word f v (world t)) as [w1|]; simpl in Hrun; [|done].
  inversion Hrun; subst. eauto.
Qed.

Lemma timedwait_leave_inv a (t : @thread Mutex) r t' :
  timedwait_leave others a t = Some (r, t') ->
  exists wake m,
    calls t' = calls t ++ [sync_mtx_lock; sync_mtx_unlock] ++ wake ++
               [MutexOps_lock] /\
    (wake = [] \/ exists c, wake = [zx_futex_wake (int_at c) 1]) /\
    r = (if decide ((lock_mutex m).1 ≠ ZX_OK) then ZX_ERR_BAD_STATE
         else ZX_ERR_TIMED_OUT).
Proof.
  unfold timedwait_leave. intros Hrun.
  apply bind_inv in Hrun as ([] & t1 & Hlocked & Hrun).
  apply locked_inv in Hlocked as (w1 & _ & ->).
  apply bind_inv in Hrun as (node & t2 & Hnode & Hrun).
  run_in Hnode.
  match type of Hnode with
  | match ?o with _ => _ end _ = _ => destruct o as [node'|]; [|done]
  end.
  inversion Hnode; subst node' t2. clear Hnode.
  apply bind_inv in Hrun as ([] & t3 & Hnotify & Hrun).
  assert (exists wake,
            calls t3 = (calls t ++ [sync_mtx_lock; sync_mtx_unlock]) ++ wake /\
            (wake = [] \/ exists c, wake = [zx_futex_wake (int_at c) 1]))
    as (wake & Hcalls3 & Hwake).
  { destruct (notify node) as [c|].
    - apply bind_inv in Hnotify as (old & t4 & Hadd & Hnotify).
      apply atomic_fetch_add_inv in Hadd as (_ & w2 & _ & ->).
      rename old into v.
      destruct (decide (v = 1)).
      + unfold futex_wake in Hnotify. run_in Hnotify.
        inversion Hnotify; subst t3. simpl. eauto.
      + inversion Hnotify; subst t3. simpl. exists []. rewrite app_nil_r. eauto.
    - inversion Hnotify; subst t3. simpl. exists []. rewrite app_nil_r. eauto. }
  apply bind_inv in Hrun as (st & t5 & Hlock & Hrun).
  unfold MutexOps_lock_ in Hlock. run_in Hlock.
  inversion Hlock; subst st t5. clear Hlock.
  exists wake, (mutex (world t3)). split.
  - destruct (decide _); inversion Hrun; subst; simpl;
      now rewrite Hcalls3, <- !app_assoc.
  - split; [done|]. destruct (decide _); now inversion Hrun.
Qed.

(** X5.  A waiter that wins the CAS from WAITING to LEAVING does not
    return OK, whatever the other threads do: it returns TIMED_OUT, or
    BAD_STATE when the mutex cannot be taken back.  It takes [c->lock]
    once, wakes at most the one signaller that waits for it, and takes the
    mutex with the plain [lock]: it never calls [lock_with_waiters] and
    never requeues. *)
Theorem timedwait_timeout_path fuel a status (t : @thread Mutex) w r t' :
  waiters (world t) !! a = Some w ->
  state w = WAITING ->
  timedwait_finish others woken fuel a status t = Some (r, t') ->
  (r = ZX_ERR_TIMED_OUT \/ r = ZX_ERR_BAD_STATE) /\
  ((forall m, (lock_mutex m).1 = ZX_OK) -> r = ZX_ERR_TIMED_OUT) /\
  exists wake,
    calls t' = calls t ++ [sync_mtx_lock; sync_mtx_unlock] ++ wake ++
               [MutexOps_lock] /\
    (wake = [] \/ exists c, wake = [zx_futex_wake (int_at c) 1]).
Proof.
  intros Hw Hst Hrun. unfold timedwait_finish in Hrun.
  apply bind_inv in Hrun as (ok & t1 & Hcas & Hrun).
  apply cas_state_inv in Hcas as (w' & Hw' & Hcalls & Hcases).
  rewrite Hw in Hw'. inversion Hw'; subst w'.
  destruct Hcases as [[-> _]|[_ Hne]]; [|done].
  apply timedwait_leave_inv in Hrun as (wake & m & Hcalls' & Hwake & ->).
  split; [destruct (decide _); auto|].
  split.
  - intros Hok. rewrite Hok. now destruct (decide (ZX_OK ≠ ZX_OK)).
  - exists wake. now rewrite Hcalls', Hcalls.
Qed.

(** X4.  [timedwait] returns OK, TIMED_OUT or BAD_STATE and no other
    status, whatever the kernel answers to the futex waits and whatever
    the other threads do; with a mutex whose lock operations never fail
    it does not return BAD_STATE. *)
Theorem timedwait_statuses fuel a deadline (t : @thread Mutex) r t' :
  timedwait others woken fuel a deadline t = Some (r, t') ->
  (r = ZX_OK \/ r = ZX_ERR_TIMED_OUT \/ r = ZX_ERR_BAD_STATE) /\
  ((forall m, (lock_mutex m).1 = ZX_OK) ->
   (forall m d, (lock_with_waiters m d).1 = ZX_OK) ->
   r ≠ ZX_ERR_BAD_STATE).
Proof.
  unfold timedwait. intros Hrun.
  apply bind_inv in Hrun as ([] & t1 & _ & Hrun).
  apply bind_inv in Hrun as (st & t2 & Hwait & Hrun).
  apply timedwait_wait_inv in Hwait as (j & _ & Hst).
  apply bind_inv in Hrun as (r' & t3 & Hfin & Hrun).
  run_in Hrun. inversion Hrun; subst r' t'. clear Hrun.
  unfold timedwait_finish in Hfin.
  apply bind_inv in Hfin as (ok & t4 & _ & Hfin).
  destruct ok.
  - apply timedwait_leave_inv in Hfin as (wake & m & _ & _ & ->).
    split; [destruct (decide _); auto|].
    intros Hok _. rewrite Hok. now destruct (decide (ZX_OK ≠ ZX_OK)).
  - unfold timedwait_wake in Hfin.
    apply bind_inv in Hfin as ([] & t5 & _ & Hfin).
    apply timedwait_handoff_inv in Hfin as (w & rest & _ & -> & _).
    split.
    + destruct (decide _); [auto|]. destruct Hst as [[-> _]|[-> _]]; auto.
    + intros _ Hok. rewrite Hok. destruct (decide (ZX_OK ≠ ZX_OK)); [done|].
      destruct Hst as [[-> _]|[-> _]]; done.
Qed.

(** X6.  The hand-off to the next waiter of the chain does not depend on
    the mutex: after [lock_with_waiters], also when it failed and
    BAD_STATE is returned, a waiter that has a [prev] neighbour stores
    UNLOCKED into that neighbour's barrier and requeues one thread from it
    to the futex of the mutex (waking none); a waiter without [prev]
    makes no further call and writes nothing. *)
Theorem timedwait_handoff_releases a status (t : @thread Mutex) r t' :
  timedwait_handoff others a status t = Some (r, t') ->
  exists w w2,
    waiters (world t) !! a = Some w /\
    let ans := lock_with_waiters (mutex (world t)) (waiters_delta_of w) in
    let w1 := others (now t) (set_mutex ans.2 (world t)) in
    waiters w1 !! a = Some w2 /\
    r = (if decide (ans.1 ≠ ZX_OK) then ZX_ERR_BAD_STATE else status) /\
    match prev w2 with
    | Some p =>
        exists w3,
          write_word (barrier_of p) UNLOCKED w1 = Some w3 /\
          world t' = others (S (S (now t))) (others (S (now t)) w3) /\
          calls t' = calls t ++
            [MutexOps_lock_with_waiters (waiters_delta_of w);
             zx_futex_requeue (barrier_of p) 0 UNLOCKED
               (mutex_word (get_futex (mutex w1))) 1]
    | None =>
        world t' = w1 /\
        calls t' = calls t ++
                   [MutexOps_lock_with_waiters (waiters_delta_of w)]
    end.
Proof.
  unfold timedwait_handoff. intros Hrun.
  apply bind_inv in Hrun as (w & t1 & Hnode & Hrun).
  run_in Hnode.
  destruct (waiters (world t) !! a) as [w0|] eqn:Hw; simpl in Hnode; [|done].
  inversion Hnode; subst w0 t1. clear Hnode.
  apply bind_inv in Hrun as (st & t2 & Hlock & Hrun).
  unfold MutexOps_lock_with_waiters_ in Hlock. run_in Hlock.
  inversion Hlock; subst st t2. clear Hlock.
  apply bind_inv in Hrun as (w2 & t3 & Hnode & Hrun).
  run_in Hnode.
  match type of Hnode with
  | match ?o with _ => _ end _ = _ => destruct o as [w2'|] eqn:Hw2; [|done]
  end.
  inversion Hnode; subst w2' t3. clear Hnode.
  apply bind_inv in Hrun as ([] & t4 & Hrq & Hrun).
  inversion Hrun; subst r t'. clear Hrun.
  exists w, w2. split; [done|]. simpl. split; [exact Hw2|]. split; [done|].
  destruct (prev w2) as [p|].
  - apply bind_inv in Hrq as (w3 & t5 & Hget & Hrq).
    inversion Hget; subst w3 t5. clear Hget.
    unfold unlock_requeue in Hrq.
    apply bind_inv in Hrq as ([] & t6 & Hstore & Hrq).
    apply atomic_store_inv in Hstore as (w3 & Hw3 & ->).
    run_in Hrq. inversion Hrq; subst t4. simpl.
    exists w3. split; [exact Hw3|]. split; [done|].
    now rewrite <- app_assoc.
  - inversion Hrq; subst t4. done.
Qed.

Lemma unlock_inv l (t t' : @thread Mutex) :
  unlock others l t = Some (tt, t') ->
  calls t' = calls t \/ calls t' = calls t ++ [zx_futex_wake l 1].
Proof.
  unfold unlock, atomic_exchange. intros Hrun. run_in Hrun.
  destruct (read_word l (world t)) as [old|]; simpl in Hrun; [|done].
  destruct (write_word l UNLOCKED (world t)) as [w1|]; simpl in Hrun; [|done].
  destruct (decide (old = LOCKED_MAYBE_WAITERS)).
  - unfold futex_wake in Hrun. run_in Hrun. inversion Hrun; subst. now right.
  - inversion Hrun; subst. now left.
Qed.

Lemma signal_rendezvous_inv fuel rounds ref_addr (t t' : @thread Mutex) :
  signal_rendezvous others woken fuel rounds ref_addr t = Some (tt, t') ->
  exists w cs,
    world t' = others (pred (now t')) w /\
    ints w !! ref_addr = Some 0 /\
    calls t' = calls t ++ cs /\
    rendezvous_waits ref_addr cs /\
    (ints (world t) !! ref_addr = Some 0 -> t' = turn others t).
Proof.
  revert t. induction rounds as [|rounds IH]; intros t Hrun; simpl in Hrun;
    apply bind_inv in Hrun as (cur & t1 & Hload & Hrun);
    apply atomic_load_inv in Hload as [Hcur ->];
    destruct (decide (cur = 0)) as [->|Hne]; try done.
  - inversion Hrun; subst t'. exists (world t), []. simpl.
    rewrite app_nil_r. split; [done|]. split; [done|]. split; [done|].
    split; [apply Forall_nil_2|done].
  - inversion Hrun; subst t'. exists (world t), []. simpl.
    rewrite app_nil_r. split; [done|]. split; [done|]. split; [done|].
    split; [apply Forall_nil_2|done].
  - apply bind_inv in Hrun as ([] & t2 & Hwait & Hrun).
    apply (wait_calls others woken) in Hwait as (cs & Hcs & Hall).
    apply IH in Hrun as (w & cs' & Hw & Hz & Hcalls & Hall' & _).
    exists w, (cs ++ cs'). split; [done|]. split; [done|].
    split; [simpl in Hcs; now rewrite Hcalls, Hcs, <- app_assoc|].
    split.
    + apply Forall_app. split; [|done].
      eapply Forall_impl; [exact Hall|]. intros c [-> | ->]; [now left|].
      right. eauto.
    + simpl in Hcur. intros Hzero. rewrite Hzero in Hcur. congruence.
Qed.

(** X11.  The loop of [signal] on its local [ref] ends only on a load of
    0: while a waiter that was counted has not decremented [ref], [signal]
    does not get past it, whatever the other threads do.  When [ref] is 0
    at the start the loop ends after that one load, without a call.  All
    its calls are spins and futex waits on [ref], never with 0 as the
    expected value. *)
Theorem signal_rendezvous_reads_zero fuel rounds ref_addr
    (t t' : @thread Mutex) :
  signal_rendezvous others woken fuel rounds ref_addr t = Some (tt, t') ->
  exists w cs,
    world t' = others (pred (now t')) w /\
    ints w !! ref_addr = Some 0 /\
    calls t' = calls t ++ cs /\
    rendezvous_waits ref_addr cs /\
    (ints (world t) !! ref_addr = Some 0 -> t' = turn others t).
Proof. exact (signal_rendezvous_inv fuel rounds ref_addr t t'). Qed.

(** X19.  The calls of [signal], in this order: [c->lock] taken and
    released once; spins and futex waits on [ref]; and at most one futex
    wake, of one thread, on the barrier of a waiter.  It never requeues
    and never touches the caller's mutex, whatever the other threads
    do. *)
Theorem signal_call_shape fuel ref_addr n (t t' : @thread Mutex) :
  signal others woken fuel ref_addr n t = Some (tt, t') ->
  exists cs wake,
    calls t' = calls t ++ [sync_mtx_lock; sync_mtx_unlock] ++ cs ++ wake /\
    rendezvous_waits ref_addr cs /\
    (wake = [] \/ exists a, wake = [zx_futex_wake (barrier_of a) 1]).
Proof.
  unfold signal. intros Hrun. run_in Hrun.
  apply bind_inv in Hrun as (first & t1 & Hlocked & Hrun).
  apply locked_inv in Hlocked as (w1 & _ & ->).
  apply bind_inv in Hrun as ([] & t2 & Hrdv & Hrun).
  apply signal_rendezvous_inv in Hrdv as (w & cs & _ & _ & Hcalls & Hall & _).
  simpl in Hcalls.
  apply bind_inv in Hrun as ([] & t3 & Hwake & Hrun).
  run_in Hrun. inversion Hrun; subst t'. simpl. clear Hrun.
  exists cs.
  destruct first as [a|].
  - apply unlock_inv in Hwake as [Hc|Hc].
    + exists []. rewrite Hc, Hcalls, app_nil_r, <- app_assoc. eauto.
    + exists [zx_futex_wake (barrier_of a) 1].
      rewrite Hc, Hcalls, <- !app_assoc. split; [done|]. split; [done|].
      right. eauto.
  - inversion Hwake; subst t3.
    exists []. rewrite Hcalls, app_nil_r, <- app_assoc. eauto.
Qed.

Lemma lock_calls fuel l (t t' : @thread Mutex) :
  lock others woken fuel l t = Some (tt, t') ->
  exists cs, calls t' = calls t ++ cs /\ waits_only l LOCKED_MAYBE_WAITERS cs.
Proof.
  unfold lock. intros Hrun.
  apply bind_inv in Hrun as (ok & t1 & Hcas & Hrun).
  apply cas_inv in Hcas
    as (old & _ & [(-> & _ & w1 & _ & ->)|(-> & _ & ->)]).
  - inversion Hrun; subst. exists []. simpl. rewrite app_nil_r.
    split; [done|apply Forall_nil_2].
  - apply bind_inv in Hrun as (ok & t2 & Hcas & Hrun).
    apply cas_inv in Hcas as (old' & _ & Hcases).
    assert (calls t2 = calls t) as Hcalls2.
    { destruct Hcases as [(_ & _ & w1 & _ & ->)|(_ & _ & ->)]; done. }
    apply (lock_loop_inv others woken) in Hrun
      as (w1 & k & cs & _ & _ & Hcalls & Hall).
    exists cs. split; [now rewrite Hcalls, Hcalls2|done].
Qed.

Lemma timedwait_handoff_calls a status (t : @thread Mutex) r t' :
  timedwait_handoff others a status t = Some (r, t') ->
  exists d rq,
    calls t' = calls t ++ [MutexOps_lock_with_waiters d] ++ rq /\
    (rq = [] \/
     exists p m, rq = [zx_futex_requeue (barrier_of p) 0 UNLOCKED
                         (mutex_word m) 1]).
Proof.
  unfold timedwait_handoff. intros Hrun.
  apply bind_inv in Hrun as (w & t1 & Hnode & Hrun).
  run_in Hnode.
  destruct (waiters (world t) !! a) as [w0|] eqn:Hw; simpl in Hnode; [|done].
  inversion Hnode; subst w0 t1. clear Hnode.
  apply bind_inv in Hrun as (st & t2 & Hlock & Hrun).
  unfold MutexOps_lock_with_waiters_ in Hlock. run_in Hlock.
  inversion Hlock; subst st t2. clear Hlock.
  apply bind_inv in Hrun as (w2 & t3 & Hnode & Hrun).
  run_in Hnode.
  match type of Hnode with
  | match ?o with _ => _ end _ = _ => destruct o as [w2'|]; [|done]
  end.
  inversion Hnode; subst w2' t3. clear Hnode.
  apply bind_inv in Hrun as ([] & t4 & Hrq & Hrun).
  inversion Hrun; subst r t'. clear Hrun.
  exists (waiters_delta_of w).
  destruct (prev w2) as [p|].
  - apply bind_inv in Hrq as (w3 & t5 & Hget & Hrq).
    inversion Hget; subst w3 t5. clear Hget.
    apply unlock_requeue_inv in Hrq. simpl in Hrq.
    eexists. split; [rewrite Hrq, <- app_assoc; reflexivity|].
    right. eauto.
  - inversion Hrq; subst t4. exists []. simpl. split; [done|]. now left.
Qed.

(** X20.  The calls of a [timedwait] that returns, whatever the other
    threads and the kernel do.  First [c->lock] is taken and released (the
    node is put on the list) and only then the mutex is unlocked; then
    come one or more futex waits on the node's barrier with the caller's
    deadline.  After that the waiter either leaves by itself: [c->lock]
    once more, at most one wake of a signaller, the plain lock of the
    mutex, and a result other than OK; or it was claimed by a signal: it
    waits for its barrier, takes the mutex with [lock_with_waiters], and
    requeues at most one thread from a barrier to the mutex.  The mutex is
    locked again exactly once, as the last thing but that requeue. *)
Theorem timedwait_call_order fuel a deadline (t : @thread Mutex) r t' :
  timedwait others woken fuel a deadline t = Some (r, t') ->
  exists j rest,
    calls t' = calls t ++
               [sync_mtx_lock; sync_mtx_unlock; MutexOps_unlock] ++
               repeat (zx_futex_wait (barrier_of a) LOCKED_MAYBE_WAITERS
                         deadline) (S j) ++
               rest /\
    ((exists wake,
        rest = [sync_mtx_lock; sync_mtx_unlock] ++ wake ++ [MutexOps_lock] /\
        (wake = [] \/ exists c, wake = [zx_futex_wake (int_at c) 1]) /\
        r ≠ ZX_OK) \/
     (exists cs d rq,
        rest = cs ++ [MutexOps_lock_with_waiters d] ++ rq /\
        waits_only (barrier_of a) LOCKED_MAYBE_WAITERS cs /\
        (rq = [] \/
         exists p m, rq = [zx_futex_requeue (barrier_of p) 0 UNLOCKED
                             (mutex_word m) 1]))).
Proof.
  unfold timedwait. intros Hrun.
  apply bind_inv in Hrun as ([] & t1 & Henq & Hrun).
  unfold timedwait_enqueue in Henq.
  apply bind_inv in Henq as ([] & t0 & Hlocked & Henq).
  apply locked_inv in Hlocked as (w0 & _ & ->).
  unfold MutexOps_unlock_ in Henq. run_in Henq.
  inversion Henq; subst t1. clear Henq.
  apply bind_inv in Hrun as (st & t2 & Hwait & Hrun).
  apply timedwait_wait_inv in Hwait as (j & Hcalls2 & _). simpl in Hcalls2.
  apply bind_inv in Hrun as (r' & t3 & Hfin & Hrun).
  run_in Hrun. inversion Hrun; subst r' t'. clear Hrun. simpl.
  unfold timedwait_finish in Hfin.
  apply bind_inv in Hfin as (ok & t4 & Hcas & Hfin).
  apply cas_state_inv in Hcas as (w' & _ & Hcalls4 & _).
  exists j.
  destruct ok.
  - apply timedwait_leave_inv in Hfin as (wake & m & Hcalls3 & Hwake & ->).
    eexists. split.
    + rewrite Hcalls3, Hcalls4, Hcalls2, <- !app_assoc. reflexivity.
    + left. exists wake. split; [done|]. split; [done|].
      now destruct (decide _).
  - unfold timedwait_wake in Hfin.
    apply bind_inv in Hfin as ([] & t5 & Hlock & Hfin).
    apply lock_calls in Hlock as (cs & Hcalls5 & Hall).
    apply timedwait_handoff_calls in Hfin as (d & rq & Hcalls3 & Hrq).
    eexists. split.
    + rewrite Hcalls3, Hcalls5, Hcalls4, Hcalls2, <- !app_assoc. reflexivity.
    + right. exists cs, d, rq. done.
Qed.

End Waits.

Section Quiet.

Context {Mutex : Type} `{MutexOps Mutex}.
Variable woken : nat -> zx_status_t.

Abbreviation nobody := (fun (_ : nat) (w : @World Mutex) => w).

Lemma insert_field {A} (f : Waiter -> A) (h : gmap addr Waiter) p w w' b :
  h !! p = Some w -> f w' = f w ->
  f <$> <[p := w']> h !! b = f <$> h !! b.
Proof.
  intros Hp Hw. destruct (decide (p = b)) as [<-|Hne].
  - rewrite lookup_insert_eq, Hp. simpl. now rewrite Hw.
  - now rewrite lookup_insert_ne.
Qed.

Lemma unlink_payload a c (h : gmap addr Waiter) c' h' :
  unlink a c h = Some (c', h') ->
  forall b, payload <$> h' !! b = payload <$> h !! b.
Proof.
  unfold unlink. intros Hrun b.
  destruct (h !! a) as [node|] eqn:Ha; simpl in Hrun; [|done].
  assert (exists c1 h1,
            (if decide (head c = Some a)
             then Some ({| head := next node; tail := tail c |}, h)
             else match prev node with
                  | Some p => wp ← h !! p;
                              Some (c, <[p := set_next (next node) wp]> h)
                  | None => Some (c, h)
                  end) = Some (c1, h1) /\
            payload <$> h1 !! b = payload <$> h !! b /\
            (node' ← h1 !! a;
             if decide (tail c1 = Some a)
             then Some ({| head := head c1; tail := prev node' |}, h1)
             else match next node' with
                  | Some n => wn ← h1 !! n;
                              Some (c1, <[n := set_prev (prev node') wn]> h1)
                  | None => Some (c1, h1)
                  end) = Some (c', h'))
    as (c1 & h1 & _ & Hpay1 & Hrun').
  { destruct (decide (head c = Some a)); simpl in Hrun.
    - eauto.
    - destruct (prev node) as [p|]; simpl in Hrun; [|eauto].
      destruct (h !! p) as [wp|] eqn:Hp; simpl in Hrun; [|done].
      eexists _, _. split; [done|]. split; [|exact Hrun].
      now apply (insert_field payload h p wp). }
  rewrite <- Hpay1.
  destruct (h1 !! a) as [node'|]; simpl in Hrun'; [|done].
  destruct (decide (tail c1 = Some a)).
  - now inversion Hrun'.
  - destruct (next node') as [nx|]; [|now inversion Hrun'].
    destruct (h1 !! nx) as [wn|] eqn:Hn; simpl in Hrun'; [|done].
    inversion Hrun'; subst. now apply (insert_field payload h1 nx wn).
Qed.

Lemma timedwait_leave_run a (t : @thread Mutex) wa c' h' :
  unlink a (cv (world t)) (waiters (world t)) = Some (c', h') ->
  waiters (world t) !! a = Some wa ->
  (forall c, notify wa = Some c -> is_Some (ints (world t) !! c)) ->
  exists t',
    timedwait_leave nobody a t =
      Some (if decide ((lock_mutex (mutex (world t))).1 ≠ ZX_OK)
            then ZX_ERR_BAD_STATE else ZX_ERR_TIMED_OUT, t') /\
    cv (world t') = c' /\
    waiters (world t') = h' /\
    mutex (world t') = (lock_mutex (mutex (world t))).2 /\
    match notify wa with
    | None =>
        ints (world t') = ints (world t) /\
        calls t' = calls t ++ [sync_mtx_lock; sync_mtx_unlock; MutexOps_lock]
    | Some c =>
        exists v,
          ints (world t) !! c = Some v /\
          ints (world t') = <[c := wrap_int (v + -1)]> (ints (world t)) /\
          calls t' = calls t ++ [sync_mtx_lock; sync_mtx_unlock] ++
                     (if decide (v = 1) then [zx_futex_wake (int_at c) 1]
                      else []) ++ [MutexOps_lock]
    end.
Proof.
  intros Hun Hwa Hints.
  pose proof (unlink_payload _ _ _ _ _ Hun a) as Ha. rewrite Hwa in Ha.
  destruct (h' !! a) as [wa'|] eqn:Ha'; simpl in Ha; [|done].
  assert (notify wa' = notify wa) as Hnot by (inversion Ha; done).
  unfold timedwait_leave, locked, on_list. run_all. rewrite Hun.
  simpl. rewrite Ha'. simpl. rewrite Hnot.
  destruct (notify wa) as [c|].
  - destruct (Hints c eq_refl) as [v Hv].
    unfold atomic_fetch_add. run_all. rewrite Hv. simpl.
    destruct (decide (v = 1)); unfold futex_wake, MutexOps_lock_; run_all.
    + eexists. split; [destruct (decide _); reflexivity|]. simpl.
      split; [done|]. split; [done|]. split; [done|].
      exists v. split; [done|]. split; [done|].
      rewrite decide_True by done. now rewrite <- !app_assoc.
    + eexists. split; [destruct (decide _); reflexivity|]. simpl.
      split; [done|]. split; [done|]. split; [done|].
      exists v. split; [done|]. split; [done|].
      rewrite decide_False by done. now rewrite <- !app_assoc.
  - unfold MutexOps_lock_. run_all.
    eexists. split; [destruct (decide _); reflexivity|]. simpl.
    split; [done|]. split; [done|]. split; [done|].
    split; [done|]. now rewrite <- !app_assoc.
Qed.

Lemma signal_walk_barrier ref_addr fuel :
  forall s s',
    signal_walk ref_addr fuel s = Some s' ->
    forall b, barrier <$> w_heap s' !! b = barrier <$> w_heap s !! b.
Proof.
  induction fuel as [|fuel IH]; intros s s'; simpl.
  - destruct (decide (w_n s = 0)); [now intros [= <-]|].
    destruct (w_p s); [done|now intros [= <-]].
  - destruct (decide (w_n s = 0)); [now intros [= <-]|].
    destruct (w_p s) as [p|]; [|now intros [= <-]].
    destruct (w_heap s !! p) as [w|] eqn:Hw; simpl; [|done].
    destruct (decide (state w = WAITING)); rewrite lookup_insert_eq; simpl;
      intros Hrun b; rewrite (IH _ _ Hrun b); simpl;
      now apply (insert_field barrier (w_heap s) p w).
Qed.

Lemma split_barrier p c (h : gmap addr Waiter) c' h' :
  split p c h = Some (c', h') ->
  forall b, barrier <$> h' !! b = barrier <$> h !! b.
Proof.
  unfold split. destruct p as [a|]; simpl; [|now intros [= _ <-]].
  destruct (h !! a) as [w|] eqn:Hw; simpl; [|done].
  assert (forall h1,
            match next w with
            | Some nx => wn ← h !! nx; Some (<[nx := set_prev None wn]> h)
            | None => Some h
            end = Some h1 ->
            forall b, barrier <$> h1 !! b = barrier <$> h !! b) as Hfirst.
  { intros h1. destruct (next w) as [nx|]; [|now intros [= <-]].
    destruct (h !! nx) as [wn|] eqn:Hn; simpl; [|done].
    intros [= <-] b. now apply (insert_field barrier h nx wn). }
  destruct (match next w with
            | Some nx => wn ← h !! nx; Some (<[nx := set_prev None wn]> h)
            | None => Some h
            end) as [h1|]; simpl; [|done].
  specialize (Hfirst h1 eq_refl).
  destruct (h1 !! a) as [w1|] eqn:Hw1; simpl; [|done].
  intros [= _ <-] b. rewrite <- Hfirst.
  now apply (insert_field barrier h1 a w1).
Qed.

Lemma signal_locked_barrier ref_addr fuel n c (h : gmap addr Waiter)
    c' h' first ref :
  signal_locked ref_addr fuel n c h = Some (c', h', first, ref) ->
  forall b, barrier <$> h' !! b = barrier <$> h !! b.
Proof.
  unfold signal_locked. intros Hrun b.
  destruct (signal_walk ref_addr fuel _) as [s|] eqn:Hwalk; simpl in Hrun;
    [|done].
  destruct (split (w_p s) c (w_heap s)) as [[c1 h1]|] eqn:Hsplit;
    simpl in Hrun; [|done].
  inversion Hrun; subst.
  rewrite (split_barrier _ _ _ _ _ Hsplit b).
  now rewrite (signal_walk_barrier _ _ _ _ Hwalk b).
Qed.

Lemma visits_nonempty n st sts : n ≠ 0 -> visits n (st :: sts) ≠ O.
Proof. intros Hn. simpl. now destruct (decide (n = 0)). Qed.

(** X9.  With every listed waiter WAITING and no other thread in between,
    [signal(c, n)] with [n] positive or -1 unlocks the barrier of the oldest
    waiter and of no other, whatever the number of waiters it claims: the
    barriers of the others are as they were.  Apart from [c->lock] its
    only call is the futex wake of that one barrier, made when the barrier
    held LOCKED_MAYBE_WAITERS.  The local [ref] is gone afterwards. *)
Theorem signal_wakes_oldest_only fuel ref_addr n (t : @thread Mutex) l tl wt :
  cv_list (cv (world t)) (waiters (world t)) (l ++ [tl]) ->
  (forall a, a ∈ l ++ [tl] -> state_at (waiters (world t)) a = WAITING) ->
  (length (l ++ [tl]) <= fuel)%nat ->
  0 < n < 2 ^ 31 \/ (n = -1 /\ Z.of_nat (length (l ++ [tl])) < 2 ^ 31) ->
  waiters (world t) !! tl = Some wt ->
  exists t',
    signal nobody woken fuel ref_addr n t = Some (tt, t') /\
    calls t' = calls t ++ [sync_mtx_lock; sync_mtx_unlock] ++
               (if decide (barrier wt = LOCKED_MAYBE_WAITERS)
                then [zx_futex_wake (barrier_of tl) 1] else []) /\
    barrier <$> waiters (world t') !! tl = Some UNLOCKED /\
    (forall b, b ≠ tl ->
       barrier <$> waiters (world t') !! b
       = barrier <$> waiters (world t) !! b) /\
    state_at (waiters (world t')) tl = SIGNALED /\
    ints (world t') = delete ref_addr (ints (world t)).
Proof.
  intros Hlist Hwaiting Hfuel Hrange Hwt.
  assert (n ≠ 0) as Hn by (destruct Hrange as [?|[-> _]]; lia).
  destruct (signal_locked_list ref_addr fuel n _ _ _ Hlist Hfuel)
    as (c' & h' & l1 & l2 & first & ref & Hrun & Hl & Hlen & _ & _ & Hst
        & _ & _ & _ & Hall).
  pose proof (signal_locked_barrier _ _ _ _ _ _ _ _ _ Hrun) as Hbar.
  assert (last l2 = Some tl) as Hlast.
  { destruct l2 as [|x l2 _] using rev_ind.
    - exfalso. revert Hlen. rewrite rev_unit. simpl.
      now destruct (decide (n = 0)).
    - rewrite app_assoc in Hl. apply app_inj_tail in Hl as [_ ->].
      now rewrite last_snoc. }
  assert (tl ∈ l2) as Htl.
  { destruct l2 as [|x l2 _] using rev_ind; [done|].
    rewrite last_snoc in Hlast. inversion Hlast. apply elem_of_app. right.
    now left. }
  destruct Hall as [-> ->].
  { intros a Ha. apply Hwaiting. rewrite Hl. apply elem_of_app. now right. }
  pose proof (Hbar tl) as Hbt. rewrite Hwt in Hbt. simpl in Hbt.
  pose proof (Hst tl Htl) as Hstt. rewrite Hwt in Hstt. simpl in Hstt.
  rewrite mark_state in Hstt.
  specialize (Hwaiting tl). unfold state_at in Hwaiting. rewrite Hwt in Hwaiting.
  rewrite Hwaiting in Hstt by (apply elem_of_app; right; now left).
  simpl in Hstt.
  destruct (h' !! tl) as [wt'|] eqn:Hwt'; simpl in Hbt, Hstt; [|done].
  inversion Hbt as [Hbt']. inversion Hstt as [Hstt'].
  unfold signal, locked, signal_section. run_all. rewrite Hrun. simpl.
  rewrite Hlast.
  destruct fuel as [|fuel]; simpl; unfold atomic_load; run_all;
    rewrite lookup_insert_eq; simpl;
    unfold unlock, atomic_exchange; run_all; rewrite Hwt'; simpl;
    rewrite Hbt'; destruct (decide (barrier wt = LOCKED_MAYBE_WAITERS));
    unfold futex_wake; run_all; rewrite insert_insert_eq, delete_insert_eq;
    (eexists; split; [reflexivity|]; simpl; rewrite <- ?app_assoc;
     rewrite ?app_nil_r;
     split; [done|]; split; [now rewrite lookup_insert_eq|];
     split; [intros b Hb; rewrite lookup_insert_ne by done; apply Hbar|];
     split; [unfold state_at; now rewrite lookup_insert_eq|done]).
Qed.

Lemma bump_small k : Z.of_nat k < 2 ^ 31 -> bump k 0 = Z.of_nat k.
Proof.
  induction k as [|k IH]; [done|]. intros Hk. unfold bump in *. simpl.
  rewrite IH by lia. rewrite wrap_int_small; lia.
Qed.

Lemma bump_first k r : bump k (wrap_int (r + 1)) = bump (S k) r.
Proof. unfold bump. now rewrite Nat.iter_succ_r. Qed.

Lemma leavers_visited n sts :
  leavers n sts =
    length (List.filter (fun st => bool_decide (st ≠ WAITING))
                        (take (visits n sts) sts)).
Proof.
  revert n. induction sts as [|st sts IH]; intros n; simpl; [done|].
  destruct (decide (n = 0)); [done|]. simpl.
  destruct (decide (st = WAITING)) as [Hst|Hst].
  - rewrite bool_decide_false by (intros Hne; now apply Hne). apply IH.
  - rewrite bool_decide_true by done. simpl. now rewrite IH.
Qed.

Lemma not_waiting_rev (h : gmap addr Waiter) l :
  length (List.filter (fun st => bool_decide (st ≠ WAITING))
                      (map (state_at h) (rev l)))
  = length (not_waiting h l).
Proof.
  unfold not_waiting. induction l as [|a l IH]; simpl; [done|].
  rewrite map_app, List.filter_app, length_app, IH. simpl.
  destruct (bool_decide (state_at h a ≠ WAITING)); simpl; lia.
Qed.

Lemma signal_walk_ref ref_addr l1 :
  forall l2 s fuel s',
    NoDup (l1 ++ l2) ->
    dll_seg (w_heap s) None (l1 ++ l2) None ->
    w_p s = last l1 ->
    signal_walk ref_addr fuel s = Some s' ->
    w_ref s' =
      bump (leavers (w_n s) (map (state_at (w_heap s)) (rev l1))) (w_ref s).
Proof.
  induction l1 as [|a l1 IH] using rev_ind;
    intros l2 s fuel s' Hnd Hseg Hp Hrun.
  - simpl in Hp. simpl.
    destruct fuel; simpl in Hrun; rewrite Hp in Hrun;
      destruct (decide (w_n s = 0)); now inversion Hrun.
  - rewrite last_snoc in Hp. rewrite rev_unit. simpl.
    destruct (decide (w_n s = 0)) as [Hn0|Hn0].
    { destruct fuel; simpl in Hrun; destruct (decide (w_n s = 0)); try done;
        now inversion Hrun. }
    destruct fuel as [|fuel]; simpl in Hrun;
      destruct (decide (w_n s = 0)); try done; rewrite Hp in Hrun; [done|].
    rewrite <- app_assoc in Hnd, Hseg. simpl in Hnd, Hseg.
    pose proof Hseg as Hseg0.
    apply dll_seg_app in Hseg0 as [_ (w & Hw & Hpw & _)].
    pose proof Hnd as Hnd0. apply NoDup_app in Hnd0 as (_ & Hdisj & _).
    assert (a ∉ l1) as Hal1 by (intros Hin; apply (Hdisj a Hin); now left).
    assert (forall h',
              (forall b, b ≠ a -> h' !! b = w_heap s !! b) ->
              map (state_at h') (rev l1) = map (state_at (w_heap s)) (rev l1))
      as Hstates.
    { intros h' Hsame. apply map_ext_in. intros b Hb. unfold state_at.
      rewrite Hsame; [done|]. intros ->. apply Hal1.
      apply list_elem_of_In. now apply in_rev. }
    assert (state_at (w_heap s) a = state w) as Hsa
      by (unfold state_at; now rewrite Hw).
    rewrite Hsa. rewrite Hw in Hrun. simpl in Hrun.
    assert (forall w', links w' = links w ->
              dll_seg (<[a := w']> (w_heap s)) None (l1 ++ a :: l2) None)
      as Hseg1.
    { intros w' Hlinks. apply (dll_seg_ext (w_heap s)); [|done]. intros b _.
      destruct (decide (a = b)) as [->|Hne].
      - rewrite lookup_insert_eq, Hw. simpl. now rewrite Hlinks.
      - now rewrite lookup_insert_ne. }
    assert (prev w = last l1) as Hprev.
    { rewrite Hpw. unfold last_or. now destruct (last l1). }
    destruct (decide (state w = WAITING)) as [Hst|Hst];
      rewrite lookup_insert_eq in Hrun; simpl in Hrun;
      apply (IH (a :: l2)) in Hrun; simpl; try done; try (now apply Hseg1);
      simpl in Hrun; rewrite Hrun, Hstates;
      try (intros b Hb; now apply lookup_insert_ne).
    + done.
    + apply bump_first.
Qed.

Lemma payload_fields (x y : option Waiter) :
  state <$> x = state <$> y ->
  barrier <$> x = barrier <$> y ->
  notify <$> x = notify <$> y ->
  payload <$> x = payload <$> y.
Proof.
  destruct x as [x|], y as [y|]; simpl; try done.
  intros [= Hs] [= Hb] [= Hn]. unfold payload. now rewrite Hs, Hb, Hn.
Qed.

Lemma signal_locked_marks ref_addr fuel n c (h : gmap addr Waiter) l :
  cv_list c h l ->
  (length l <= fuel)%nat ->
  exists c' h' l1 l2 first ref,
    signal_locked ref_addr fuel n c h = Some (c', h', first, ref) /\
    l = l1 ++ l2 /\
    length l2 = visits n (map (state_at h) (rev l)) /\
    (forall a, a ∈ l2 ->
       payload <$> h' !! a = payload <$> (mark ref_addr <$> h !! a)) /\
    (forall a, a ∉ l2 -> payload <$> h' !! a = payload <$> h !! a) /\
    ref = bump (length (not_waiting h l2)) 0.
Proof.
  intros (Hh & Ht & Hnd & Hseg) Hfuel.
  destruct (signal_walk_list ref_addr l []
              {| w_heap := h; w_p := tail c; w_n := n; w_first := None;
                 w_ref := 0 |} fuel)
    as (s' & l1 & l2 & Hrun & Hl & Hlen & Hp & Hin & Hout & _);
    simpl; rewrite ?app_nil_r; try done.
  simpl in *.
  assert (dll_seg (w_heap s') None (l1 ++ l2) None) as Hseg'.
  { rewrite <- Hl. apply (dll_seg_ext h); [|done]. intros a _.
    destruct (decide (a ∈ l2)) as [Ha|Ha].
    - rewrite (Hin a Ha). destruct (h !! a); [|done]. simpl.
      now rewrite mark_links.
    - now rewrite (Hout a Ha). }
  destruct (split_list c (w_heap s') l1 l2)
    as (c' & h' & Hsplit & _ & _ & Hst & Hnt & _ & _).
  { now rewrite <- Hl. }
  { done. }
  { now rewrite <- Hl. }
  pose proof (split_barrier _ _ _ _ _ Hsplit) as Hbr.
  assert (forall a, payload <$> h' !! a = payload <$> w_heap s' !! a) as Hpay.
  { intros a. now apply payload_fields. }
  assert (w_ref s' = bump (leavers n (map (state_at h) (rev l))) 0) as Href.
  { apply (signal_walk_ref ref_addr l []
             {| w_heap := h; w_p := tail c; w_n := n; w_first := None;
                w_ref := 0 |} fuel s'); simpl; rewrite ?app_nil_r; done. }
  exists c', h', l1, l2, (w_first s'), (w_ref s').
  split. { unfold signal_locked. rewrite Hrun. simpl. rewrite Hp, Hsplit. done. }
  split; [done|]. split; [done|].
  split. { intros a Ha. now rewrite Hpay, (Hin a Ha). }
  split. { intros a Ha. now rewrite Hpay, (Hout a Ha). }
  rewrite Href. f_equal. rewrite leavers_visited, <- Hlen.
  rewrite Hl, rev_app_distr, map_app.
  rewrite take_app_length' by now rewrite length_map, length_rev.
  apply not_waiting_rev.
Qed.

(** X7.  A waiter that times out with no other thread in between, while
    it is WAITING and on the list, takes its own node out: the list is the
    old one without the node and keeps its invariant, the node is LEAVING,
    and state, barrier and [notify] of every other node are as before.
    It wakes nobody and touches no counter; its calls are [c->lock] taken
    and released and the plain lock of the mutex.  The result is
    TIMED_OUT, or BAD_STATE when the mutex cannot be taken back. *)
Theorem timedwait_timeout_unlinks fuel a status (t : @thread Mutex) l1 l2 wa :
  cv_list (cv (world t)) (waiters (world t)) (l1 ++ a :: l2) ->
  waiters (world t) !! a = Some wa ->
  state wa = WAITING ->
  notify wa = None ->
  exists t',
    timedwait_finish nobody woken fuel a status t =
      Some (if decide ((lock_mutex (mutex (world t))).1 ≠ ZX_OK)
            then ZX_ERR_BAD_STATE else ZX_ERR_TIMED_OUT, t') /\
    cv_list (cv (world t')) (waiters (world t')) (l1 ++ l2) /\
    payload <$> waiters (world t') !! a = Some (LEAVING, barrier wa, None) /\
    (forall b, b ≠ a ->
       payload <$> waiters (world t') !! b
       = payload <$> waiters (world t) !! b) /\
    mutex (world t') = (lock_mutex (mutex (world t))).2 /\
    ints (world t') = ints (world t) /\
    calls t' = calls t ++ [sync_mtx_lock; sync_mtx_unlock; MutexOps_lock].
Proof.
  intros Hlist Hwa Hst Hnone.
  set (h1 := <[a := set_state LEAVING wa]> (waiters (world t))).
  assert (cv_list (cv (world t)) h1 (l1 ++ a :: l2)) as Hlist1.
  { destruct Hlist as (Hhd & Htl & Hnd & Hseg). split; [done|].
    split; [done|]. split; [done|].
    apply (dll_seg_ext (waiters (world t))); [|done].
    intros b _. unfold h1. destruct (decide (a = b)) as [<-|Hne].
    - now rewrite lookup_insert_eq, Hwa.
    - now rewrite lookup_insert_ne. }
  destruct (unlink_listed _ _ _ _ _ Hlist1) as (c' & h' & Hun & Hlist').
  pose proof (unlink_payload _ _ _ _ _ Hun) as Hpay.
  destruct (timedwait_leave_run a
              {| world := {| cv := cv (world t); waiters := h1;
                             ints := ints (world t);
                             mutex := mutex (world t) |};
                 now := S (now t); calls := calls t |}
              (set_state LEAVING wa) c' h')
    as (t' & Hrun & Hc & Hh & Hm & Hnotify); simpl.
  { exact Hun. }
  { unfold h1. now rewrite lookup_insert_eq. }
  { intros c Hc. rewrite Hnone in Hc. done. }
  simpl in Hrun, Hm, Hnotify. rewrite Hnone in Hnotify.
  destruct Hnotify as [Hints Hcalls].
  exists t'. split.
  { unfold timedwait_finish, cas_state. run_all. rewrite Hwa. simpl.
    destruct (decide (state wa = WAITING)) as [_|]; [|done]. simpl.
    exact Hrun. }
  rewrite Hc, Hh. split; [done|].
  split. { rewrite Hpay. unfold h1. rewrite lookup_insert_eq. simpl.
           unfold payload. simpl. now rewrite Hnone. }
  split. { intros b Hne. rewrite Hpay. unfold h1.
           now rewrite lookup_insert_ne. }
  done.
Qed.

Lemma unlink_tail_heap a c c' (h1 : gmap addr Waiter) node :
  (tail c = Some a -> next node = None) ->
  (tail c' = Some a -> next node = None) ->
  snd <$> (if decide (tail c = Some a)
           then Some ({| head := head c; tail := prev node |}, h1)
           else match next node with
                | Some n => wn ← h1 !! n;
                            Some (c, <[n := set_prev (prev node) wn]> h1)
                | None => Some (c, h1)
                end)
  = snd <$> (if decide (tail c' = Some a)
             then Some ({| head := head c'; tail := prev node |}, h1)
             else match next node with
                  | Some n => wn ← h1 !! n;
                              Some (c', <[n := set_prev (prev node) wn]> h1)
                  | None => Some (c', h1)
                  end).
Proof.
  intros Hc Hc'.
  destruct (decide (tail c = Some a)) as [Ht|Ht];
    destruct (decide (tail c' = Some a)) as [Ht'|Ht'];
    try rewrite (Hc Ht); try rewrite (Hc' Ht'); try done.
  destruct (next node) as [n|]; [|done].
  now destruct (h1 !! n).
Qed.

Lemma unlink_heap a c c' (h : gmap addr Waiter) wa :
  h !! a = Some wa ->
  (head c = Some a -> prev wa = None) ->
  (head c' = Some a -> prev wa = None) ->
  (tail c = Some a -> next wa = None) ->
  (tail c' = Some a -> next wa = None) ->
  snd <$> unlink a c h = snd <$> unlink a c' h.
Proof.
  intros Hwa Hh Hh' Ht Ht'. unfold unlink. rewrite Hwa. simpl.
  assert (forall h1 : gmap addr Waiter,
            (h1 = h \/ exists p wp, prev wa = Some p /\ h !! p = Some wp /\
                                    h1 = <[p := set_next (next wa) wp]> h) ->
            exists node, h1 !! a = Some node /\ next node = next wa)
    as Hnode.
  { intros h1 [->|(p & wp & Hp & Hwp & ->)]; [eauto|].
    destruct (decide (p = a)) as [->|Hne].
    - rewrite lookup_insert_eq. eexists. split; [done|].
      rewrite Hwa in Hwp. now inversion Hwp.
    - rewrite lookup_insert_ne by done. eauto. }
  assert (forall c0 c0' (h1 : gmap addr Waiter),
            tail c0 = tail c -> tail c0' = tail c' ->
            (h1 = h \/ exists p wp, prev wa = Some p /\ h !! p = Some wp /\
                                    h1 = <[p := set_next (next wa) wp]> h) ->
            snd <$> (h1 !! a ≫= fun node =>
                       if decide (tail c0 = Some a)
                       then Some ({| head := head c0; tail := prev node |}, h1)
                       else match next node with
                            | Some n =>
                                wn ← h1 !! n;
                                Some (c0, <[n := set_prev (prev node) wn]> h1)
                            | None => Some (c0, h1)
                            end)
            = snd <$> (h1 !! a ≫= fun node =>
                         if decide (tail c0' = Some a)
                         then Some ({| head := head c0'; tail := prev node |}, h1)
                         else match next node with
                              | Some n =>
                                  wn ← h1 !! n;
                                  Some (c0', <[n := set_prev (prev node) wn]> h1)
                              | None => Some (c0', h1)
                              end)) as Hsecond.
  { intros c0 c0' h1 Hc0 Hc0' Hh1.
    destruct (Hnode h1 Hh1) as (node & Hn & Hnext). rewrite Hn. simpl.
    apply unlink_tail_heap.
    - rewrite Hc0, Hnext. exact Ht.
    - rewrite Hc0', Hnext. exact Ht'. }
  destruct (decide (head c = Some a)) as [Hc|Hc];
    destruct (decide (head c' = Some a)) as [Hc'|Hc']; simpl.
  - apply (Hsecond {| head := next wa; tail := tail c |}
                    {| head := next wa; tail := tail c' |} h); auto.
  - rewrite (Hh Hc). simpl.
    apply (Hsecond {| head := next wa; tail := tail c |} c' h); auto.
  - rewrite (Hh' Hc'). simpl.
    apply (Hsecond c {| head := next wa; tail := tail c' |} h); auto.
  - destruct (prev wa) as [p|] eqn:Hp; simpl;
      [|apply (Hsecond c c' h); auto].
    destruct (h !! p) as [wp|] eqn:Hwp; simpl; [|done].
    apply (Hsecond c c' (<[p := set_next (next wa) wp]> h)); [done|done|].
    right. eauto.
Qed.

Lemma unlink_chain c (h : gmap addr Waiter) l c1 a c2 :
  cv_list c h l ->
  NoDup (c1 ++ a :: c2) ->
  dll_seg h None (c1 ++ a :: c2) None ->
  (forall x, x ∈ c1 ++ a :: c2 -> x ∉ l) ->
  exists h',
    unlink a c h = Some (c, h') /\
    cv_list c h' l /\
    dll_seg h' None (c1 ++ c2) None.
Proof.
  intros Hlist Hnd Hseg Hdisj.
  assert (a ∈ c1 ++ a :: c2) as Hin by (apply elem_of_app; right; now left).
  pose proof Hseg as Hseg0.
  apply dll_seg_app in Hseg0 as [Hs1 (wa & Hwa & Hpa & Hna & Hs2)].
  assert (forall p, prev wa = Some p -> p ∈ c1 ++ a :: c2) as Hprev.
  { intros p Hp. rewrite Hpa in Hp. unfold last_or in Hp.
    destruct (last c1) as [x|] eqn:Hlast; [|done]. inversion Hp; subst x.
    apply elem_of_app. left. now apply last_Some_elem_of. }
  assert (forall n, next wa = Some n -> n ∈ c1 ++ a :: c2) as Hnext.
  { intros n Hn. rewrite Hna in Hn. destruct c2 as [|y c2]; [done|].
    inversion Hn; subst y. apply elem_of_app. right. right. now left. }
  destruct (unlink_detached c h l a wa Hlist (Hdisj a Hin) Hwa)
    as (h' & Hun & Hlist').
  { intros p Hp. split; [apply Hdisj; auto|].
    apply (dll_seg_allocated h None (c1 ++ a :: c2) None); auto. }
  { intros n Hn. split; [apply Hdisj; auto|].
    apply (dll_seg_allocated h None (c1 ++ a :: c2) None); auto. }
  exists h'. split; [done|]. split; [done|].
  destruct (unlink_listed {| head := hd_error (c1 ++ a :: c2);
                             tail := last (c1 ++ a :: c2) |} h c1 a c2)
    as (cc & hh & Hun' & _ & _ & _ & Hseg').
  { done. }
  assert (snd <$> unlink a c h
          = snd <$> unlink a {| head := hd_error (c1 ++ a :: c2);
                                tail := last (c1 ++ a :: c2) |} h) as Heq.
  { destruct Hlist as (Hh & Ht & _ & _).
    apply (unlink_heap a _ _ h wa Hwa).
    - intros Hc. exfalso. rewrite Hc in Hh. destruct l as [|x l]; [done|].
      simpl in Hh. inversion Hh; subst x. apply (Hdisj a Hin). now left.
    - simpl. intros Hc. rewrite Hpa. destruct c1 as [|x c1]; [done|].
      simpl in Hc. inversion Hc; subst x. exfalso.
      apply NoDup_cons in Hnd as [Hx _]. apply Hx.
      apply elem_of_app. right. now left.
    - intros Hc. exfalso. rewrite Hc in Ht. symmetry in Ht.
      apply last_Some_elem_of in Ht. now apply (Hdisj a Hin).
    - simpl. intros Hc. rewrite Hna. destruct c2 as [|y c2]; [done|].
      exfalso. rewrite last_app_cons in Hc.
      change (last (y :: c2)) with (last ([] ++ y :: c2)) in Hc.
      assert (a ∈ y :: c2) as Hay.
      { destruct (last (y :: c2)) as [z|] eqn:Hz.
        - simpl in Hc. rewrite Hz in Hc. inversion Hc; subst z.
          now apply last_Some_elem_of.
        - now apply last_None in Hz. }
      apply NoDup_app in Hnd as (_ & _ & Hnd2).
      apply NoDup_cons in Hnd2 as [Ha2 _]. done. }
  rewrite Hun, Hun' in Heq. simpl in Heq. inversion Heq; subst hh. done.
Qed.

(** X8.  The rendezvous with a signaller.  A waiter that is leaving after
    a [signal] visited its node is on the chain that [signal] detached,
    with the address of the signaller's counter in [notify].  With no
    other thread in between it takes its node out of that chain: the chain
    without the node is linked both ways again, the list of the condition
    variable is as it was, and state, barrier and [notify] of every node
    are unchanged.  It decrements the counter once, and wakes one thread
    on the counter exactly when it held 1, that is, when this waiter was
    the last one the signaller waits for. *)
Theorem timedwait_leaver_notifies a (t : @thread Mutex) l c1 c2 wa c v :
  cv_list (cv (world t)) (waiters (world t)) l ->
  NoDup (c1 ++ a :: c2) ->
  dll_seg (waiters (world t)) None (c1 ++ a :: c2) None ->
  (forall x, x ∈ c1 ++ a :: c2 -> x ∉ l) ->
  waiters (world t) !! a = Some wa ->
  notify wa = Some c ->
  ints (world t) !! c = Some v ->
  exists t',
    timedwait_leave nobody a t =
      Some (if decide ((lock_mutex (mutex (world t))).1 ≠ ZX_OK)
            then ZX_ERR_BAD_STATE else ZX_ERR_TIMED_OUT, t') /\
    cv (world t') = cv (world t) /\
    cv_list (cv (world t')) (waiters (world t')) l /\
    dll_seg (waiters (world t')) None (c1 ++ c2) None /\
    (forall b, payload <$> waiters (world t') !! b
               = payload <$> waiters (world t) !! b) /\
    ints (world t') = <[c := wrap_int (v + -1)]> (ints (world t)) /\
    calls t' = calls t ++ [sync_mtx_lock; sync_mtx_unlock] ++
               (if decide (v = 1) then [zx_futex_wake (int_at c) 1] else []) ++
               [MutexOps_lock].
Proof.
  intros Hlist Hnd Hseg Hdisj Hwa Hnot Hv.
  destruct (unlink_chain _ _ _ _ _ _ Hlist Hnd Hseg Hdisj)
    as (h' & Hun & Hlist' & Hseg').
  pose proof (unlink_payload _ _ _ _ _ Hun) as Hpay.
  destruct (timedwait_leave_run a t wa _ h' Hun Hwa)
    as (t' & Hrun & Hc & Hh & _ & Hnotify).
  { intros c0 Hc0. rewrite Hnot in Hc0. inversion Hc0; subst c0. eauto. }
  rewrite Hnot in Hnotify. destruct Hnotify as (v' & Hv' & Hints & Hcalls).
  rewrite Hv in Hv'. inversion Hv'; subst v'.
  exists t'. rewrite Hc, Hh. done.
Qed.

(** X10.  What [signal] leaves in [ref] while it holds [c->lock]: the
    number of nodes it visited and did not find WAITING.  Each of those
    keeps its state and barrier and gets the address of [ref] in
    [notify]; each visited node that was WAITING becomes SIGNALED and
    keeps barrier and [notify]; the nodes not visited keep all three. *)
Theorem signal_counts_leavers ref_addr fuel n c (h : gmap addr Waiter) l :
  cv_list c h l ->
  (length l <= fuel)%nat ->
  Z.of_nat (length l) < 2 ^ 31 ->
  0 <= n < 2 ^ 31 \/ n = -1 ->
  exists c' h' l1 l2 first ref,
    signal_locked ref_addr fuel n c h = Some (c', h', first, ref) /\
    l = l1 ++ l2 /\
    length l2 = visits n (map (state_at h) (rev l)) /\
    ref = Z.of_nat (length (not_waiting h l2)) /\
    (forall a w, a ∈ l2 -> h !! a = Some w -> state w ≠ WAITING ->
       payload <$> h' !! a = Some (state w, barrier w, Some ref_addr)) /\
    (forall a w, a ∈ l2 -> h !! a = Some w -> state w = WAITING ->
       payload <$> h' !! a = Some (SIGNALED, barrier w, notify w)) /\
    (forall a, a ∉ l2 -> payload <$> h' !! a = payload <$> h !! a).
Proof.
  intros Hlist Hfuel Hlen _.
  destruct (signal_locked_marks ref_addr fuel n c h l Hlist Hfuel)
    as (c' & h' & l1 & l2 & first & ref & Hrun & Hl & Hvis & Hin & Hout & Href).
  exists c', h', l1, l2, first, ref.
  split; [done|]. split; [done|]. split; [done|].
  split.
  { rewrite Href. apply bump_small.
    assert (length (not_waiting h l2) <= length l)%nat; [|lia].
    unfold not_waiting. etransitivity; [apply List.filter_length_le|].
    rewrite Hl, length_app. lia. }
  split.
  { intros a w Ha Hw Hst. rewrite (Hin a Ha), Hw. simpl. unfold mark.
    now destruct (decide (state w = WAITING)). }
  split; [|done].
  intros a w Ha Hw Hst. rewrite (Hin a Ha), Hw. simpl. unfold mark.
  now destruct (decide (state w = WAITING)).
Qed.

End Quiet.


Lemma lock_stores_locked_witness :
  exists t' w1 k cs,
    lock release_at_101 never 1 (barrier_of 1%positive) (start three_world)
      = Some (tt, t') /\
    world t' = release_at_101 k w1 /\
    calls t' = calls (start three_world) ++ cs /\
    waits_only (barrier_of 1%positive) LOCKED_MAYBE_WAITERS cs /\
    read_word (barrier_of 1%positive) w1 = Some LOCKED_MAYBE_WAITERS.
Proof.
  assert (exists t',
            lock release_at_101 never 1 (barrier_of 1%positive)
              (start three_world) = Some (tt, t'))
    as (t' & Hrun) by (eexists; vm_compute; reflexivity).
  destruct (lock_stores_locked release_at_101 never 1 (barrier_of 1%positive)
              (start three_world) t' Hrun)
    as (w1 & k & cs & Hw & Hcalls & Hall & [(Hread & _)|(_ & Hread)]).
  - exfalso. vm_compute in Hread. discriminate Hread.
  - exists t', w1, k, cs. split; [exact Hrun|]. split; [exact Hw|].
    split; [exact Hcalls|]. split; [exact Hall|exact Hread].
Defined.

Lemma lock_unlock_uncontended_witness :
  (lock (fun (_ : nat) (w : @World Z) => w) never 4 (int_at 60%positive) ≫=
     fun _ => unlock (fun (_ : nat) (w : @World Z) => w) (int_at 60%positive))
    (start counter_world) =
    Some (tt, {| world := world (start counter_world);
                 now := S (S (now (start counter_world)));
                 calls := calls (start counter_world) |}).
Proof.
  apply (lock_unlock_uncontended never 4 (int_at 60%positive)
           (start counter_world)).
  reflexivity.
Defined.

Lemma timedwait_wait_ends_witness :
  exists t' j,
    timedwait_wait alone timeout_at_2 2 1%positive (deadline_at 1000)
      (start three_world) = Some (ZX_ERR_TIMED_OUT, t') /\
    calls t' = calls (start three_world) ++
               repeat (zx_futex_wait (barrier_of 1%positive)
                         LOCKED_MAYBE_WAITERS (deadline_at 1000)) (S j).
Proof.
  assert (exists t',
            timedwait_wait alone timeout_at_2 2 1%positive (deadline_at 1000)
              (start three_world) = Some (ZX_ERR_TIMED_OUT, t'))
    as (t' & Hrun) by (eexists; vm_compute; reflexivity).
  destruct (timedwait_wait_ends alone timeout_at_2 2 1%positive
              (deadline_at 1000) (start three_world) ZX_ERR_TIMED_OUT t' Hrun)
    as (j & Hcalls & _).
  exists t', j. split; [exact Hrun|exact Hcalls].
Defined.

Lemma timedwait_timeout_path_witness :
  exists w r t' wake,
    waiters (world (start three_world)) !! 2%positive = Some w /\
    state w = WAITING /\
    timedwait_finish alone never 1 2%positive ZX_ERR_TIMED_OUT
      (start three_world) = Some (r, t') /\
    r = ZX_ERR_TIMED_OUT /\
    calls t' = calls (start three_world) ++
               [sync_mtx_lock; sync_mtx_unlock] ++ wake ++ [MutexOps_lock].
Proof.
  assert (exists w, waiters (world (start three_world)) !! 2%positive = Some w
                    /\ state w = WAITING)
    as (w & Hw & Hst) by (eexists; split; vm_compute; reflexivity).
  assert (exists r t',
            timedwait_finish alone never 1 2%positive ZX_ERR_TIMED_OUT
              (start three_world) = Some (r, t'))
    as (r & t' & Hrun) by (eexists _, _; vm_compute; reflexivity).
  destruct (timedwait_timeout_path alone never 1 2%positive ZX_ERR_TIMED_OUT
              (start three_world) w r t' Hw Hst Hrun)
    as (_ & Hok & wake & Hcalls & _).
  exists w, r, t', wake. split; [exact Hw|]. split; [exact Hst|].
  split; [exact Hrun|]. split; [|exact Hcalls].
  apply Hok. intros m. reflexivity.
Defined.

Lemma timedwait_statuses_witness :
  exists r t',
    timedwait race timeout_at_2 8 1%positive (deadline_at 1000)
      (start empty_world) = Some (r, t') /\
    (r = ZX_OK \/ r = ZX_ERR_TIMED_OUT \/ r = ZX_ERR_BAD_STATE) /\
    r ≠ ZX_ERR_BAD_STATE.
Proof.
  assert (exists r t',
            timedwait race timeout_at_2 8 1%positive (deadline_at 1000)
              (start empty_world) = Some (r, t'))
    as (r & t' & Hrun) by (eexists _, _; vm_compute; reflexivity).
  destruct (timedwait_statuses race timeout_at_2 8 1%positive
              (deadline_at 1000) (start empty_world) r t' Hrun)
    as [Hr Hok].
  exists r, t'. split; [exact Hrun|]. split; [exact Hr|].
  apply Hok; intros; reflexivity.
Defined.

Lemma timedwait_handoff_releases_witness :
  exists r t' w w2,
    timedwait_handoff alone 1%positive ZX_OK (start chain_world)
      = Some (r, t') /\
    waiters (world (start chain_world)) !! 1%positive = Some w /\
    waiters
      (alone (now (start chain_world))
         (set_mutex
            (lock_with_waiters (mutex (world (start chain_world)))
               (waiters_delta_of w)).2
            (world (start chain_world)))) !! 1%positive = Some w2.
Proof.
  assert (exists r t',
            timedwait_handoff alone 1%positive ZX_OK (start chain_world)
            = Some (r, t')) as (r & t' & Hrun)
    by (eexists _, _; vm_compute; reflexivity).
  destruct (timedwait_handoff_releases alone 1%positive ZX_OK
              (start chain_world) r t' Hrun)
    as (w & w2 & Hw & Hw2 & _).
  exists r, t', w, w2. split; [exact Hrun|]. split; [exact Hw|exact Hw2].
Defined.

Lemma signal_rendezvous_reads_zero_witness :
  exists t' w cs,
    signal_rendezvous alone never 1 1 60%positive (start counter_world)
      = Some (tt, t') /\
    world t' = alone (pred (now t')) w /\
    ints w !! 60%positive = Some 0 /\
    calls t' = calls (start counter_world) ++ cs.
Proof.
  assert (exists t',
            signal_rendezvous alone never 1 1 60%positive (start counter_world)
            = Some (tt, t')) as (t' & Hrun)
    by (eexists; vm_compute; reflexivity).
  destruct (signal_rendezvous_reads_zero alone never 1 1 60%positive
              (start counter_world) t' Hrun)
    as (w & cs & Hw & Hz & Hcalls & _).
  exists t', w, cs. split; [exact Hrun|]. split; [exact Hw|].
  split; [exact Hz|exact Hcalls].
Defined.

Lemma signal_call_shape_witness :
  exists t' cs wake,
    signal alone never 8 50%positive (-1) (start three_world) = Some (tt, t') /\
    calls t' = calls (start three_world) ++
               [sync_mtx_lock; sync_mtx_unlock] ++ cs ++ wake /\
    rendezvous_waits 50%positive cs.
Proof.
  assert (exists t',
            signal alone never 8 50%positive (-1) (start three_world)
            = Some (tt, t')) as (t' & Hrun)
    by (eexists; vm_compute; reflexivity).
  destruct (signal_call_shape alone never 8 50%positive (-1)
              (start three_world) t' Hrun)
    as (cs & wake & Hcalls & Hall & _).
  exists t', cs, wake. split; [exact Hrun|]. split; [exact Hcalls|exact Hall].
Defined.

Lemma three_world_list :
  cv_list (cv (world (start three_world))) (waiters (world (start three_world)))
    ([3%positive] ++ 2%positive :: [1%positive]).
Proof. exact three_list. Qed.

Lemma timedwait_timeout_unlinks_witness :
  exists wa t',
    waiters (world (start three_world)) !! 2%positive = Some wa /\
    timedwait_finish (fun (_ : nat) (w : @World Z) => w) never 1 2%positive
      ZX_ERR_TIMED_OUT (start three_world) =
      Some (if decide ((lock_mutex (mutex (world (start three_world)))).1
                       ≠ ZX_OK)
            then ZX_ERR_BAD_STATE else ZX_ERR_TIMED_OUT, t') /\
    cv_list (cv (world t')) (waiters (world t'))
      ([3%positive] ++ [1%positive]) /\
    payload <$> waiters (world t') !! 2%positive
      = Some (LEAVING, barrier wa, None).
Proof.
  assert (exists wa,
            waiters (world (start three_world)) !! 2%positive = Some wa /\
            state wa = WAITING /\ notify wa = None)
    as (wa & Hwa & Hst & Hnone)
    by (eexists; split; [|split]; vm_compute; reflexivity).
  destruct (timedwait_timeout_unlinks never 1 2%positive ZX_ERR_TIMED_OUT
              (start three_world) [3%positive] [1%positive] wa
              three_world_list Hwa Hst Hnone)
    as (t' & Hrun & Hlist & Hpay & _).
  exists wa, t'. split; [exact Hwa|]. split; [exact Hrun|].
  split; [exact Hlist|exact Hpay].
Defined.

Lemma marked_world_list :
  cv_list (cv (world (start marked_world))) (waiters (world (start marked_world)))
    [].
Proof.
  split; [vm_compute; reflexivity|]. split; [vm_compute; reflexivity|].
  split; [apply NoDup_nil_2|exact I].
Qed.

Lemma marked_world_chain :
  NoDup ([3%positive] ++ 2%positive :: [1%positive]) /\
  dll_seg (waiters (world (start marked_world))) None
    ([3%positive] ++ 2%positive :: [1%positive]) None.
Proof.
  split.
  - refine (bool_decide_unpack _ _). vm_compute. exact I.
  - repeat (eexists; split; [vm_compute; reflexivity|];
            split; [reflexivity|]; split; [reflexivity|]).
    exact I.
Qed.

Lemma timedwait_leaver_notifies_witness :
  exists wa t',
    waiters (world (start marked_world)) !! 2%positive = Some wa /\
    notify wa = Some 50%positive /\
    ints (world (start marked_world)) !! 50%positive = Some 1 /\
    timedwait_leave (fun (_ : nat) (w : @World Z) => w) 2%positive
      (start marked_world) =
      Some (if decide ((lock_mutex (mutex (world (start marked_world)))).1
                       ≠ ZX_OK)
            then ZX_ERR_BAD_STATE else ZX_ERR_TIMED_OUT, t') /\
    dll_seg (waiters (world t')) None ([3%positive] ++ [1%positive]) None /\
    ints (world t') =
      <[50%positive := wrap_int (1 + -1)]> (ints (world (start marked_world))) /\
    calls t' = calls (start marked_world) ++
               [sync_mtx_lock; sync_mtx_unlock] ++
               (if decide (1 = 1) then [zx_futex_wake (int_at 50%positive) 1]
                else []) ++
               [MutexOps_lock].
Proof.
  assert (exists wa,
            waiters (world (start marked_world)) !! 2%positive = Some wa /\
            notify wa = Some 50%positive)
    as (wa & Hwa & Hnot)
    by (eexists; split; vm_compute; reflexivity).
  assert (ints (world (start marked_world)) !! 50%positive = Some 1) as Hv
    by (vm_compute; reflexivity).
  destruct (timedwait_leaver_notifies 2%positive (start marked_world) []
              [3%positive] [1%positive] wa 50%positive 1 marked_world_list
              (proj1 marked_world_chain) (proj2 marked_world_chain))
    as (t' & Hrun & _ & _ & Hseg & _ & Hints & Hcalls);
    [intros x _; apply not_elem_of_nil|exact Hwa|exact Hnot|exact Hv|].
  exists wa, t'. split; [exact Hwa|]. split; [exact Hnot|].
  split; [exact Hv|]. split; [exact Hrun|]. split; [exact Hseg|].
  split; [exact Hints|exact Hcalls].
Defined.

Lemma three_world_oldest :
  cv_list (cv (world (start three_world))) (waiters (world (start three_world)))
    ([3; 2]%positive ++ [1%positive]).
Proof. exact three_list. Qed.

Lemma signal_wakes_oldest_only_witness :
  exists wt t',
    waiters (world (start three_world)) !! 1%positive = Some wt /\
    signal (fun (_ : nat) (w : @World Z) => w) never 8 50%positive (-1)
      (start three_world) = Some (tt, t') /\
    calls t' = calls (start three_world) ++
               [sync_mtx_lock; sync_mtx_unlock] ++
               (if decide (barrier wt = LOCKED_MAYBE_WAITERS)
                then [zx_futex_wake (barrier_of 1%positive) 1] else []) /\
    barrier <$> waiters (world t') !! 1%positive = Some UNLOCKED /\
    (forall b, b ≠ 1%positive ->
       barrier <$> waiters (world t') !! b
       = barrier <$> waiters (world (start three_world)) !! b).
Proof.
  assert (exists wt, waiters (world (start three_world)) !! 1%positive = Some wt)
    as (wt & Hwt) by (eexists; vm_compute; reflexivity).
  destruct (signal_wakes_oldest_only never 8 50%positive (-1)
              (start three_world) [3; 2]%positive 1%positive wt
              three_world_oldest)
    as (t' & Hrun & Hcalls & Hbar & Hothers & _);
    [ |simpl; lia|right; split; [reflexivity|simpl; lia]|exact Hwt|].
  - intros a Ha.
    repeat (apply elem_of_cons in Ha as [->|Ha]; [reflexivity|]).
    now apply elem_of_nil in Ha.
  - exists wt, t'. split; [exact Hwt|]. split; [exact Hrun|].
    split; [exact Hcalls|]. split; [exact Hbar|exact Hothers].
Defined.

Lemma leaving_three_list : cv_list three.1 leaving_three [3; 2; 1]%positive.
Proof.
  destruct three_list as (Hhd & Htl & Hnd & Hseg).
  split; [done|]. split; [done|]. split; [done|].
  apply (dll_seg_ext three.2); [|done]. intros a _. unfold leaving_three.
  destruct (decide (2%positive = a)) as [<-|Hne].
  - rewrite lookup_alter_eq. now destruct (three.2 !! 2%positive).
  - now rewrite lookup_alter_ne.
Qed.

Lemma signal_counts_leavers_witness :
  exists c' h' l1 l2 first ref,
    signal_locked 50%positive 8 (-1) three.1 leaving_three
      = Some (c', h', first, ref) /\
    [3; 2; 1]%positive = l1 ++ l2 /\
    length l2 = visits (-1) (map (state_at leaving_three)
                                 (rev [3; 2; 1]%positive)) /\
    ref = Z.of_nat (length (not_waiting leaving_three l2)).
Proof.
  destruct (signal_counts_leavers 50%positive 8 (-1) three.1 leaving_three
              [3; 2; 1]%positive leaving_three_list)
    as (c' & h' & l1 & l2 & first & ref & Hrun & Hl & Hlen & Href & _);
    [simpl; lia|simpl; lia|now right|].
  exists c', h', l1, l2, first, ref. split; [exact Hrun|].
  split; [exact Hl|]. split; [exact Hlen|exact Href].
Defined.

Lemma timedwait_call_order_witness :
  exists r t' j rest,
    timedwait race timeout_at_2 8 1%positive (deadline_at 1000)
      (start empty_world) = Some (r, t') /\
    calls t' = calls (start empty_world) ++
               [sync_mtx_lock; sync_mtx_unlock; MutexOps_unlock] ++
               repeat (zx_futex_wait (barrier_of 1%positive)
                         LOCKED_MAYBE_WAITERS (deadline_at 1000)) (S j) ++
               rest.
Proof.
  assert (exists r t',
            timedwait race timeout_at_2 8 1%positive (deadline_at 1000)
              (start empty_world) = Some (r, t'))
    as (r & t' & Hrun) by (eexists _, _; vm_compute; reflexivity).
  destruct (timedwait_call_order race timeout_at_2 8 1%positive
              (deadline_at 1000) (start empty_world) r t' Hrun)
    as (j & rest & Hcalls & _).
  exists r, t', j, rest. split; [exact Hrun|exact Hcalls].
Defined.

End CondvarFacts.
